(** * vidmaker: timeline, caption and export logic of the editor page

    A shallow embedding of the editor script of [app/pages/index.vue] and of
    the MP4 conversion endpoint, together with the properties stated about
    them.  The page exists in a single-project and a multi-project variant.
    The functions embedded here are those of the single-project variant;
    most read the same in the other one, but [activeProgress] in
    [getCaptionWindowForTime] and [getCaptionPopScale] exist only in the
    first, and [restoreDraft] and [saveDraft] differ between the two.

    Modelling conventions.
    - A JavaScript [number] that the code has already found finite is a
      rational [Q]; arithmetic is exact, so rounding error of IEEE doubles is
      outside the model.  A number the code still tests with
      [Number.isFinite] is a [jsnum].
    - A JavaScript string is the list of its UTF-16 code units.
    - Reactive refs ([clips.value], [dragState.value], ...) are the fields of
      one [Editor] record that every handler takes and returns.
    - DOM media elements are records kept in the two ref maps, keyed by clip
      id; every assignment to [element.currentTime] is also appended to the
      element's [seekLog].  An assignment to [element.volume] of a value
      outside the range from 0 to 1 throws, as the HTML standard says, and
      ends the pass of the synchronizer that makes it.
    - [crypto.randomUUID()] draws from an id supply [nat -> jsstring] with a
      counter threaded through the loops. *)

From Stdlib Require Import QArith Qminmax Qround Qabs Lqa ZArith Lia Sorted.
From stdpp Require Import gmap strings list pretty.

Open Scope Q_scope.

(* ================================================================== *)
(** ** JavaScript values *)

Definition jsstring := list N.

(** Code units of an ASCII literal. *)
Definition js (s : string) : jsstring :=
  (fun a => Ascii.N_of_ascii a) <$> String.list_ascii_of_string s.

(** A number before [Number.isFinite] has been applied to it: NaN, the
    infinities, [null] and [undefined] are all [NonFinite]. *)
Inductive jsnum : Type :=
| Finite (q : Q)
| NonFinite.

(** Comparison operators on finite numbers. *)
Definition js_ge (x y : Q) : bool := Qle_bool y x.
Definition js_lt (x y : Q) : bool := negb (Qle_bool y x).
Definition js_gt (x y : Q) : bool := negb (Qle_bool x y).
Definition js_le (x y : Q) : bool := Qle_bool x y.

(** [Math.round]: nearest integer, halves towards plus infinity. *)
Definition Math_round (x : Q) : Q := inject_Z (Qfloor (x + (1 # 2))).

(** [Math.max(first, ...rest)]. *)
Definition Math_max_of (first : Q) (rest : list Q) : Q :=
  fold_left Qmax rest first.

(** [Number(n)] for an array length or index. *)
Definition of_nat (n : nat) : Q := inject_Z (Z.of_nat n).

(* ================================================================== *)
(** ** Data model *)

Inductive ClipKind : Type := video | image | audio.

Definition ClipKind_eqb (a b : ClipKind) : bool :=
  match a, b with
  | video, video | image, image | audio, audio => true
  | _, _ => false
  end.

Module Clip.
Record t : Type := mk {
  id : jsstring;
  fileId : jsstring;
  name : jsstring;
  kind : ClipKind;
  start : Q;
  duration : Q;
  sourceOffset : Q;
  sourceDuration : Q;
  volume : Q;
  muted : bool;
  previousVolume : Q;
  url : jsstring
}.

Definition set_start (v : Q) (c : t) : t :=
  mk (id c) (fileId c) (name c) (kind c) v (duration c) (sourceOffset c)
     (sourceDuration c) (volume c) (muted c) (previousVolume c) (url c).
Definition set_duration (v : Q) (c : t) : t :=
  mk (id c) (fileId c) (name c) (kind c) (start c) v (sourceOffset c)
     (sourceDuration c) (volume c) (muted c) (previousVolume c) (url c).
Definition set_sourceOffset (v : Q) (c : t) : t :=
  mk (id c) (fileId c) (name c) (kind c) (start c) (duration c) v
     (sourceDuration c) (volume c) (muted c) (previousVolume c) (url c).
Definition set_volume (v : Q) (c : t) : t :=
  mk (id c) (fileId c) (name c) (kind c) (start c) (duration c)
     (sourceOffset c) (sourceDuration c) v (muted c) (previousVolume c)
     (url c).
Definition set_muted (v : bool) (c : t) : t :=
  mk (id c) (fileId c) (name c) (kind c) (start c) (duration c)
     (sourceOffset c) (sourceDuration c) (volume c) v (previousVolume c)
     (url c).
Definition set_previousVolume (v : Q) (c : t) : t :=
  mk (id c) (fileId c) (name c) (kind c) (start c) (duration c)
     (sourceOffset c) (sourceDuration c) (volume c) (muted c) v (url c).
End Clip.

Inductive OverlayKind : Type := title | sticker.

Module OverlayItem.
Record t : Type := mk {
  id : jsstring;
  kind : OverlayKind;
  text : jsstring;
  start : Q;
  duration : Q;
  x : Q;
  y : Q;
  size : Q;
  color : jsstring;
  bg : jsstring
}.
End OverlayItem.

Module CaptionCue.
Record t : Type := mk {
  id : jsstring;
  start : Q;
  end_ : Q;
  text : jsstring
}.
End CaptionCue.

(** A cue as read back from the project store: its bounds are still to be
    checked with [Number.isFinite]. *)
Module StoredCue.
Record t : Type := mk {
  id : jsstring;
  start : jsnum;
  end_ : jsnum;
  text : jsstring
}.
End StoredCue.

Module AsrChunk.
Record t : Type := mk {
  text : option jsstring;
  timestamp : option (jsnum * jsnum)
}.
End AsrChunk.

Inductive DragMode : Type := move | trim_left | trim_right.

Module DragState.
Record t : Type := mk {
  clipId : jsstring;
  mode : DragMode;
  pointerStartX : Q;
  initialStart : Q;
  initialDuration : Q;
  initialSourceOffset : Q
}.
End DragState.

Module CaptionWindowCue.
Record t : Type := mk {
  cue : CaptionCue.t;
  isActive : bool;
  activeProgress : Q
}.
End CaptionWindowCue.

Module PointerEvent.
Record t : Type := mk {
  clientX : Q;
  button : Z
}.
End PointerEvent.

(** An [HTMLMediaElement], as far as the synchronizer touches it. *)
Module Media.
Record t : Type := mk {
  currentTime : Q;
  volume : Q;
  paused : bool;
  seekLog : list Q
}.

(** [element.volume = v]: a value outside the range from 0 to 1 throws an
    [IndexSizeError], here [None], and the element stays as it was. *)
Definition set_volume (v : Q) (e : t) : option t :=
  if js_ge v 0 && js_le v 1
  then Some (mk (currentTime e) v (paused e) (seekLog e))
  else None.
(** [element.currentTime = v] *)
Definition set_currentTime (v : Q) (e : t) : t :=
  mk v (volume e) (paused e) (seekLog e ++ [v]).
(** [element.pause()] *)
Definition pause (e : t) : t :=
  mk (currentTime e) (volume e) true (seekLog e).
(** [element.play()] *)
Definition play (e : t) : t :=
  mk (currentTime e) (volume e) false (seekLog e).
End Media.

Definition IMAGE_DEFAULT_DURATION : Q := 3.
Definition PX_PER_SECOND : Q := 60.
Definition MIN_CLIP_DURATION : Q := 2 # 10.
Definition CAPTION_WINDOW_WORD_COUNT : nat := 3.

(** The reactive state of the page. *)
Record Editor : Type := mkEditor {
  currentTime : Q;
  isPlaying : bool;
  clips : list Clip.t;
  captions : list CaptionCue.t;
  overlays : list OverlayItem.t;
  selectedClipId : option jsstring;
  selectedOverlayId : option jsstring;
  dragState : option DragState.t;
  visualVideoRefs : gmap jsstring Media.t;
  audioRefs : gmap jsstring Media.t
}.

Definition set_clips (v : list Clip.t) (st : Editor) : Editor :=
  mkEditor (currentTime st) (isPlaying st) v (captions st) (overlays st)
    (selectedClipId st) (selectedOverlayId st) (dragState st)
    (visualVideoRefs st) (audioRefs st).
Definition set_selectedClipId (v : option jsstring) (st : Editor) : Editor :=
  mkEditor (currentTime st) (isPlaying st) (clips st) (captions st)
    (overlays st) v (selectedOverlayId st) (dragState st)
    (visualVideoRefs st) (audioRefs st).
Definition set_selectedOverlayId (v : option jsstring) (st : Editor) : Editor :=
  mkEditor (currentTime st) (isPlaying st) (clips st) (captions st)
    (overlays st) (selectedClipId st) v (dragState st)
    (visualVideoRefs st) (audioRefs st).
Definition set_dragState (v : option DragState.t) (st : Editor) : Editor :=
  mkEditor (currentTime st) (isPlaying st) (clips st) (captions st)
    (overlays st) (selectedClipId st) (selectedOverlayId st) v
    (visualVideoRefs st) (audioRefs st).
Definition set_mediaRefs (v a : gmap jsstring Media.t) (st : Editor) : Editor :=
  mkEditor (currentTime st) (isPlaying st) (clips st) (captions st)
    (overlays st) (selectedClipId st) (selectedOverlayId st) (dragState st)
    v a.

(* ================================================================== *)
(** ** Timeline model *)

Definition inRange (time start duration : Q) : bool :=
  js_ge time start && js_lt time (start + duration).

Definition toStepTime (value : Q) : Q := Math_round (value * 20) / 20.

(** [array.sort((a, b) => a.start - b.start)]: the sort is stable, so an
    element is placed before the first later element that does not start
    earlier. *)
Fixpoint insertByStart (c : Clip.t) (sorted : list Clip.t) : list Clip.t :=
  match sorted with
  | [] => [c]
  | d :: rest =>
      if js_lt (Clip.start d - Clip.start c) 0
      then d :: insertByStart c rest
      else c :: d :: rest
  end.

Definition sortByStart (l : list Clip.t) : list Clip.t :=
  foldr insertByStart [] l.

Definition isVisual (c : Clip.t) : bool :=
  ClipKind_eqb (Clip.kind c) video || ClipKind_eqb (Clip.kind c) image.

Definition isAudio (c : Clip.t) : bool := ClipKind_eqb (Clip.kind c) audio.

Definition visualClips (st : Editor) : list Clip.t :=
  sortByStart (List.filter isVisual (clips st)).

Definition audioClips (st : Editor) : list Clip.t :=
  sortByStart (List.filter isAudio (clips st)).

Definition projectDuration (st : Editor) : Q :=
  let clipEnd :=
    match (fun clip => Clip.start clip + Clip.duration clip) <$> clips st with
    | [] => 0
    | e :: es => Math_max_of e es
    end in
  let overlayEnd :=
    match (fun item => OverlayItem.start item + OverlayItem.duration item)
            <$> overlays st with
    | [] => 0
    | e :: es => Math_max_of e es
    end in
  Qmax clipEnd overlayEnd.

(** [clips.value.find(item => item.id === id)], with the position of the
    object found, which later assignments mutate in place. *)
Definition findClip (id : jsstring) (l : list Clip.t) : option (nat * Clip.t) :=
  list_find (fun item => Clip.id item = id) l.

Definition selectedClip (st : Editor) : option (nat * Clip.t) :=
  match selectedClipId st with
  | Some (c :: s) => findClip (c :: s) (clips st)
  | Some [] | None => None
  end.

(* ================================================================== *)
(** ** Playback synchronizer *)

Definition getOutputVolume (clip : Clip.t) : Q :=
  if ClipKind_eqb (Clip.kind clip) video && Clip.muted clip
  then 0
  else Clip.volume clip.

(** [safePlay]: a rejected play promise is swallowed. *)
Definition safePlay (element : Media.t) : Media.t := Media.play element.

(** One iteration of either loop of [syncPreviewMedia], past the kind test
    and the lookup of the element.  The volume assignment comes first: when
    it throws, the result is [None] and the element has not been touched. *)
Definition syncElement (forceSeek playing : bool) (timelineTime : Q)
    (clip : Clip.t) (element : Media.t) : option Media.t :=
  match Media.set_volume (getOutputVolume clip) element with
  | None => None
  | Some element =>
      Some
        (if inRange timelineTime (Clip.start clip) (Clip.duration clip) then
           let localTime :=
             timelineTime - Clip.start clip + Clip.sourceOffset clip in
           let element :=
             if forceSeek
                || js_gt (Qabs (Media.currentTime element - localTime)) (2 # 10)
             then Media.set_currentTime localTime element
             else element in
           if playing then safePlay element else Media.pause element
         else Media.pause element)
  end.

(** The element registered for the clip, if any, is updated in its map;
    [None] when the iteration throws. *)
Definition syncClip (forceSeek playing : bool) (timelineTime : Q)
    (refs : gmap jsstring Media.t) (clip : Clip.t)
    : option (gmap jsstring Media.t) :=
  match refs !! Clip.id clip with
  | None => Some refs
  | Some element =>
      match syncElement forceSeek playing timelineTime clip element with
      | None => None
      | Some element => Some (<[Clip.id clip := element]> refs)
      end
  end.

(** A [for] loop over clips whose body may throw: the map as the loop left
    it, and whether the loop ran to its end. *)
Fixpoint syncLoop
    (body : gmap jsstring Media.t -> Clip.t -> option (gmap jsstring Media.t))
    (l : list Clip.t) (refs : gmap jsstring Media.t)
    : gmap jsstring Media.t * bool :=
  match l with
  | [] => (refs, true)
  | clip :: rest =>
      match body refs clip with
      | None => (refs, false)
      | Some refs => syncLoop body rest refs
      end
  end.

(** The first loop of [syncPreviewMedia]. *)
Definition syncVideos (forceSeek : bool) (st : Editor)
    : gmap jsstring Media.t * bool :=
  syncLoop
    (fun refs clip =>
       if negb (ClipKind_eqb (Clip.kind clip) video) then Some refs
       else syncClip forceSeek (isPlaying st) (currentTime st) refs clip)
    (visualClips st) (visualVideoRefs st).

(** The second loop, which is not reached when the first one throws. *)
Definition syncAudios (forceSeek : bool) (st : Editor)
    : gmap jsstring Media.t * bool :=
  if snd (syncVideos forceSeek st)
  then syncLoop (syncClip forceSeek (isPlaying st) (currentTime st))
         (audioClips st) (audioRefs st)
  else (audioRefs st, false).

(** The page after [syncPreviewMedia] has returned or thrown. *)
Definition syncPreviewMedia (forceSeek : bool) (st : Editor) : Editor :=
  set_mediaRefs (fst (syncVideos forceSeek st)) (fst (syncAudios forceSeek st)) st.

(** Whether [syncPreviewMedia] throws.  In every handler but [stepPlayback],
    [togglePlayback] and [exportMp4] the call is the last statement, so the
    page after the handler is the same whether the call returns or throws. *)
Definition syncPreviewMedia_throws (forceSeek : bool) (st : Editor) : bool :=
  negb (snd (syncAudios forceSeek st)).

(* ================================================================== *)
(** ** Inspector and drag gestures *)

Definition selectClip (id : jsstring) (st : Editor) : Editor :=
  set_selectedClipId (Some id) (set_selectedOverlayId None st).

Inductive ClipField : Type :=
| field_start | field_duration | field_volume | field_sourceOffset.

(** The assignments [updateSelectedClipField] makes to the selected clip for
    a finite [parsed]. *)
Definition applyClipField (field : ClipField) (parsed : Q) (c : Clip.t) : Clip.t :=
  match field with
  | field_start => Clip.set_start (Qmax 0 parsed) c
  | field_duration =>
      let maxDuration :=
        if ClipKind_eqb (Clip.kind c) image
        then Qmax MIN_CLIP_DURATION parsed
        else Qmax MIN_CLIP_DURATION (Clip.sourceDuration c - Clip.sourceOffset c) in
      Clip.set_duration (Qmin (Qmax MIN_CLIP_DURATION parsed) maxDuration) c
  | field_sourceOffset =>
      if ClipKind_eqb (Clip.kind c) image then Clip.set_sourceOffset 0 c
      else
        let nextOffset :=
          Qmax 0 (Qmin parsed (Clip.sourceDuration c - MIN_CLIP_DURATION)) in
        let c := Clip.set_sourceOffset nextOffset c in
        Clip.set_duration
          (Qmin (Clip.duration c)
             (Qmax MIN_CLIP_DURATION (Clip.sourceDuration c - Clip.sourceOffset c)))
          c
  | field_volume =>
      let c := Clip.set_volume (Qmax 0 (Qmin 2 parsed)) c in
      if ClipKind_eqb (Clip.kind c) video then
        let c := Clip.set_muted (Qeq_bool (Clip.volume c) 0) c in
        if js_gt (Clip.volume c) 0
        then Clip.set_previousVolume (Clip.volume c) c
        else c
      else c
  end.

(** [value] is the field's input already passed through [Number]. *)
Definition updateSelectedClipField (field : ClipField) (value : jsnum)
    (st : Editor) : Editor :=
  match selectedClip st with
  | None => st
  | Some (i, c) =>
      match value with
      | NonFinite => st
      | Finite parsed =>
          let st' := set_clips (<[i := applyClipField field parsed c]> (clips st)) st in
          match field with
          | field_sourceOffset =>
              if ClipKind_eqb (Clip.kind c) image then st'
              else syncPreviewMedia true st'
          | _ => syncPreviewMedia true st'
          end
      end
  end.

Definition startClipDrag (mode : DragMode) (clip : Clip.t)
    (event : PointerEvent.t) (st : Editor) : Editor :=
  if negb (Z.eqb (PointerEvent.button event) 0) then st
  else
    set_dragState
      (Some (DragState.mk (Clip.id clip) mode (PointerEvent.clientX event)
               (Clip.start clip) (Clip.duration clip) (Clip.sourceOffset clip)))
      (selectClip (Clip.id clip) st).

(** The assignments [onPointerMove] makes to the dragged clip. *)
Definition dragClip (ds : DragState.t) (deltaSec : Q) (clip : Clip.t) : Clip.t :=
  match DragState.mode ds with
  | move =>
      Clip.set_start (Qmax 0 (toStepTime (DragState.initialStart ds + deltaSec))) clip
  | trim_right =>
      let maxDur :=
        if ClipKind_eqb (Clip.kind clip) image
        then 120
        else Qmax MIN_CLIP_DURATION (Clip.sourceDuration clip - Clip.sourceOffset clip) in
      Clip.set_duration
        (Qmin maxDur
           (Qmax MIN_CLIP_DURATION (toStepTime (DragState.initialDuration ds + deltaSec))))
        clip
  | trim_left =>
      if ClipKind_eqb (Clip.kind clip) image then
        let nextStart := Qmax 0 (toStepTime (DragState.initialStart ds + deltaSec)) in
        let startShift := nextStart - DragState.initialStart ds in
        let clip := Clip.set_start nextStart clip in
        Clip.set_duration
          (Qmax MIN_CLIP_DURATION (toStepTime (DragState.initialDuration ds - startShift)))
          clip
      else
        let nextOffset :=
          Qmax 0
            (Qmin (DragState.initialSourceOffset ds + deltaSec)
               (Clip.sourceDuration clip - MIN_CLIP_DURATION)) in
        let sourceDelta := nextOffset - DragState.initialSourceOffset ds in
        let clip := Clip.set_sourceOffset (toStepTime nextOffset) clip in
        let clip :=
          Clip.set_start (Qmax 0 (toStepTime (DragState.initialStart ds + sourceDelta))) clip in
        Clip.set_duration
          (Qmax MIN_CLIP_DURATION (toStepTime (DragState.initialDuration ds - sourceDelta)))
          clip
  end.

Definition onPointerMove (event : PointerEvent.t) (st : Editor) : Editor :=
  match dragState st with
  | None => st
  | Some ds =>
      match findClip (DragState.clipId ds) (clips st) with
      | None => set_dragState None st
      | Some (i, clip) =>
          let deltaSec :=
            toStepTime ((PointerEvent.clientX event - DragState.pointerStartX ds)
                        / PX_PER_SECOND) in
          set_clips (<[i := dragClip ds deltaSec clip]> (clips st)) st
      end
  end.

Definition onPointerUp (st : Editor) : Editor :=
  match dragState st with
  | None => st
  | Some _ => syncPreviewMedia true (set_dragState None st)
  end.

(* ================================================================== *)
(** ** Caption model *)

Definition SPACE : N := 32%N.

(** The characters matched by [\s] and stripped by [trim]: the WhiteSpace
    and LineTerminator code units of ECMAScript. *)
Definition isSpace (c : N) : bool :=
  ((9 <=? c) && (c <=? 13) || (c =? 32) || (c =? 160) || (c =? 5760)
   || (8192 <=? c) && (c <=? 8202) || (c =? 8232) || (c =? 8233)
   || (c =? 8239) || (c =? 8287) || (c =? 12288) || (c =? 65279))%N.

(** [text.replace(/\s+/g, ' ')]; [inRun] records that the previous code unit
    belonged to the run being replaced. *)
Fixpoint replaceSpaceRuns (inRun : bool) (text : jsstring) : jsstring :=
  match text with
  | [] => []
  | c :: rest =>
      if isSpace c
      then (if inRun then replaceSpaceRuns true rest
            else SPACE :: replaceSpaceRuns true rest)
      else c :: replaceSpaceRuns false rest
  end.

Fixpoint trimStart (text : jsstring) : jsstring :=
  match text with
  | [] => []
  | c :: rest => if isSpace c then trimStart rest else c :: rest
  end.

Definition trim (text : jsstring) : jsstring :=
  reverse (trimStart (reverse (trimStart text))).

Definition normalizeCaptionText (text : jsstring) : jsstring :=
  trim (replaceSpaceRuns false text).

(** [text.split(' ')] *)
Fixpoint split (sep : N) (text : jsstring) : list jsstring :=
  match text with
  | [] => [[]]
  | c :: rest =>
      if (c =? sep)%N then [] :: split sep rest
      else match split sep rest with
           | [] => [[c]]
           | w :: ws => (c :: w) :: ws
           end
  end.

(** [Boolean(s)] for a string. *)
Definition truthy (s : jsstring) : bool :=
  match s with [] => false | _ :: _ => true end.

(** [text.split(' ').filter(Boolean)] *)
Definition wordsOf (text : jsstring) : list jsstring :=
  List.filter truthy (split SPACE text).

(** The [words.forEach] body shared by [normalizeStoredCaptionCues] and
    [buildCaptionCues]: the cue pushed for [word] at position [index]. *)
Definition wordCue (uuid : nat -> jsstring) (next : nat)
    (safeStart safeEnd wordDuration : Q) (count index : nat)
    (word : jsstring) : CaptionCue.t :=
  let start := safeStart + wordDuration * of_nat index in
  let end_ :=
    if (index =? count - 1)%nat then safeEnd
    else Qmin safeEnd (start + wordDuration) in
  CaptionCue.mk (uuid (next + index)%nat) start (Qmax (start + (8 # 100)) end_) word.

Definition wordCues (uuid : nat -> jsstring) (next : nat)
    (safeStart safeEnd : Q) (words : list jsstring) : list CaptionCue.t :=
  let duration := Qmax (2 # 10) (safeEnd - safeStart) in
  let wordDuration := duration / of_nat (length words) in
  imap (wordCue uuid next safeStart safeEnd wordDuration (length words)) words.

(** One iteration of the loop of [normalizeStoredCaptionCues]: the cues
    accumulated so far and the number of ids drawn. *)
Definition normalizeStoredStep (uuid : nat -> jsstring)
    (acc : list CaptionCue.t * nat) (cue : StoredCue.t)
    : list CaptionCue.t * nat :=
  let '(normalized, next) := acc in
  let text := normalizeCaptionText (StoredCue.text cue) in
  let safeStart :=
    match StoredCue.start cue with Finite s => Qmax 0 s | NonFinite => 0 end in
  let safeEnd :=
    match StoredCue.end_ cue with
    | Finite e => Qmax (safeStart + (2 # 10)) e
    | NonFinite => safeStart + 2
    end in
  let words := wordsOf text in
  if (length words <=? 1)%nat then
    if negb (truthy text) then (normalized, next)
    else if truthy (StoredCue.id cue)
    then (normalized ++ [CaptionCue.mk (StoredCue.id cue) safeStart safeEnd text], next)
    else (normalized ++ [CaptionCue.mk (uuid next) safeStart safeEnd text], S next)
  else
    (normalized ++ wordCues uuid next safeStart safeEnd words,
     (next + length words)%nat).

Definition normalizeStoredCaptionCues (uuid : nat -> jsstring)
    (rawCues : list StoredCue.t) : list CaptionCue.t :=
  fst (fold_left (normalizeStoredStep uuid) rawCues ([], 0%nat)).

(** The loop state of [buildCaptionCues]. *)
Record BuildState : Type := mkBuildState {
  cues : list CaptionCue.t;
  cursor : Q;
  nextId : nat
}.

(** The span the loop body computes for a chunk: [safeStart] and [safeEnd]. *)
Definition chunkSpan (cursor : Q) (chunk : AsrChunk.t) : Q * Q :=
  let '(start, end_) :=
    match AsrChunk.timestamp chunk with
    | Some ts => ts
    | None => (Finite cursor, Finite (cursor + 2))
    end in
  let safeStart := match start with Finite s => Qmax 0 s | NonFinite => cursor end in
  let safeEnd :=
    match end_ with
    | Finite e => Qmax (safeStart + (2 # 10)) e
    | NonFinite => safeStart + 2
    end in
  (safeStart, safeEnd).

(** The text of a chunk: [normalizeCaptionText(chunk.text ?? '')]. *)
Definition chunkText (chunk : AsrChunk.t) : jsstring :=
  normalizeCaptionText (default [] (AsrChunk.text chunk)).

Definition buildStep (uuid : nat -> jsstring) (s : BuildState)
    (chunk : AsrChunk.t) : BuildState :=
  let text := chunkText chunk in
  if negb (truthy text) then s
  else
    let '(safeStart, safeEnd) := chunkSpan (cursor s) chunk in
    let words := wordsOf text in
    match words with
    | [] => mkBuildState (cues s) safeEnd (nextId s)
    | _ :: _ =>
        mkBuildState
          (cues s ++ wordCues uuid (nextId s) safeStart safeEnd words)
          safeEnd
          (nextId s + length words)%nat
    end.

Definition buildLoop (uuid : nat -> jsstring) (rawChunks : list AsrChunk.t)
    : BuildState :=
  fold_left (buildStep uuid) rawChunks (mkBuildState [] 0 0%nat).

Definition NO_SPEECH : jsstring := js "No speech detected".

Definition buildCaptionCues (uuid : nat -> jsstring)
    (rawChunks : list AsrChunk.t) (fallbackDuration : Q) : list CaptionCue.t :=
  let s := buildLoop uuid rawChunks in
  match cues s with
  | [] => [CaptionCue.mk (uuid (nextId s)) 0 (Qmax 2 fallbackDuration) NO_SPEECH]
  | _ :: _ => cues s
  end.

(** [array.slice(start, end)] for [start <= end]. *)
Definition slice {A : Type} (start end_ : nat) (l : list A) : list A :=
  take (end_ - start) (drop start l).

Definition cueContains (time : Q) (cue : CaptionCue.t) : bool :=
  inRange time (CaptionCue.start cue) (CaptionCue.end_ cue - CaptionCue.start cue).

Definition getCaptionWindowForTime (time : Q) (st : Editor)
    : list CaptionWindowCue.t :=
  match list_find (fun cue => cueContains time cue = true) (captions st) with
  | None => []
  | Some (activeIndex, _) =>
      let total := length (captions st) in
      let start :=
        (activeIndex / CAPTION_WINDOW_WORD_COUNT * CAPTION_WINDOW_WORD_COUNT)%nat in
      let end_ := Nat.min total (start + CAPTION_WINDOW_WORD_COUNT) in
      imap
        (fun index cue =>
           CaptionWindowCue.mk cue
             (start + index =? activeIndex)%nat
             (if (start + index =? activeIndex)%nat
              then Qmin 1
                     (Qmax 0
                        ((time - CaptionCue.start cue)
                         / Qmax (1 # 1000)
                             (CaptionCue.end_ cue - CaptionCue.start cue)))
              else 0))
        (slice start end_ (captions st))
  end.

(* ================================================================== *)
(** ** Export: conversion of the recorded buffer *)

(** What a [throw] carries: [createError({ statusCode, statusMessage })] on
    the server, [new Error(message)] elsewhere. *)
Inductive Thrown : Type :=
| H3Error (statusCode : nat) (statusMessage : jsstring)
| JsError (message : jsstring).

(** Calls that leave the process, in the order they are issued. *)
Inductive Effect : Type :=
| Fetch (url method contentType : jsstring) (body : list N)
| Mkdtemp (prefix : jsstring)
| WriteFile (path : jsstring) (data : list N)
| Spawn (command : jsstring) (args : list jsstring)
| ReadFile (path : jsstring)
| SetHeader (name value : jsstring)
| Rm (path : jsstring).

(** A computation that issues effects and then returns or throws. *)
Definition Run (A : Type) : Type := list Effect * (Thrown + A).

Definition ret {A : Type} (a : A) : Run A := ([], inr a).
Definition throw {A : Type} (e : Thrown) : Run A := ([], inl e).
Definition perform (e : Effect) : Run unit := ([e], inr tt).
Definition bind {A B : Type} (m : Run A) (k : A -> Run B) : Run B :=
  match m with
  | (t, inl e) => (t, inl e)
  | (t, inr a) => let '(t', r) := k a in (t ++ t', r)
  end.
(** [try { body } finally { cleanup }] *)
Definition finally {A : Type} (body : Run A) (cleanup : Run unit) : Run A :=
  let '(t, r) := body in
  match cleanup with
  | (t', inl e) => (t ++ t', inl e)
  | (t', inr _) => (t ++ t', r)
  end.

Notation "x <- m ;; k" := (bind m (fun x => k))
  (at level 100, m at next level, right associativity).
Notation "m ;;; k" := (bind m (fun _ => k))
  (at level 100, right associativity).

Module Blob.
Record t : Type := mk {
  bytes : list N;
  type : jsstring
}.
Definition size (b : t) : nat := length (bytes b).
End Blob.

Module Response.
Record t : Type := mk {
  ok : bool;
  status : nat;
  text : jsstring;
  arrayBuffer : list N
}.
End Response.

(** How a request ends: with a response, with a rejection, or not before
    the timer of [withTimeout] fires. *)
Inductive FetchOutcome : Type :=
| Responded (response : Response.t)
| Rejected (message : jsstring)
| Pending.

(** [fetch(url, { method, headers: { 'content-type': ... }, body })]: the
    request is issued, and the network decides how it ends. *)
Definition fetch (network : list N -> FetchOutcome)
    (url method contentType : jsstring) (body : list N) : Run FetchOutcome :=
  perform (Fetch url method contentType body) ;;;
  ret (network body).

(** [withTimeout(promise, timeoutMs, message)]: the race of the request
    against the timer. *)
Definition withTimeout (promise : Run FetchOutcome) (timeoutMs : N)
    (message : jsstring) : Run Response.t :=
  outcome <- promise ;;
  match outcome with
  | Responded response => ret response
  | Rejected m => throw (JsError m)
  | Pending => throw (JsError message)
  end.

Definition EMPTY_BUFFER_MESSAGE : jsstring :=
  js "Rendered video buffer is empty. Please add at least one playable clip and retry.".

(** The error thrown for a response that is not ok is always the one of the
    [catch] block: the [throw] inside the [try] is caught by it as well. *)
Definition convertWebmToMp4 (network : list N -> FetchOutcome)
    (webmBlob : Blob.t) : Run Blob.t :=
  if (Blob.size webmBlob =? 0)%nat then throw (JsError EMPTY_BUFFER_MESSAGE)
  else
    response <- withTimeout
                  (fetch network (js "/api/export-mp4") (js "POST")
                     (js "video/webm") (Blob.bytes webmBlob))
                  900000 (js "Timed out converting to MP4") ;;
    if negb (Response.ok response) then
      let responseText := Response.text response in
      if truthy responseText then throw (JsError responseText)
      else throw (JsError (js "Export API failed: "
                           ++ js (pretty (Response.status response))))
    else ret (Blob.mk (Response.arrayBuffer response) (js "video/mp4")).

(** How a transcoder run ends. *)
Inductive FfmpegOutcome : Type :=
| SpawnError (message : jsstring)
| Closed (code : Z) (stderr : jsstring) (output : option (list N)).

(** The server's surroundings: the bundled transcoder, [os.tmpdir()], the
    directory [mkdtemp] creates or the error it rejects with, the error
    [writeFile] rejects with, if any, how a transcoder run ends, and the
    error [rm] rejects with, if any. *)
Record Server : Type := mkServer {
  ffmpegStatic : option jsstring;
  tmpdir : jsstring;
  mkdtemp : Thrown + jsstring;
  writeFile : option Thrown;
  ffmpeg : list N -> FfmpegOutcome;
  rm : option Thrown
}.

Definition join (dir file : jsstring) : jsstring := dir ++ js "/" ++ file.

Definition runFfmpeg (env : Server) (input : list N)
    (ffmpegPath inputPath outputPath : jsstring) : Run (option (list N)) :=
  let args :=
    [js "-y"; js "-i"; inputPath; js "-c:v"; js "libx264"; js "-preset";
     js "veryfast"; js "-pix_fmt"; js "yuv420p"; js "-c:a"; js "aac";
     js "-movflags"; js "faststart"; outputPath] in
  perform (Spawn ffmpegPath args) ;;;
  match ffmpeg env input with
  | SpawnError m => throw (JsError m)
  | Closed code stderr output =>
      if (code =? 0)%Z then ret output
      else if truthy stderr then throw (JsError stderr)
      else throw (JsError (js "ffmpeg exited with code " ++ js (pretty code)))
  end.

(** The event handler of the conversion endpoint, once the request body
    has been read; [chunks] are the buffers read from the request. *)
Definition exportMp4Handler (env : Server) (chunks : list (list N))
    : Run (list N) :=
  let input := concat chunks in
  if (length input =? 0)%nat
  then throw (H3Error 400 (js "Missing video payload"))
  else
    match ffmpegStatic env with
    | None | Some [] => throw (H3Error 500 (js "ffmpeg binary unavailable"))
    | Some (c :: p) =>
        perform (Mkdtemp (join (tmpdir env) (js "vidmaker-"))) ;;;
        match mkdtemp env with
        | inl error => throw error
        | inr tempDir =>
            let inputPath := join tempDir (js "input.webm") in
            let outputPath := join tempDir (js "output.mp4") in
            finally
              (perform (WriteFile inputPath input) ;;;
               match writeFile env with
               | Some error => throw error
               | None =>
                   produced <- runFfmpeg env input (c :: p) inputPath outputPath ;;
                   perform (ReadFile outputPath) ;;;
                   match produced with
                   | None => throw (JsError (js "ENOENT"))
                   | Some output =>
                       perform (SetHeader (js "content-type") (js "video/mp4")) ;;;
                       ret output
                   end
               end)
              (perform (Rm tempDir) ;;;
               match rm env with
               | Some error => throw error
               | None => ret tt
               end)
        end
    end.

(** The whole event handler: the request body is read first, and
    [streamError] is the error the request stream ended with, if any. *)
Definition exportMp4Endpoint (env : Server) (chunks : list (list N))
    (streamError : option Thrown) : Run (list N) :=
  match streamError with
  | Some error => throw error
  | None => exportMp4Handler env chunks
  end.

(* ================================================================== *)
(** ** Vocabulary of the properties *)

Definition endOfClip (clip : Clip.t) : Q := Clip.start clip + Clip.duration clip.

Definition endOfOverlay (item : OverlayItem.t) : Q :=
  OverlayItem.start item + OverlayItem.duration item.

(** The end times of everything placed on the timeline. *)
Definition allEnds (st : Editor) : list Q :=
  (endOfClip <$> clips st) ++ (endOfOverlay <$> overlays st).

(** A value on the 1/20 s grid of [toStepTime]. *)
Definition onGrid (x : Q) : Prop := toStepTime x == x.

(** The bounds every mutation of a clip is meant to keep. *)
Definition clipInvariant (c : Clip.t) : Prop :=
  MIN_CLIP_DURATION <= Clip.duration c /\
  (Clip.kind c <> image ->
   0 <= Clip.sourceOffset c /\
   Clip.sourceOffset c <= Clip.sourceDuration c - MIN_CLIP_DURATION).

(** A whole drag: pointer down on a handle of [clip], the pointer moves in
    order, pointer up. *)
Definition dragGesture (mode : DragMode) (clip : Clip.t)
    (down : PointerEvent.t) (moves : list PointerEvent.t) (st : Editor) : Editor :=
  onPointerUp
    (fold_left (fun s event => onPointerMove event s) moves
       (startClipDrag mode clip down st)).

(** The drag distance in seconds, as [onPointerMove] computes it. *)
Definition dragDelta (down event : PointerEvent.t) : Q :=
  toStepTime ((PointerEvent.clientX event - PointerEvent.clientX down) / PX_PER_SECOND).

Definition clamp01 (x : Q) : Q := Qmin 1 (Qmax 0 x).

(** [time] lies in the half-open interval of the cue. *)
Definition cueCovers (time : Q) (cue : CaptionCue.t) : Prop :=
  CaptionCue.start cue <= time /\ time < CaptionCue.end_ cue.

(** A cue has the given text and bounds; its id is left open. *)
Definition cueIs (cue : CaptionCue.t) (expected : jsstring * Q * Q) : Prop :=
  let '(text, start, end_) := expected in
  CaptionCue.text cue = text /\
  CaptionCue.start cue == start /\
  CaptionCue.end_ cue == end_.

(** The smallest length of a cue either producer emits. *)
Definition MIN_CUE_LENGTH : Q := 8 # 100.

(** A chunk with a finite time stamp, and one without a [timestamp] array. *)
Definition chunkAt (text : string) (start end_ : Q) : AsrChunk.t :=
  AsrChunk.mk (Some (js text)) (Some (Finite start, Finite end_)).

(** A stored cue whose text is one word once normalized. *)
Definition singleWord (cue : StoredCue.t) : Prop :=
  length (wordsOf (normalizeCaptionText (StoredCue.text cue))) = 1%nat.

(** A stored cue with finite bounds, a start that is not negative and a
    length of at least 0.2 s. *)
Definition wellSpaced (cue : StoredCue.t) : Prop :=
  match StoredCue.start cue, StoredCue.end_ cue with
  | Finite s, Finite e => 0 <= s /\ s + (2 # 10) <= e
  | _, _ => False
  end.

(** Same bounds, for a number still to be checked and a checked one. *)
Definition sameBound (stored : jsnum) (q : Q) : Prop :=
  match stored with
  | Finite s => q == s
  | NonFinite => False
  end.

(** The media element map a playable clip is registered in. *)
Definition refsFor (clip : Clip.t) (st : Editor) : gmap jsstring Media.t :=
  match Clip.kind clip with
  | audio => audioRefs st
  | _ => visualVideoRefs st
  end.

(** A clip whose output volume a media element accepts; an image has no
    media element. *)
Definition playable (clip : Clip.t) : Prop :=
  Clip.kind clip = image \/
  (0 <= getOutputVolume clip /\ getOutputVolume clip <= 1).

(** The element as a clip's iteration leaves it: updated when the iteration
    ran to its end, untouched when it threw. *)
Definition synced (forceSeek playing : bool) (timelineTime : Q)
    (clip : Clip.t) (element : Media.t) : Media.t :=
  default element (syncElement forceSeek playing timelineTime clip element).

(** The drag state [startClipDrag] records for a clip. *)
Definition dragStateOf (mode : DragMode) (clip : Clip.t) (down : PointerEvent.t)
    : DragState.t :=
  DragState.mk (Clip.id clip) mode (PointerEvent.clientX down)
    (Clip.start clip) (Clip.duration clip) (Clip.sourceOffset clip).

(** The cue [saveDraft] writes to the project store. *)
Definition storeCue (cue : CaptionCue.t) : StoredCue.t :=
  StoredCue.mk (CaptionCue.id cue) (Finite (CaptionCue.start cue))
    (Finite (CaptionCue.end_ cue)) (CaptionCue.text cue).

(** A cue read back keeps the stored one: its text is the one word of the
    stored text, its bounds are the stored bounds, and its id is the stored
    id unless that was empty. *)
Definition keepsCue (out : CaptionCue.t) (stored : StoredCue.t) : Prop :=
  wordsOf (normalizeCaptionText (StoredCue.text stored)) = [CaptionCue.text out] /\
  sameBound (StoredCue.start stored) (CaptionCue.start out) /\
  sameBound (StoredCue.end_ stored) (CaptionCue.end_ out) /\
  (StoredCue.id stored <> [] -> CaptionCue.id out = StoredCue.id stored).

(** An id supply for examples. *)
Definition demoUuid (n : nat) : jsstring := js "cue-" ++ js (pretty n).

(* ================================================================== *)
(** ** Active items and track ends *)

(** [array.sort((a, b) => a.start - b.start)] on overlays. *)
Fixpoint insertOverlayByStart (item : OverlayItem.t) (sorted : list OverlayItem.t)
    : list OverlayItem.t :=
  match sorted with
  | [] => [item]
  | other :: rest =>
      if js_lt (OverlayItem.start other - OverlayItem.start item) 0
      then other :: insertOverlayByStart item rest
      else item :: other :: rest
  end.

Definition sortOverlaysByStart (l : list OverlayItem.t) : list OverlayItem.t :=
  foldr insertOverlayByStart [] l.

Definition activeOverlays (st : Editor) : list OverlayItem.t :=
  sortOverlaysByStart
    (List.filter
       (fun item => inRange (currentTime st) (OverlayItem.start item)
                      (OverlayItem.duration item))
       (overlays st)).

Definition activeVisualClip (st : Editor) : option Clip.t :=
  List.find
    (fun clip => inRange (currentTime st) (Clip.start clip) (Clip.duration clip))
    (visualClips st).

Definition getTrackEnd (kind : ClipKind) (st : Editor) : Q :=
  let selected :=
    List.filter
      (fun clip =>
         if ClipKind_eqb kind audio then ClipKind_eqb (Clip.kind clip) audio
         else ClipKind_eqb (Clip.kind clip) video
              || ClipKind_eqb (Clip.kind clip) image)
      (clips st) in
  match (fun clip => Clip.start clip + Clip.duration clip) <$> selected with
  | [] => 0
  | e :: es => Math_max_of e es
  end.

(** Clips ordered by start time. *)
Definition byStart (a b : Clip.t) : Prop := Clip.start a <= Clip.start b.

Definition overlayByStart (a b : OverlayItem.t) : Prop :=
  OverlayItem.start a <= OverlayItem.start b.

(** The timeline time lies in the interval of the clip, or of the overlay. *)
Definition clipActive (time : Q) (clip : Clip.t) : Prop :=
  Clip.start clip <= time /\ time < Clip.start clip + Clip.duration clip.

Definition overlayActive (time : Q) (item : OverlayItem.t) : Prop :=
  OverlayItem.start item <= time /\
  time < OverlayItem.start item + OverlayItem.duration item.

(** Two clips on the same track: audio, or visual (video and image). *)
Definition sameTrack (kind : ClipKind) (clip : Clip.t) : Prop :=
  match kind with
  | audio => Clip.kind clip = audio
  | _ => Clip.kind clip <> audio
  end.

(* ================================================================== *)
(** ** Media import *)

(** A [File] picked by the user. *)
Module MediaFile.
Record t : Type := mk {
  name : jsstring;
  type : jsstring;
  bytes : list N
}.
End MediaFile.

Module StoredFileRecord.
Record t : Type := mk {
  id : jsstring;
  name : jsstring;
  type : jsstring;
  blob : list N
}.
End StoredFileRecord.

(** [text.startsWith(prefix)] *)
Fixpoint startsWith (prefix text : jsstring) : bool :=
  match prefix, text with
  | [], _ => true
  | _ :: _, [] => false
  | p :: prefix, c :: text => (p =? c)%N && startsWith prefix text
  end.

(** The kind the import loop gives a file, from its MIME type. *)
Definition kindOfFile (file : MediaFile.t) : option ClipKind :=
  if startsWith (js "video/") (MediaFile.type file) then Some video
  else if startsWith (js "image/") (MediaFile.type file) then Some image
  else if startsWith (js "audio/") (MediaFile.type file) then Some audio
  else None.

(** The state the import loop works on: the page, the [files] object store,
    and the number of ids drawn from [crypto.randomUUID]. *)
Record Library : Type := mkLibrary {
  editor : Editor;
  fileStore : gmap jsstring StoredFileRecord.t;
  uuids : nat
}.

(** One iteration of the loop of [importMedia].  [createUrl] stands for
    [URL.createObjectURL]; [probe] is [getMediaDuration], which resolves
    with a finite duration or rejects. *)
Definition importFile (uuid : nat -> jsstring)
    (createUrl : MediaFile.t -> jsstring) (probe : MediaFile.t -> option Q)
    (lib : Library) (file : MediaFile.t) : Library * option Thrown :=
  let fileId := uuid (uuids lib) in
  let url := createUrl file in
  let skipped := mkLibrary (editor lib) (fileStore lib) (S (uuids lib)) in
  let push (kind : ClipKind) (duration : Q) :=
    let safeDuration :=
      Qmax MIN_CLIP_DURATION
        (if Qeq_bool duration 0 then IMAGE_DEFAULT_DURATION else duration) in
    let store :=
      <[fileId := StoredFileRecord.mk fileId (MediaFile.name file)
                    (MediaFile.type file) (MediaFile.bytes file)]> (fileStore lib) in
    let clip :=
      Clip.mk (uuid (S (uuids lib))) fileId (MediaFile.name file) kind
        (getTrackEnd kind (editor lib)) safeDuration 0 safeDuration 1 false 1 url in
    (mkLibrary (set_clips (clips (editor lib) ++ [clip]) (editor lib)) store
       (S (S (uuids lib))), None) in
  match kindOfFile file with
  | Some video =>
      match probe file with
      | Some duration => push video duration
      | None => (skipped, Some (JsError (js "Unable to read video duration")))
      end
  | Some image => push image IMAGE_DEFAULT_DURATION
  | Some audio =>
      match probe file with
      | Some duration => push audio duration
      | None => (skipped, Some (JsError (js "Unable to read audio duration")))
      end
  | None => (skipped, None)
  end.

(** The loop of [importMedia]: files are taken in order, and a rejection
    ends the loop with the clips pushed so far in place. *)
Fixpoint importFiles (uuid : nat -> jsstring)
    (createUrl : MediaFile.t -> jsstring) (probe : MediaFile.t -> option Q)
    (files : list MediaFile.t) (lib : Library) : Library * option Thrown :=
  match files with
  | [] => (lib, None)
  | file :: rest =>
      match importFile uuid createUrl probe lib file with
      | (lib', Some e) => (lib', Some e)
      | (lib', None) => importFiles uuid createUrl probe rest lib'
      end
  end.

(** A library with nothing in it, and a probe that reads 10 s. *)
Definition emptyLibrary : Library :=
  mkLibrary (mkEditor 0 false [] [] [] None None None ∅ ∅) ∅ 0.

Definition demoProbe (file : MediaFile.t) : option Q := Some 10.

Definition demoUrl (file : MediaFile.t) : jsstring :=
  js "blob:" ++ MediaFile.name file.

(* ================================================================== *)
(** ** Playback clock *)

Definition set_currentTime (v : Q) (st : Editor) : Editor :=
  mkEditor v (isPlaying st) (clips st) (captions st) (overlays st)
    (selectedClipId st) (selectedOverlayId st) (dragState st)
    (visualVideoRefs st) (audioRefs st).
Definition set_isPlaying (v : bool) (st : Editor) : Editor :=
  mkEditor (currentTime st) v (clips st) (captions st) (overlays st)
    (selectedClipId st) (selectedOverlayId st) (dragState st)
    (visualVideoRefs st) (audioRefs st).

(** The page together with the two variables of the frame loop:
    [playbackLastTimestamp], and whether a frame callback is requested
    ([playbackRaf] holds a live request). *)
Record Player : Type := mkPlayer {
  page : Editor;
  playbackLastTimestamp : Q;
  playbackRaf : bool
}.

(** The player after [stopPlayback] has returned or thrown: its last
    statement is the forced pass of the synchronizer. *)
Definition stopPlayback (p : Player) : Player :=
  mkPlayer (syncPreviewMedia true (set_isPlaying false (page p))) 0 false.

Definition stopPlayback_throws (p : Player) : bool :=
  syncPreviewMedia_throws true (set_isPlaying false (page p)).

Definition stepPlayback (timestamp : Q) (p : Player) : Player :=
  if negb (isPlaying (page p)) then p
  else
    let last :=
      if Qeq_bool (playbackLastTimestamp p) 0 then timestamp
      else playbackLastTimestamp p in
    let delta := (timestamp - last) / 1000 in
    let st :=
      set_currentTime
        (Qmin (projectDuration (page p)) (currentTime (page p) + delta))
        (page p) in
    if js_ge (currentTime st) (projectDuration st)
    then stopPlayback (mkPlayer st timestamp (playbackRaf p))
    else
      (* the next frame is requested after the pass, so only if it returns *)
      mkPlayer (syncPreviewMedia false st) timestamp
        (negb (syncPreviewMedia_throws false st)).


Definition seekTo (time : Q) (st : Editor) : Editor :=
  syncPreviewMedia true
    (set_currentTime (Qmin (projectDuration st) (Qmax 0 time)) st).

Definition seekBy (delta : Q) (st : Editor) : Editor :=
  seekTo (currentTime st + delta) st.

(** A project for examples: a 10 s video at 0 registered with a media
    element, and a 4 s audio clip at 5 registered with another. *)
Definition demoVideo : Clip.t :=
  Clip.mk (js "v1") (js "f1") (js "a.mp4") video 0 10 1 11 1 false 1 (js "blob:a").

Definition demoAudio : Clip.t :=
  Clip.mk (js "a1") (js "f2") (js "b.mp3") audio 5 4 0 4 1 false 1 (js "blob:b").

Definition demoEditor : Editor :=
  mkEditor 3 false [demoVideo; demoAudio] [] [] None None None
    (<[js "v1" := Media.mk 0 1 true []]> ∅)
    (<[js "a1" := Media.mk 0 1 true []]> ∅).

(* ================================================================== *)
(** ** Removal, mute and overlays *)

Definition set_overlays (v : list OverlayItem.t) (st : Editor) : Editor :=
  mkEditor (currentTime st) (isPlaying st) (clips st) (captions st) v
    (selectedClipId st) (selectedOverlayId st) (dragState st)
    (visualVideoRefs st) (audioRefs st).

Definition selectOverlay (id : jsstring) (st : Editor) : Editor :=
  set_selectedOverlayId (Some id) (set_selectedClipId None st).

Definition removeClip (clipId : jsstring) (st : Editor) : Editor :=
  let st :=
    if decide (selectedClipId st = Some clipId)
    then set_selectedClipId None st else st in
  let st :=
    match findClip clipId (clips st) with
    | Some (index, _) => set_clips (delete index (clips st)) st
    | None => st
    end in
  syncPreviewMedia true st.

Definition findOverlay (id : jsstring) (l : list OverlayItem.t)
    : option (nat * OverlayItem.t) :=
  list_find (fun item => OverlayItem.id item = id) l.

Definition removeOverlay (id : jsstring) (st : Editor) : Editor :=
  let st :=
    if decide (selectedOverlayId st = Some id)
    then set_selectedOverlayId None st else st in
  match findOverlay id (overlays st) with
  | Some (index, _) => set_overlays (delete index (overlays st)) st
  | None => st
  end.

(** The assignments [toggleSelectedVideoMute] makes to the selected video. *)
Definition toggleMute (c : Clip.t) : Clip.t :=
  if Clip.muted c then
    let c := Clip.set_muted false c in
    if js_le (Clip.volume c) 0
    then Clip.set_volume
           (Qmax (1 # 10)
              (if Qeq_bool (Clip.previousVolume c) 0 then 1
               else Clip.previousVolume c))
           c
    else c
  else
    let c :=
      if js_gt (Clip.volume c) 0
      then Clip.set_previousVolume (Clip.volume c) c
      else c in
    Clip.set_muted true c.

Definition toggleSelectedVideoMute (st : Editor) : Editor :=
  match selectedClip st with
  | None => st
  | Some (i, c) =>
      if negb (ClipKind_eqb (Clip.kind c) video) then st
      else syncPreviewMedia true (set_clips (<[i := toggleMute c]> (clips st)) st)
  end.

Definition selectedOverlay (st : Editor) : option (nat * OverlayItem.t) :=
  match selectedOverlayId st with
  | Some (c :: s) => findOverlay (c :: s) (overlays st)
  | Some [] | None => None
  end.

(** The keys of an overlay. *)
Inductive OverlayField : Type :=
| overlay_id | overlay_kind | overlay_text | overlay_start | overlay_duration
| overlay_x | overlay_y | overlay_size | overlay_color | overlay_bg.

(** The value of an inspector input, as the two conversions the handler
    applies to it: [String(value)] and [Number(value)]. *)
Record FieldValue : Type := mkFieldValue {
  asString : jsstring;
  asNumber : jsnum
}.

(** The assignment [updateSelectedOverlayField] makes to the selected
    overlay. *)
Definition applyOverlayField (field : OverlayField) (value : FieldValue)
    (o : OverlayItem.t) : OverlayItem.t :=
  let '(OverlayItem.mk id kind text start duration x y size color bg) := o in
  match field with
  | overlay_text =>
      OverlayItem.mk id kind (asString value) start duration x y size color bg
  | overlay_color =>
      OverlayItem.mk id kind text start duration x y size (asString value) bg
  | overlay_bg =>
      OverlayItem.mk id kind text start duration x y size color (asString value)
  | _ =>
      match asNumber value with
      | NonFinite => o
      | Finite parsed =>
          match field with
          | overlay_start =>
              OverlayItem.mk id kind text (Qmax 0 parsed) duration x y size color bg
          | overlay_duration =>
              OverlayItem.mk id kind text start (Qmax (2 # 10) parsed) x y size color bg
          | overlay_x =>
              OverlayItem.mk id kind text start duration
                (Qmax 0 (Qmin 100 parsed)) y size color bg
          | overlay_y =>
              OverlayItem.mk id kind text start duration x
                (Qmax 0 (Qmin 100 parsed)) size color bg
          | overlay_size =>
              OverlayItem.mk id kind text start duration x y
                (Qmax 16 (Qmin 120 parsed)) color bg
          | _ => o
          end
      end
  end.

Definition updateSelectedOverlayField (field : OverlayField) (value : FieldValue)
    (st : Editor) : Editor :=
  match selectedOverlay st with
  | None => st
  | Some (i, o) => set_overlays (<[i := applyOverlayField field value o]> (overlays st)) st
  end.

(** [id] is the value drawn from [crypto.randomUUID]. *)
Definition addTitle (id : jsstring) (st : Editor) : Editor :=
  let item :=
    OverlayItem.mk id title (js "Your title here") (currentTime st) (25 # 10)
      50 20 52 (js "#FFFFFF") (js "rgba(0,0,0,0.35)") in
  selectOverlay id (set_overlays (overlays st ++ [item]) st).

(** The sticker text is the two code units of the fire emoji. *)
Definition addSticker (id : jsstring) (st : Editor) : Editor :=
  let item :=
    OverlayItem.mk id sticker [55357%N; 56613%N] (currentTime st) (25 # 10)
      78 26 72 (js "#FFFFFF") (js "transparent") in
  selectOverlay id (set_overlays (overlays st ++ [item]) st).

(** The bounds the overlay handlers keep. *)
Definition overlayInvariant (o : OverlayItem.t) : Prop :=
  0 <= OverlayItem.start o /\ (2 # 10) <= OverlayItem.duration o /\
  0 <= OverlayItem.x o /\ OverlayItem.x o <= 100 /\
  0 <= OverlayItem.y o /\ OverlayItem.y o <= 100 /\
  16 <= OverlayItem.size o /\ OverlayItem.size o <= 120.

(* ================================================================== *)
(** ** Vocabulary of the caption properties *)

(** The words of a transcript: the words of every chunk, in order. *)
Definition transcriptWords (chunks : list AsrChunk.t) : list jsstring :=
  concat ((fun chunk => wordsOf (chunkText chunk)) <$> chunks).

(** A cue that starts at or after 0 and lasts at least 0.08 s. *)
Definition wellTimed (cue : CaptionCue.t) : Prop :=
  0 <= CaptionCue.start cue /\
  CaptionCue.start cue + MIN_CUE_LENGTH <= CaptionCue.end_ cue.

(** [words.join(' ')] *)
Fixpoint joinWords (words : list jsstring) : jsstring :=
  match words with
  | [] => []
  | [w] => w
  | w :: rest => w ++ SPACE :: joinWords rest
  end.

(** A text that is one word: not empty, and without white space. *)
Definition isWord (text : jsstring) : Prop :=
  text <> [] /\ forall c, c ∈ text -> isSpace c = false.

(** Whether a run of white space is on after a prefix of the text. *)
Definition runAfter (inRun : bool) (text : jsstring) : bool :=
  match last text with
  | Some c => isSpace c
  | None => inRun
  end.

(* ================================================================== *)
(** ** Rendering of a frame *)

(** The pop animation of the active caption word. *)
Definition getCaptionPopScale (progress : Q) : Q :=
  if js_le progress 0 || js_ge progress 1 then 1
  else if js_le progress (18 # 100)
  then 1 + (22 # 100) * (progress / (18 # 100))
  else if js_le progress (42 # 100)
  then (122 # 100) - (24 # 100) * ((progress - (18 # 100)) / (24 # 100))
  else if js_le progress (62 # 100)
  then (98 # 100) + (2 # 100) * ((progress - (42 # 100)) / (2 # 10))
  else 1.

(** What [drawCover] is given to draw: a video element, an image element,
    or another canvas image source. *)
Inductive CanvasImageSource : Type :=
| HTMLVideoElement (videoWidth videoHeight : Q)
| HTMLImageElement (naturalWidth naturalHeight : Q)
| OtherImageSource.

(** The destination rectangle of a [context.drawImage] call. *)
Record DrawImage : Type := mkDrawImage {
  dx : Q;
  dy : Q;
  dWidth : Q;
  dHeight : Q
}.

(** [drawCover]: the [drawImage] call made, if any. *)
Definition drawCover (source : CanvasImageSource) (width height : Q)
    : option DrawImage :=
  let sourceWidth :=
    match source with
    | HTMLVideoElement videoWidth _ => videoWidth
    | HTMLImageElement naturalWidth _ => naturalWidth
    | OtherImageSource => width
    end in
  let sourceHeight :=
    match source with
    | HTMLVideoElement _ videoHeight => videoHeight
    | HTMLImageElement _ naturalHeight => naturalHeight
    | OtherImageSource => height
    end in
  if Qeq_bool sourceWidth 0 || Qeq_bool sourceHeight 0 then None
  else
    let scale := Qmax (width / sourceWidth) (height / sourceHeight) in
    let drawWidth := sourceWidth * scale in
    let drawHeight := sourceHeight * scale in
    Some (mkDrawImage ((width - drawWidth) / 2) ((height - drawHeight) / 2)
            drawWidth drawHeight).

(** One iteration of either media loop of a frame of [renderProjectToWebm],
    for a clip that has an export element: the tolerance is 0.3 s, and the
    element plays whenever its clip is on. *)
Definition exportSyncElement (elapsed : Q) (clip : Clip.t) (media : Media.t)
    : Media.t :=
  if inRange elapsed (Clip.start clip) (Clip.duration clip) then
    let local := elapsed - Clip.start clip + Clip.sourceOffset clip in
    let media :=
      if js_gt (Qabs (Media.currentTime media - local)) (3 # 10)
      then Media.set_currentTime local media
      else media in
    Media.play media
  else Media.pause media.

(** The value a frame of [renderProjectToWebm] reports to [onProgress];
    [total] is [projectDuration.value]. *)
Definition frameProgress (elapsed total : Q) : Q :=
  Qmin 99 (inject_Z (Qfloor (elapsed / total * 100))).

(* ================================================================== *)
(** ** Export: the whole pipeline *)

Module Mp4Stage.
Inductive t : Type := idle | load | render | convert.
End Mp4Stage.

(** The page with the refs of the export button. *)
Record Exporter : Type := mkExporter {
  player : Player;
  isExportingMp4 : bool;
  mp4Stage : Mp4Stage.t;
  exportProgress : Q;
  mp4Progress : Q;
  statusMessage : jsstring
}.

(** [text.replace(/[:.]/g, '-')] *)
Definition replaceColonDot (text : jsstring) : jsstring :=
  (fun c => if (c =? 58)%N || (c =? 46)%N then 45%N else c) <$> text.

(** The name of the downloaded file; [isoNow] is
    [new Date().toISOString()]. *)
Definition exportFileName (isoNow : jsstring) : jsstring :=
  js "vidmaker-export-" ++ replaceColonDot isoNow ++ js ".mp4".

(** [exportMp4], from the click to the end of its [finally] block, or to
    the exception of [stopPlayback], which is called before the [try].  The
    recording itself is a parameter: [renderProjectToWebm] is given the
    page as [stopPlayback] left it, and answers with the values it reported
    to [onProgress] and the blob recorded or the error thrown.
    [String_] is the conversion [String(error)] of a thrown value.  The
    result is the page, the requests issued, and the blob and file name
    handed to [downloadBlob], if any. *)
Definition exportMp4
    (renderProjectToWebm : Editor -> list Q * (Thrown + Blob.t))
    (network : list N -> FetchOutcome) (String_ : Thrown -> jsstring)
    (isoNow : jsstring) (x : Exporter)
    : Exporter * list Effect * option (Blob.t * jsstring) :=
  if isExportingMp4 x || Qeq_bool (projectDuration (page (player x))) 0
  then (x, [], None)
  else
    let p := stopPlayback (player x) in
    if stopPlayback_throws (player x)
    then
      (* thrown before the [try]: neither [catch] nor [finally] runs *)
      (mkExporter p true Mp4Stage.render 0 0
         (js "Rendering timeline for MP4 conversion..."),
       [], None)
    else
    let failed (progress : Q) (error : Thrown) :=
      mkExporter p false Mp4Stage.idle progress 0
        (js "MP4 export failed: " ++ String_ error) in
    let '(reports, rendered) := renderProjectToWebm (page p) in
    match rendered with
    | inl error => (failed (default 0 (last reports)) error, [], None)
    | inr webmBlob =>
        match convertWebmToMp4 network webmBlob with
        | (requests, inl error) => (failed 100 error, requests, None)
        | (requests, inr mp4Blob) =>
            (mkExporter p false Mp4Stage.idle 100 0 (js "MP4 export complete."),
             requests, Some (mp4Blob, exportFileName isoNow))
        end
    end.

(** A page ready to export the demo project, a recording of one byte, and
    a conversion endpoint that answers with two bytes. *)
Definition demoExporter : Exporter :=
  mkExporter (mkPlayer demoEditor 0 false) false Mp4Stage.idle 0 0 [].

Definition demoRender (st : Editor) : list Q * (Thrown + Blob.t) :=
  ([0; 50; 99], inr (Blob.mk [1%N] (js "video/webm;codecs=vp9,opus"))).

Definition demoNetwork (body : list N) : FetchOutcome :=
  Responded (Response.mk true 200 [] [2%N; 3%N]).

Definition demoString (e : Thrown) : jsstring :=
  match e with
  | H3Error _ statusMessage => js "Error: " ++ statusMessage
  | JsError message => js "Error: " ++ message
  end.

(* ================================================================== *)
(** ** The draft in the browser's store

    [restoreDraft] and [saveDraft] as the single-project page has them.
    The status line and the set of object URLs to revoke are left out. *)

Definition clampPercent (value : jsnum) (fallback : Q) : Q :=
  match value with
  | NonFinite => fallback
  | Finite value => Qmin 100 (Qmax 0 value)
  end.

Definition CAPTION_SIZE_MIN : Q := 50.
Definition CAPTION_SIZE_MAX : Q := 220.

Definition clampCaptionSizePercent (value : jsnum) (fallback : Q) : Q :=
  match value with
  | NonFinite => fallback
  | Finite value =>
      Qmin CAPTION_SIZE_MAX (Qmax CAPTION_SIZE_MIN (Math_round value))
  end.

Inductive CaptionStyleId : Type := capcut | minimal | neon | classic.
Inductive CaptionLetterCase : Type := original | uppercase | lowercase | capitalize.

(** [parseCaptionLetterCase(value)]; [None] is a value that is none of the
    four names. *)
Definition parseCaptionLetterCase (value : option CaptionLetterCase)
    : CaptionLetterCase :=
  match value with
  | Some value => value
  | None => uppercase
  end.

(** The five refs of the caption panel. *)
Record CaptionSettings : Type := mkCaptionSettings {
  captionStyleId : CaptionStyleId;
  captionPositionX : Q;
  captionPositionY : Q;
  captionSizePercent : Q;
  captionLetterCase : CaptionLetterCase
}.

Definition getCaptionScaleFactor (s : CaptionSettings) : Q :=
  clampCaptionSizePercent (Finite (captionSizePercent s)) 100 / 100.

(** A clip as read back from the project store: [None] and [NonFinite]
    stand for fields an older draft lacks. *)
Module StoredClip.
Record t : Type := mk {
  id : jsstring;
  fileId : jsstring;
  name : jsstring;
  kind : ClipKind;
  start : Q;
  duration : Q;
  sourceOffset : jsnum;
  sourceDuration : jsnum;
  volume : Q;
  muted : option bool;
  previousVolume : jsnum
}.
End StoredClip.

(** The project record of the store; [None] is a field that is missing
    (or, for the two lists, not an array). *)
Module StoredProject.
Record t : Type := mk {
  updatedAt : Q;
  clips : list StoredClip.t;
  captions : option (list StoredCue.t);
  overlays : option (list OverlayItem.t);
  captionStyleId : option CaptionStyleId;
  captionPositionX : option jsnum;
  captionPositionY : option jsnum;
  captionSizePercent : option jsnum;
  captionLetterCase : option CaptionLetterCase
}.
End StoredProject.

(** The page with its caption settings, [draftSavedAt] and the flag
    [hasRestoredDraft]. *)
Record Draft : Type := mkDraft {
  workspace : Editor;
  settings : CaptionSettings;
  draftSavedAt : option Q;
  hasRestoredDraft : bool
}.

(** The object pushed for a stored clip whose file is there. *)
Definition restoreClip (url : jsstring) (storedClip : StoredClip.t) : Clip.t :=
  Clip.mk (StoredClip.id storedClip) (StoredClip.fileId storedClip)
    (StoredClip.name storedClip) (StoredClip.kind storedClip)
    (StoredClip.start storedClip) (StoredClip.duration storedClip)
    match StoredClip.sourceOffset storedClip with
    | Finite v => v
    | NonFinite => 0
    end
    match StoredClip.sourceDuration storedClip with
    | Finite v => v
    | NonFinite => StoredClip.duration storedClip
    end
    (StoredClip.volume storedClip)
    match StoredClip.muted storedClip with
    | Some b => b
    | None => false
    end
    match StoredClip.previousVolume storedClip with
    | Finite v => v
    | NonFinite => 1
    end
    url.

(** The loop of [restoreDraft] over the stored clips; a read of the file
    store that fails ends it. *)
Fixpoint restoreClips (createUrl : list N -> jsstring)
    (getFile : jsstring -> Thrown + option StoredFileRecord.t)
    (stored : list StoredClip.t) (restored : list Clip.t)
    : Thrown + list Clip.t :=
  match stored with
  | [] => inr restored
  | storedClip :: rest =>
      match getFile (StoredClip.fileId storedClip) with
      | inl error => inl error
      | inr None => restoreClips createUrl getFile rest restored
      | inr (Some fileRecord) =>
          restoreClips createUrl getFile rest
            (restored ++
               [restoreClip (createUrl (StoredFileRecord.blob fileRecord))
                  storedClip])
      end
  end.

(** [restoreDraft]; [getProject] is how the read of the project store
    ends. *)
Definition restoreDraft (uuid : nat -> jsstring)
    (createUrl : list N -> jsstring)
    (getProject : Thrown + option StoredProject.t)
    (getFile : jsstring -> Thrown + option StoredFileRecord.t)
    (d : Draft) : Draft :=
  let ready := mkDraft (workspace d) (settings d) (draftSavedAt d) true in
  match getProject with
  | inl _ => ready
  | inr None => ready
  | inr (Some project) =>
      match restoreClips createUrl getFile (StoredProject.clips project) [] with
      | inl _ => ready
      | inr restored =>
          let st := workspace d in
          mkDraft
            (mkEditor (currentTime st) (isPlaying st) restored
               (normalizeStoredCaptionCues uuid
                  (default [] (StoredProject.captions project)))
               (default [] (StoredProject.overlays project))
               (selectedClipId st) (selectedOverlayId st) (dragState st)
               (visualVideoRefs st) (audioRefs st))
            (mkCaptionSettings
               (default capcut (StoredProject.captionStyleId project))
               (clampPercent
                  (default (Finite 50) (StoredProject.captionPositionX project)) 50)
               (clampPercent
                  (default (Finite 88) (StoredProject.captionPositionY project)) 88)
               (clampCaptionSizePercent
                  (default (Finite 100) (StoredProject.captionSizePercent project))
                  100)
               (parseCaptionLetterCase (StoredProject.captionLetterCase project)))
            (Some (StoredProject.updatedAt project))
            true
      end
  end.

(** The clip [saveDraft] writes: every field but the object URL. *)
Definition storeClip (clip : Clip.t) : StoredClip.t :=
  StoredClip.mk (Clip.id clip) (Clip.fileId clip) (Clip.name clip)
    (Clip.kind clip) (Clip.start clip) (Clip.duration clip)
    (Finite (Clip.sourceOffset clip)) (Finite (Clip.sourceDuration clip))
    (Clip.volume clip) (Some (Clip.muted clip))
    (Finite (Clip.previousVolume clip)).

(** The payload of [saveDraft]; [now] is [Date.now()]. *)
Definition draftPayload (now : Q) (d : Draft) : StoredProject.t :=
  StoredProject.mk now
    (storeClip <$> clips (workspace d))
    (Some (storeCue <$> captions (workspace d)))
    (Some (overlays (workspace d)))
    (Some (captionStyleId (settings d)))
    (Some (Finite (clampPercent (Finite (captionPositionX (settings d))) 50)))
    (Some (Finite (clampPercent (Finite (captionPositionY (settings d))) 88)))
    (Some (Finite
             (clampCaptionSizePercent (Finite (captionSizePercent (settings d)))
                100)))
    (Some (parseCaptionLetterCase (Some (captionLetterCase (settings d))))).

(** [saveDraft]: the page, and the record put into the project store, if
    any, or the error of the write. *)
Definition saveDraft (now : Q) (putProject : StoredProject.t -> Thrown + unit)
    (d : Draft) : Draft * (Thrown + option StoredProject.t) :=
  if negb (hasRestoredDraft d) then (d, inr None)
  else
    let payload := draftPayload now d in
    match putProject payload with
    | inl error => (d, inl error)
    | inr _ =>
        (mkDraft (workspace d) (settings d) (Some (StoredProject.updatedAt payload))
           (hasRestoredDraft d),
         inr (Some payload))
    end.

(** A clip with another object URL. *)
Definition withUrl (url : jsstring) (clip : Clip.t) : Clip.t :=
  Clip.mk (Clip.id clip) (Clip.fileId clip) (Clip.name clip) (Clip.kind clip)
    (Clip.start clip) (Clip.duration clip) (Clip.sourceOffset clip)
    (Clip.sourceDuration clip) (Clip.volume clip) (Clip.muted clip)
    (Clip.previousVolume clip) url.

(** The bounds the caption panel keeps. *)
Definition settingsInvariant (s : CaptionSettings) : Prop :=
  (0 <= captionPositionX s /\ captionPositionX s <= 100) /\
  (0 <= captionPositionY s /\ captionPositionY s <= 100) /\
  (50 <= captionSizePercent s /\ captionSizePercent s <= 220) /\
  exists z, captionSizePercent s == inject_Z z.

Definition sameSettings (a b : CaptionSettings) : Prop :=
  captionStyleId a = captionStyleId b /\
  captionPositionX a == captionPositionX b /\
  captionPositionY a == captionPositionY b /\
  captionSizePercent a == captionSizePercent b /\
  captionLetterCase a = captionLetterCase b.

(** The page as it is when the script starts, and a store of files. *)
Definition initialDraft : Draft :=
  mkDraft (mkEditor 0 false [] [] [] None None None ∅ ∅)
    (mkCaptionSettings capcut 50 88 100 uppercase) None false.

Definition getFileFrom (files : gmap jsstring StoredFileRecord.t) (fileId : jsstring)
    : Thrown + option StoredFileRecord.t :=
  inr (files !! fileId).

Definition demoDraft : Draft :=
  mkDraft demoEditor (mkCaptionSettings neon 40 80 120 original) None true.

Definition demoFiles : gmap jsstring StoredFileRecord.t :=
  <[js "f1" := StoredFileRecord.mk (js "f1") (js "a.mp4") (js "video/mp4") [7%N]]> ∅.

(* ================================================================== *)
(** * Properties *)

(** ** Comparisons and rounding *)

Lemma js_ge_true (x y : Q) : js_ge x y = true <-> y <= x.
Proof. unfold js_ge. apply Qle_bool_iff. Qed.

Lemma js_le_true (x y : Q) : js_le x y = true <-> x <= y.
Proof. unfold js_le. apply Qle_bool_iff. Qed.

Lemma js_lt_true (x y : Q) : js_lt x y = true <-> x < y.
Proof.
  unfold js_lt. rewrite negb_true_iff, <- not_true_iff_false, Qle_bool_iff.
  split; [apply Qnot_le_lt | apply Qlt_not_le].
Qed.

Lemma js_gt_true (x y : Q) : js_gt x y = true <-> y < x.
Proof.
  unfold js_gt. rewrite negb_true_iff, <- not_true_iff_false, Qle_bool_iff.
  split; [apply Qnot_le_lt | apply Qlt_not_le].
Qed.

Lemma js_gt_false (x y : Q) : js_gt x y = false <-> x <= y.
Proof.
  unfold js_gt. rewrite negb_false_iff. apply Qle_bool_iff.
Qed.

Lemma inRange_true (time start duration : Q) :
  inRange time start duration = true <-> start <= time /\ time < start + duration.
Proof.
  unfold inRange. rewrite andb_true_iff, js_ge_true, js_lt_true. tauto.
Qed.

Lemma inRange_false (time start duration : Q) :
  inRange time start duration = false <-> ~ (start <= time /\ time < start + duration).
Proof. rewrite <- inRange_true. symmetry. apply not_true_iff_false. Qed.

#[export] Instance Math_round_proper : Proper (Qeq ==> Qeq) Math_round.
Proof. intros x y H. unfold Math_round. now rewrite H. Qed.

#[export] Instance toStepTime_proper : Proper (Qeq ==> Qeq) toStepTime.
Proof. intros x y H. unfold toStepTime. now rewrite H. Qed.

(** Rounding commutes with adding an integer. *)
Lemma Math_round_add_int (x : Q) (k : Z) :
  Math_round (x + inject_Z k) == Math_round x + inject_Z k.
Proof.
  unfold Math_round. rewrite <- inject_Z_plus. apply inject_Z_injective.
  assert (E : x + inject_Z k + (1 # 2) == (x + (1 # 2)) + inject_Z k) by ring.
  rewrite (Qfloor_comp _ _ E).
  set (y := x + (1 # 2)).
  pose proof (Qfloor_le y) as Hl. pose proof (Qlt_floor y) as Hu.
  pose proof (Qfloor_le (y + inject_Z k)) as Hl'.
  pose proof (Qlt_floor (y + inject_Z k)) as Hu'.
  rewrite inject_Z_plus in Hu, Hu'. change (inject_Z 1) with 1 in Hu, Hu'.
  assert (A : inject_Z (Qfloor (y + inject_Z k)) < inject_Z (Qfloor y + k + 1)).
  { rewrite !inject_Z_plus. change (inject_Z 1) with 1. lra. }
  assert (B : inject_Z (Qfloor y + k) < inject_Z (Qfloor (y + inject_Z k) + 1)).
  { rewrite !inject_Z_plus. change (inject_Z 1) with 1. lra. }
  rewrite <- Zlt_Qlt in A, B. lia.
Qed.

Lemma Math_round_near (x : Q) :
  x - (1 # 2) < Math_round x /\ Math_round x <= x + (1 # 2).
Proof.
  unfold Math_round.
  pose proof (Qfloor_le (x + (1 # 2))) as Hl.
  pose proof (Qlt_floor (x + (1 # 2))) as Hu.
  rewrite inject_Z_plus in Hu. change (inject_Z 1) with 1 in Hu. split; lra.
Qed.

Lemma Math_round_mono (x y : Q) : x <= y -> Math_round x <= Math_round y.
Proof.
  intros H. unfold Math_round. rewrite <- Zle_Qle.
  apply Qfloor_resp_le. lra.
Qed.

(** A grid value is an integer number of steps. *)
Lemma toStepTime_steps (x : Q) : exists k : Z, toStepTime x == inject_Z k / 20.
Proof. exists (Qfloor (x * 20 + (1 # 2))). reflexivity. Qed.

Lemma toStepTime_add_steps (x : Q) (k : Z) :
  toStepTime (x + inject_Z k / 20) == toStepTime x + inject_Z k / 20.
Proof.
  unfold toStepTime.
  assert (E : (x + inject_Z k / 20) * 20 == x * 20 + inject_Z k) by (field).
  rewrite E, Math_round_add_int. field.
Qed.


Lemma toStepTime_near (x : Q) :
  x - (1 # 40) < toStepTime x /\ toStepTime x <= x + (1 # 40).
Proof.
  unfold toStepTime. destruct (Math_round_near (x * 20)) as [Hl Hu].
  split.
  - apply Qlt_shift_div_l; lra.
  - apply Qle_shift_div_r; lra.
Qed.

Lemma toStepTime_mono (x y : Q) : x <= y -> toStepTime x <= toStepTime y.
Proof.
  intros H. unfold toStepTime.
  assert (M : Math_round (x * 20) <= Math_round (y * 20)) by (apply Math_round_mono; lra).
  unfold Qdiv. apply Qmult_le_compat_r; [exact M | discriminate].
Qed.

Lemma toStepTime_0 : toStepTime 0 == 0.
Proof. reflexivity. Qed.

(* ------------------------------------------------------------------ *)
(** ** Project duration *)

Lemma Math_max_of_ge_first (rest : list Q) (first : Q) :
  first <= Math_max_of first rest.
Proof.
  unfold Math_max_of. revert first.
  induction rest as [|x rest IH]; intros first; simpl.
  - apply Qle_refl.
  - eapply Qle_trans; [apply (Q.le_max_l first x) | apply IH].
Qed.

Lemma Math_max_of_ge_rest (rest : list Q) (first x : Q) :
  x ∈ rest -> x <= Math_max_of first rest.
Proof.
  unfold Math_max_of. revert first.
  induction rest as [|y rest IH]; intros first Hx; simpl.
  - inversion Hx.
  - apply elem_of_cons in Hx as [-> | Hx].
    + eapply Qle_trans; [apply (Q.le_max_r first y) | apply Math_max_of_ge_first].
    + now apply IH.
Qed.

Lemma Math_max_of_attained (rest : list Q) (first : Q) :
  exists x, x ∈ first :: rest /\ Math_max_of first rest == x.
Proof.
  unfold Math_max_of. revert first.
  induction rest as [|y rest IH]; intros first; simpl.
  - exists first. split; [left | reflexivity].
  - destruct (IH (Qmax first y)) as (x & Hx & E).
    apply elem_of_cons in Hx as [-> | Hx].
    + destruct (Q.max_dec first y) as [M | M].
      * exists first. split; [left | now rewrite E].
      * exists y. split; [right; left | now rewrite E].
    + exists x. split; [now do 2 right | exact E].
Qed.

(** The maximum of a list of ends as [projectDuration] takes it. *)
Lemma max_or_zero_bounds (l : list Q) :
  let m := match l with [] => 0 | e :: es => Math_max_of e es end in
  (forall e, e ∈ l -> e <= m) /\
  (l = [] -> m = 0) /\
  (l <> [] -> exists e, e ∈ l /\ m == e).
Proof.
  destruct l as [|e es]; simpl.
  - split; [intros e H; inversion H | split; [reflexivity | congruence]].
  - split; [| split; [discriminate |]].
    + intros x Hx. apply elem_of_cons in Hx as [-> | Hx].
      * apply Math_max_of_ge_first.
      * now apply Math_max_of_ge_rest.
    + intros _. apply Math_max_of_attained.
Qed.

(** C1.  [projectDuration] is the largest end time [start + duration] among
    all clips and overlays: it bounds every end, it is 0 for an empty
    project, and on a project whose ends are not negative (clips and
    overlays start at or after 0 and last a positive time) it is the end of
    one of them. *)
Theorem projectDuration_is_max_end (st : Editor) :
  (allEnds st = [] -> projectDuration st == 0) /\
  (forall e, e ∈ allEnds st -> e <= projectDuration st) /\
  (Forall (fun e => 0 <= e) (allEnds st) -> allEnds st <> [] ->
   exists e, e ∈ allEnds st /\ projectDuration st == e).
Proof.
  unfold allEnds, projectDuration.
  change (fun clip => Clip.start clip + Clip.duration clip) with endOfClip.
  change (fun item => OverlayItem.start item + OverlayItem.duration item)
    with endOfOverlay.
  destruct (max_or_zero_bounds (endOfClip <$> clips st)) as (Cub & C0 & Cat).
  destruct (max_or_zero_bounds (endOfOverlay <$> overlays st)) as (Oub & O0 & Oat).
  cbv zeta in *.
  set (cm := match endOfClip <$> clips st with
             | [] => 0 | e :: es => Math_max_of e es end) in *.
  set (om := match endOfOverlay <$> overlays st with
             | [] => 0 | e :: es => Math_max_of e es end) in *.
  split; [| split].
  - intros E. apply app_eq_nil in E as [Ec Eo].
    rewrite (C0 Ec), (O0 Eo). reflexivity.
  - intros e He. apply elem_of_app in He as [He | He].
    + eapply Qle_trans; [apply (Cub _ He) | apply Q.le_max_l].
    + eapply Qle_trans; [apply (Oub _ He) | apply Q.le_max_r].
  - intros Hpos Hne. apply Forall_app in Hpos as [Pc Po].
    rewrite Forall_forall in Pc, Po.
    destruct (endOfClip <$> clips st) as [|c cs] eqn:Ec;
      destruct (endOfOverlay <$> overlays st) as [|o os] eqn:Eo.
    + now destruct Hne.
    + destruct Oat as (e & He & E); [discriminate|].
      exists e. split; [now apply elem_of_app; right |].
      rewrite (C0 eq_refl), <- E. apply Q.max_r. rewrite E. now apply Po.
    + destruct Cat as (e & He & E); [discriminate|].
      exists e. split; [now apply elem_of_app; left |].
      rewrite (O0 eq_refl), <- E. apply Q.max_l. rewrite E. now apply Pc.
    + destruct Cat as (e1 & He1 & E1); [discriminate|].
      destruct Oat as (e2 & He2 & E2); [discriminate|].
      destruct (Q.max_dec cm om) as [M | M].
      * exists e1. split; [now apply elem_of_app; left | now rewrite M].
      * exists e2. split; [now apply elem_of_app; right | now rewrite M].
Qed.

(** A project with one clip and one overlay, for the statement above. *)
Lemma projectDuration_is_max_end_witness :
  let st :=
    mkEditor 0 false
      [Clip.mk (js "c1") (js "f1") (js "a.mp4") video 0 10 0 10 1 false 1 (js "blob:a")]
      []
      [OverlayItem.mk (js "o1") title (js "hi") 9 (5 # 2) 50 20 52 (js "#FFFFFF")
         (js "transparent")]
      None None None ∅ ∅ in
  exists e, e ∈ allEnds st /\ projectDuration st == e.
Proof.
  intros st. apply (projectDuration_is_max_end st).
  - repeat constructor; discriminate.
  - discriminate.
Defined.

(* ------------------------------------------------------------------ *)
(** ** Drag gestures *)

Lemma dragClip_id (ds : DragState.t) (delta : Q) (c : Clip.t) :
  Clip.id (dragClip ds delta c) = Clip.id c.
Proof.
  unfold dragClip. destruct (DragState.mode ds); try reflexivity.
  destruct (ClipKind_eqb (Clip.kind c) image); reflexivity.
Qed.

Lemma dragClip_kind (ds : DragState.t) (delta : Q) (c : Clip.t) :
  Clip.kind (dragClip ds delta c) = Clip.kind c.
Proof.
  unfold dragClip. destruct (DragState.mode ds); try reflexivity.
  destruct (ClipKind_eqb (Clip.kind c) image); reflexivity.
Qed.

Lemma dragClip_sourceDuration (ds : DragState.t) (delta : Q) (c : Clip.t) :
  Clip.sourceDuration (dragClip ds delta c) = Clip.sourceDuration c.
Proof.
  unfold dragClip. destruct (DragState.mode ds); try reflexivity.
  destruct (ClipKind_eqb (Clip.kind c) image); reflexivity.
Qed.

(** Every pointer move recomputes the clip from the values recorded at
    pointer down, so a later move overwrites an earlier one. *)
Lemma dragClip_overwrite (ds : DragState.t) (d1 d2 : Q) (c : Clip.t) :
  dragClip ds d2 (dragClip ds d1 c) = dragClip ds d2 c.
Proof.
  unfold dragClip. destruct (DragState.mode ds); try reflexivity.
  simpl. destruct (ClipKind_eqb (Clip.kind c) image) eqn:K; simpl; rewrite K; reflexivity.
Qed.

Lemma findClip_Some (id : jsstring) (l : list Clip.t) (i : nat) (c : Clip.t) :
  findClip id l = Some (i, c) ->
  l !! i = Some c /\ Clip.id c = id.
Proof.
  unfold findClip. intros H. apply list_find_Some in H. tauto.
Qed.

(** Replacing the clip found by another one with the same id leaves it the
    one found. *)
Lemma findClip_insert (id : jsstring) (l : list Clip.t) (i : nat) (c c' : Clip.t) :
  findClip id l = Some (i, c) ->
  Clip.id c' = id ->
  findClip id (<[i := c']> l) = Some (i, c').
Proof.
  unfold findClip. intros H Hid.
  apply list_find_Some in H as (Hi & _ & Hlt).
  apply list_find_Some. split; [| split].
  - apply list_lookup_insert_eq. now apply lookup_lt_Some in Hi.
  - exact Hid.
  - intros j y Hj Hji. rewrite list_lookup_insert_ne in Hj by lia.
    now apply (Hlt j).
Qed.

Lemma onPointerMove_dragging (event : PointerEvent.t) (st : Editor)
    (ds : DragState.t) (i : nat) (clip : Clip.t) :
  dragState st = Some ds ->
  findClip (DragState.clipId ds) (clips st) = Some (i, clip) ->
  onPointerMove event st =
    set_clips
      (<[i := dragClip ds
                (toStepTime ((PointerEvent.clientX event - DragState.pointerStartX ds)
                             / PX_PER_SECOND))
                clip]> (clips st))
      st.
Proof. intros Hd Hf. unfold onPointerMove. now rewrite Hd, Hf. Qed.

Lemma syncPreviewMedia_clips (forceSeek : bool) (st : Editor) :
  clips (syncPreviewMedia forceSeek st) = clips st.
Proof. reflexivity. Qed.

Lemma onPointerUp_clips (st : Editor) : clips (onPointerUp st) = clips st.
Proof. unfold onPointerUp. now destruct (dragState st). Qed.

(** While the pointer moves, the dragged clip is either untouched or the
    result of the latest move, and the drag state stays as recorded. *)
Lemma pointer_moves_state (ds : DragState.t) (i : nat) (c : Clip.t)
    (moves : list PointerEvent.t) (st : Editor) :
  dragState st = Some ds ->
  findClip (DragState.clipId ds) (clips st) = Some (i, c) ->
  let st' := fold_left (fun s event => onPointerMove event s) moves st in
  dragState st' = Some ds /\
  exists c', clips st' = <[i := c']> (clips st) /\
             Clip.id c' = Clip.id c /\
             (c' = c \/ exists d, c' = dragClip ds d c).
Proof.
  intros Hd Hf. induction moves as [|e es IH] using rev_ind; simpl.
  - split; [exact Hd |]. exists c. split; [| split; [reflexivity | now left]].
    symmetry. apply list_insert_id. now apply findClip_Some in Hf.
  - rewrite fold_left_app. simpl.
    destruct IH as (Hd' & c' & Hc' & Hid & Hor).
    set (s := fold_left (fun s event => onPointerMove event s) es st) in *.
    assert (Hf' : findClip (DragState.clipId ds) (clips s) = Some (i, c')).
    { rewrite Hc'. apply (findClip_insert _ _ _ c); [exact Hf |].
      rewrite Hid. now apply findClip_Some in Hf. }
    rewrite (onPointerMove_dragging e s ds i c' Hd' Hf'). simpl.
    split; [exact Hd' |].
    eexists. split; [| split].
    + rewrite Hc'. apply list_insert_insert_eq.
    + rewrite dragClip_id. exact Hid.
    + right. destruct Hor as [-> | [d ->]]; eexists; [reflexivity |].
      apply dragClip_overwrite.
Qed.

(** The clips after a whole gesture with at least one pointer move: the
    dragged clip is recomputed from its state at pointer down and the last
    pointer position. *)
Lemma dragGesture_clips (mode : DragMode) (c : Clip.t) (down last : PointerEvent.t)
    (moves : list PointerEvent.t) (st : Editor) (i : nat) :
  findClip (Clip.id c) (clips st) = Some (i, c) ->
  PointerEvent.button down = 0%Z ->
  clips (dragGesture mode c down (moves ++ [last]) st) =
    <[i := dragClip (dragStateOf mode c down) (dragDelta down last) c]> (clips st).
Proof.
  intros Hf Hb. unfold dragGesture. rewrite onPointerUp_clips, fold_left_app.
  simpl.
  set (st1 := startClipDrag mode c down st).
  assert (Hd1 : dragState st1 = Some (dragStateOf mode c down)).
  { unfold st1, startClipDrag. now rewrite Hb. }
  assert (Hc1 : clips st1 = clips st).
  { unfold st1, startClipDrag. now rewrite Hb. }
  assert (Hf1 : findClip (DragState.clipId (dragStateOf mode c down)) (clips st1)
                = Some (i, c)) by (now rewrite Hc1).
  destruct (pointer_moves_state _ i c moves st1 Hd1 Hf1) as (Hd' & c' & Hc' & Hid & Hor).
  set (s := fold_left (fun s event => onPointerMove event s) moves st1) in *.
  assert (Hf' : findClip (DragState.clipId (dragStateOf mode c down)) (clips s)
                = Some (i, c')).
  { rewrite Hc'. now apply (findClip_insert _ _ _ c). }
  rewrite (onPointerMove_dragging last s _ i c' Hd' Hf'). simpl.
  rewrite Hc', Hc1, list_insert_insert_eq. f_equal.
  unfold dragDelta.
  destruct Hor as [-> | [d ->]]; [reflexivity | apply dragClip_overwrite].
Qed.

(** Case analysis on every [Qmax] and [Qmin] in sight, then linear
    arithmetic. *)
Ltac minmax_cases :=
  repeat match goal with
    | |- context [Qmax ?a ?b] =>
        let m := fresh "m" in let Hm := fresh "Hm" in
        pose proof (Q.max_spec a b) as Hm; set (m := Qmax a b) in *;
        clearbody m; destruct Hm as [[? ?] | [? ?]]
    | |- context [Qmin ?a ?b] =>
        let m := fresh "m" in let Hm := fresh "Hm" in
        pose proof (Q.min_spec a b) as Hm; set (m := Qmin a b) in *;
        clearbody m; destruct Hm as [[? ?] | [? ?]]
    | H : context [Qmax ?a ?b] |- _ =>
        let m := fresh "m" in let Hm := fresh "Hm" in
        pose proof (Q.max_spec a b) as Hm; set (m := Qmax a b) in *;
        clearbody m; destruct Hm as [[? ?] | [? ?]]
    | H : context [Qmin ?a ?b] |- _ =>
        let m := fresh "m" in let Hm := fresh "Hm" in
        pose proof (Q.min_spec a b) as Hm; set (m := Qmin a b) in *;
        clearbody m; destruct Hm as [[? ?] | [? ?]]
    end.

(** Decide a comparison of two closed rationals by evaluation. *)
Ltac eval_Q :=
  match goal with
  | |- ~ (_ == _) =>
      let H := fresh in intros H; apply Qeq_bool_iff in H; vm_compute in H; discriminate H
  | |- _ == _ => apply Qeq_bool_iff; vm_compute; reflexivity
  | |- _ <= _ => apply Qle_bool_iff; vm_compute; reflexivity
  | |- _ < _ => apply Qlt_alt; vm_compute; reflexivity
  end.

Lemma ClipKind_eqb_eq (a b : ClipKind) : ClipKind_eqb a b = true <-> a = b.
Proof. destruct a, b; simpl; split; congruence. Qed.

Lemma ClipKind_eqb_neq (a b : ClipKind) : ClipKind_eqb a b = false <-> a <> b.
Proof. destruct a, b; simpl; split; congruence. Qed.





(* ------------------------------------------------------------------ *)
(** ** Bounds kept by clip mutations *)

(** Every inspector edit keeps the bounds of a clip. *)
Lemma applyClipField_invariant (field : ClipField) (parsed : Q) (c : Clip.t) :
  clipInvariant c -> clipInvariant (applyClipField field parsed c).
Proof.
  unfold clipInvariant. intros [Hd Ho].
  destruct field; unfold applyClipField.
  - simpl. tauto.
  - simpl. split; [| exact Ho].
    unfold MIN_CLIP_DURATION in *.
    destruct (ClipKind_eqb (Clip.kind c) image); minmax_cases; lra.
  - simpl. destruct (ClipKind_eqb (Clip.kind c) video); simpl.
    + destruct (js_gt (Qmax 0 (Qmin 2 parsed)) 0); simpl; tauto.
    + tauto.
  - destruct (ClipKind_eqb (Clip.kind c) image) eqn:K; simpl.
    + split; [exact Hd |]. intros Hk. apply ClipKind_eqb_eq in K. contradiction.
    + apply ClipKind_eqb_neq in K. specialize (Ho K).
      unfold MIN_CLIP_DURATION in *.
      split; [| intros _]; minmax_cases; lra.
Qed.

(** A pointer move keeps the least duration and a source offset that is not
    negative.  The upper bound of the offset is kept in the move and
    trim-right modes; a trim-left move on video or audio rounds the offset
    after clamping it, and keeps the rounded bound only. *)
Lemma dragClip_bounds (ds : DragState.t) (delta : Q) (c : Clip.t) :
  clipInvariant c ->
  MIN_CLIP_DURATION <= Clip.duration (dragClip ds delta c) /\
  (Clip.kind c <> image ->
   0 <= Clip.sourceOffset (dragClip ds delta c) /\
   (DragState.mode ds <> trim_left ->
    Clip.sourceOffset (dragClip ds delta c)
      <= Clip.sourceDuration c - MIN_CLIP_DURATION) /\
   (DragState.mode ds = trim_left ->
    Clip.sourceOffset (dragClip ds delta c)
      <= toStepTime (Clip.sourceDuration c - MIN_CLIP_DURATION))).
Proof.
  unfold clipInvariant. intros [Hd Ho].
  unfold dragClip. destruct (DragState.mode ds) eqn:M.
  - simpl. split; [exact Hd |]. intros Hk. specialize (Ho Hk).
    split; [tauto |]. split; [tauto | discriminate].
  - destruct (ClipKind_eqb (Clip.kind c) image) eqn:K; simpl.
    + split.
      * unfold MIN_CLIP_DURATION. minmax_cases; lra.
      * intros Hk. apply ClipKind_eqb_eq in K. contradiction.
    + split.
      * unfold MIN_CLIP_DURATION. minmax_cases; lra.
      * intros _. apply ClipKind_eqb_neq in K. specialize (Ho K).
        split; [| split; [congruence | intros _]].
        -- eapply Qle_trans; [| apply (toStepTime_mono 0)].
           ++ rewrite toStepTime_0. apply Qle_refl.
           ++ apply Q.le_max_l.
        -- apply toStepTime_mono.
           unfold MIN_CLIP_DURATION in *. minmax_cases; lra.
  - simpl. split.
    + unfold MIN_CLIP_DURATION in *.
      destruct (ClipKind_eqb (Clip.kind c) image); minmax_cases; lra.
    + intros Hk. specialize (Ho Hk). split; [tauto |]. split; [tauto | discriminate].
Qed.

(** The inspector keeps the bounds of every clip. *)
Lemma updateSelectedClipField_invariant (field : ClipField) (value : jsnum)
    (st : Editor) :
  Forall clipInvariant (clips st) ->
  Forall clipInvariant (clips (updateSelectedClipField field value st)).
Proof.
  intros H. unfold updateSelectedClipField.
  destruct (selectedClip st) as [[i c] |] eqn:S; [| exact H].
  destruct value as [parsed |]; [| exact H].
  assert (Hc : clipInvariant c).
  { unfold selectedClip in S.
    destruct (selectedClipId st) as [[| ch s] |]; try discriminate.
    apply findClip_Some in S as [S _].
    rewrite Forall_forall in H. apply H. eapply list_elem_of_lookup_2, S. }
  assert (H' : Forall clipInvariant (<[i := applyClipField field parsed c]> (clips st))).
  { apply Forall_insert; [exact H | now apply applyClipField_invariant]. }
  destruct field; try exact H'.
  revert H'. unfold applyClipField.
  destruct (ClipKind_eqb (Clip.kind c) image); intros H'; exact H'.
Qed.

(** A pointer move keeps the least duration of every clip. *)
Lemma onPointerMove_min_duration (event : PointerEvent.t) (st : Editor) :
  Forall clipInvariant (clips st) ->
  Forall (fun c => MIN_CLIP_DURATION <= Clip.duration c)
    (clips (onPointerMove event st)).
Proof.
  intros H.
  assert (H0 : Forall (fun c => MIN_CLIP_DURATION <= Clip.duration c) (clips st)).
  { eapply Forall_impl; [exact H |]. now intros c [Hc _]. }
  unfold onPointerMove.
  destruct (dragState st) as [ds |]; [| exact H0].
  destruct (findClip (DragState.clipId ds) (clips st)) as [[i c] |] eqn:F;
    [| exact H0].
  simpl. apply Forall_insert; [exact H0 |].
  apply dragClip_bounds.
  apply findClip_Some in F as [F _].
  rewrite Forall_forall in H. apply H. eapply list_elem_of_lookup_2, F.
Qed.

(** C3 fails at a trim-left gesture.  A video of 10.03 s, placed at 0 and
    within all bounds, is dragged 600 px by its left handle: the offset is
    clamped to 9.83 = sourceDuration - 0.2 and then rounded to 9.85, above
    the bound. *)
Theorem trim_left_offset_exceeds_bound :
  let c := Clip.mk (js "c1") (js "f1") (js "a.mp4") video 0 (1003 # 100) 0
             (1003 # 100) 1 false 1 (js "blob:a") in
  let st := mkEditor 0 false [c] [] [] None None None ∅ ∅ in
  clipInvariant c /\
  exists c',
    clips (dragGesture trim_left c (PointerEvent.mk 100 0)
             [PointerEvent.mk 700 0] st) = [c'] /\
    Clip.sourceOffset c' == 985 # 100 /\
    Clip.sourceDuration c' - MIN_CLIP_DURATION == 983 # 100 /\
    ~ clipInvariant c'.
Proof.
  intros c st. split.
  - split; [eval_Q |]. intros _. split; eval_Q.
  - eexists. split; [vm_compute; reflexivity |].
    split; [eval_Q |]. split; [eval_Q |].
    intros [_ H]. destruct H as [_ H]; [discriminate |].
    apply Qle_bool_iff in H. vm_compute in H. discriminate H.
Qed.

(* ------------------------------------------------------------------ *)
(** ** Caption cues from recognizer chunks *)

(** C4.  The chunks "hello world" over [0,2), "" over [2,3) and "goodbye"
    over [3,4), with fallback duration 4, give exactly the three cues
    "hello" [0,1), "world" [1,2) and "goodbye" [3,4), whatever ids are
    drawn. *)
Theorem buildCaptionCues_scenario (uuid : nat -> jsstring) :
  Forall2 cueIs
    (buildCaptionCues uuid
       [chunkAt "hello world" 0 2; chunkAt "" 2 3; chunkAt "goodbye" 3 4] 4)
    [(js "hello", 0, 1); (js "world", 1, 2); (js "goodbye", 3, 4)].
Proof.
  set (r := buildCaptionCues _ _ _).
  assert (E : r = [CaptionCue.mk (uuid 0%nat) (0 # 2) (4 # 4) (js "hello");
                   CaptionCue.mk (uuid 1%nat) (2 # 2) 2 (js "world");
                   CaptionCue.mk (uuid 2%nat) 3 4 (js "goodbye")]).
  { vm_compute. reflexivity. }
  rewrite E.
  repeat constructor.
Qed.

(** *** Words of a normalized text *)

Lemma truthy_true (s : jsstring) : truthy s = true <-> s <> [].
Proof. destruct s; simpl; split; congruence. Qed.

Lemma truthy_false (s : jsstring) : truthy s = false <-> s = [].
Proof. destruct s; simpl; split; congruence. Qed.

Lemma split_cons (sep : N) (text : jsstring) :
  exists w ws, split sep text = w :: ws.
Proof.
  induction text as [|c rest IH]; simpl.
  - now exists [], [].
  - destruct (c =? sep)%N; [now eexists _, _ |].
    destruct IH as (w & ws & ->). now eexists _, _.
Qed.

Lemma isSpace_SPACE : isSpace SPACE = true.
Proof. reflexivity. Qed.

(** A text with a code unit other than the separator has a word. *)
Lemma wordsOf_cons (text : jsstring) :
  (exists c, c ∈ text /\ c <> SPACE) -> wordsOf text <> [].
Proof.
  unfold wordsOf. induction text as [|c rest IH]; intros (x & Hx & Hn).
  - inversion Hx.
  - simpl. destruct (c =? SPACE)%N eqn:E.
    + apply N.eqb_eq in E. subst c. simpl. apply IH.
      apply elem_of_cons in Hx as [-> | Hx]; [congruence | eauto].
    + destruct (split_cons SPACE rest) as (w & ws & ->). simpl. discriminate.
Qed.

Lemma trimStart_head (text : jsstring) (c : N) (rest : jsstring) :
  trimStart text = c :: rest -> isSpace c = false.
Proof.
  induction text as [|d text IH]; simpl; [discriminate |].
  destruct (isSpace d) eqn:E; [exact IH |].
  intros [= <- _]. exact E.
Qed.

(** A text that is not empty after normalization has at least one word. *)
Lemma wordsOf_normalized (text : jsstring) :
  truthy (normalizeCaptionText text) = true ->
  wordsOf (normalizeCaptionText text) <> [].
Proof.
  unfold normalizeCaptionText, trim. intros H. apply wordsOf_cons.
  destruct (trimStart (reverse (trimStart (replaceSpaceRuns false text))))
    as [|c rest] eqn:E; [discriminate H |].
  exists c. split.
  - apply elem_of_reverse. left.
  - intros ->. apply trimStart_head in E. discriminate E.
Qed.

(** *** The loop of [buildCaptionCues] *)

Lemma buildStep_cues_no_words (uuid : nat -> jsstring) (s : BuildState)
    (chunk : AsrChunk.t) :
  wordsOf (chunkText chunk) = [] ->
  cues (buildStep uuid s chunk) = cues s.
Proof.
  intros H. unfold buildStep.
  destruct (negb (truthy (chunkText chunk))); [reflexivity |].
  destruct (chunkSpan (cursor s) chunk). now rewrite H.
Qed.

Lemma buildLoop_snoc (uuid : nat -> jsstring) (chunks : list AsrChunk.t)
    (chunk : AsrChunk.t) :
  buildLoop uuid (chunks ++ [chunk]) = buildStep uuid (buildLoop uuid chunks) chunk.
Proof. unfold buildLoop. now rewrite fold_left_app. Qed.

Lemma buildLoop_no_words (uuid : nat -> jsstring) (chunks : list AsrChunk.t) :
  Forall (fun chunk => wordsOf (chunkText chunk) = []) chunks ->
  cues (buildLoop uuid chunks) = [].
Proof.
  induction chunks as [|chunk chunks IH] using rev_ind; intros H.
  - reflexivity.
  - apply Forall_app in H as [H1 H2]. apply Forall_cons in H2 as [H2 _].
    rewrite buildLoop_snoc, buildStep_cues_no_words by exact H2. now apply IH.
Qed.

(** C5.  When no chunk has a word after normalization (in particular for
    no chunks at all), [buildCaptionCues] returns exactly one cue, with the
    sentinel text, start 0 and end [max(2, fallbackDuration)]; and whatever
    the chunks are, it never returns an empty list. *)
Theorem buildCaptionCues_placeholder (uuid : nat -> jsstring)
    (chunks : list AsrChunk.t) (fallbackDuration : Q) :
  (Forall (fun chunk => wordsOf (chunkText chunk) = []) chunks ->
   exists id,
     buildCaptionCues uuid chunks fallbackDuration =
       [CaptionCue.mk id 0 (Qmax 2 fallbackDuration) NO_SPEECH]) /\
  buildCaptionCues uuid chunks fallbackDuration <> [].
Proof.
  unfold buildCaptionCues. split.
  - intros H. rewrite (buildLoop_no_words uuid chunks H). eauto.
  - destruct (cues (buildLoop uuid chunks)); discriminate.
Qed.

(** Two chunks of white space only, and a fallback duration of 5 s. *)
Lemma buildCaptionCues_placeholder_witness :
  exists id,
    buildCaptionCues demoUuid [chunkAt "  " 0 1; AsrChunk.mk None None] 5 =
      [CaptionCue.mk id 0 (Qmax 2 5) NO_SPEECH].
Proof.
  apply (buildCaptionCues_placeholder demoUuid
           [chunkAt "  " 0 1; AsrChunk.mk None None] 5).
  repeat constructor.
Defined.

(** The span computed for a chunk neither starts before 0 nor ends before
    it starts, as long as the cursor is not negative. *)
Lemma chunkSpan_bounds (cursor : Q) (chunk : AsrChunk.t) :
  0 <= cursor ->
  0 <= fst (chunkSpan cursor chunk) /\
  fst (chunkSpan cursor chunk) + (2 # 10) <= snd (chunkSpan cursor chunk).
Proof.
  intros H. unfold chunkSpan.
  destruct (AsrChunk.timestamp chunk) as [[[s |] [e |]] |]; simpl;
    split; minmax_cases; lra.
Qed.

Lemma buildStep_cursor_nonneg (uuid : nat -> jsstring) (s : BuildState)
    (chunk : AsrChunk.t) :
  0 <= cursor s -> 0 <= cursor (buildStep uuid s chunk).
Proof.
  intros H. unfold buildStep.
  destruct (negb (truthy (chunkText chunk))); [exact H |].
  destruct (chunkSpan_bounds (cursor s) chunk H) as [H1 H2].
  destruct (chunkSpan (cursor s) chunk) as [safeStart safeEnd]. simpl in H1, H2.
  destruct (wordsOf (chunkText chunk)); simpl; lra.
Qed.

Lemma buildLoop_cursor_nonneg (uuid : nat -> jsstring) (chunks : list AsrChunk.t) :
  0 <= cursor (buildLoop uuid chunks).
Proof.
  induction chunks as [|chunk chunks IH] using rev_ind.
  - simpl. apply Qle_refl.
  - rewrite buildLoop_snoc. now apply buildStep_cursor_nonneg.
Qed.

(** C10.  In the loop of [buildCaptionCues] the cursor starts at 0; a chunk
    whose text is empty after normalization leaves the whole loop state,
    cursor included, as it was, time stamp or not; a chunk whose text is not
    empty produces at least one word, and the cursor becomes the adjusted
    end of that chunk; and a chunk without a time stamp gets the span from
    the cursor to the cursor plus 2. *)
Theorem buildCaptionCues_cursor (uuid : nat -> jsstring)
    (chunks : list AsrChunk.t) (chunk : AsrChunk.t) :
  cursor (buildLoop uuid []) = 0 /\
  (chunkText chunk = [] ->
   buildLoop uuid (chunks ++ [chunk]) = buildLoop uuid chunks) /\
  (chunkText chunk <> [] ->
   exists safeStart safeEnd word words,
     chunkSpan (cursor (buildLoop uuid chunks)) chunk = (safeStart, safeEnd) /\
     wordsOf (chunkText chunk) = word :: words /\
     cues (buildLoop uuid (chunks ++ [chunk])) =
       cues (buildLoop uuid chunks)
       ++ wordCues uuid (nextId (buildLoop uuid chunks)) safeStart safeEnd
            (word :: words) /\
     cursor (buildLoop uuid (chunks ++ [chunk])) = safeEnd) /\
  (AsrChunk.timestamp chunk = None ->
   fst (chunkSpan (cursor (buildLoop uuid chunks)) chunk)
     == cursor (buildLoop uuid chunks) /\
   snd (chunkSpan (cursor (buildLoop uuid chunks)) chunk)
     == cursor (buildLoop uuid chunks) + 2).
Proof.
  split; [reflexivity |]. rewrite buildLoop_snoc.
  set (s := buildLoop uuid chunks).
  split; [| split].
  - intros E. unfold buildStep. now rewrite E.
  - intros Hne. apply truthy_true in Hne.
    pose proof (wordsOf_normalized _ Hne) as Hw. fold (chunkText chunk) in Hw.
    unfold buildStep. rewrite Hne. simpl.
    destruct (chunkSpan (cursor s) chunk) as [safeStart safeEnd].
    destruct (wordsOf (chunkText chunk)) as [|word words]; [congruence |].
    exists safeStart, safeEnd, word, words. simpl. auto.
  - intros Hts. pose proof (buildLoop_cursor_nonneg uuid chunks) as Hc.
    fold s in Hc. unfold chunkSpan. rewrite Hts. simpl.
    split; minmax_cases; lra.
Qed.

(** After a chunk ending at 2, a chunk of white space stamped [5,9) and a
    chunk "ok" without time stamp: the cursor is still 2 and "ok" gets
    [2,4). *)
Lemma buildCaptionCues_cursor_witness :
  buildLoop demoUuid ([chunkAt "hello world" 0 2] ++ [chunkAt "  " 5 9])
    = buildLoop demoUuid [chunkAt "hello world" 0 2] /\
  (exists safeStart safeEnd word words,
     chunkSpan (cursor (buildLoop demoUuid [chunkAt "hello world" 0 2; chunkAt "  " 5 9]))
       (AsrChunk.mk (Some (js "ok")) None) = (safeStart, safeEnd) /\
     wordsOf (chunkText (AsrChunk.mk (Some (js "ok")) None)) = word :: words /\
     cues (buildLoop demoUuid
             ([chunkAt "hello world" 0 2; chunkAt "  " 5 9]
              ++ [AsrChunk.mk (Some (js "ok")) None])) =
       cues (buildLoop demoUuid [chunkAt "hello world" 0 2; chunkAt "  " 5 9])
       ++ wordCues demoUuid
            (nextId (buildLoop demoUuid [chunkAt "hello world" 0 2; chunkAt "  " 5 9]))
            safeStart safeEnd (word :: words) /\
     cursor (buildLoop demoUuid
               ([chunkAt "hello world" 0 2; chunkAt "  " 5 9]
                ++ [AsrChunk.mk (Some (js "ok")) None])) = safeEnd) /\
  (fst (chunkSpan (cursor (buildLoop demoUuid [chunkAt "hello world" 0 2; chunkAt "  " 5 9]))
          (AsrChunk.mk (Some (js "ok")) None))
     == cursor (buildLoop demoUuid [chunkAt "hello world" 0 2; chunkAt "  " 5 9]) /\
   snd (chunkSpan (cursor (buildLoop demoUuid [chunkAt "hello world" 0 2; chunkAt "  " 5 9]))
          (AsrChunk.mk (Some (js "ok")) None))
     == cursor (buildLoop demoUuid [chunkAt "hello world" 0 2; chunkAt "  " 5 9]) + 2).
Proof.
  split; [| split].
  - apply (buildCaptionCues_cursor demoUuid [chunkAt "hello world" 0 2]
             (chunkAt "  " 5 9)).
    reflexivity.
  - apply (buildCaptionCues_cursor demoUuid
             [chunkAt "hello world" 0 2; chunkAt "  " 5 9]
             (AsrChunk.mk (Some (js "ok")) None)).
    discriminate.
  - apply (buildCaptionCues_cursor demoUuid
             [chunkAt "hello world" 0 2; chunkAt "  " 5 9]
             (AsrChunk.mk (Some (js "ok")) None)).
    reflexivity.
Defined.

Example buildCaptionCues_after_blank_chunk :
  Forall2 cueIs
    (buildCaptionCues demoUuid
       [chunkAt "hello world" 0 2; chunkAt "  " 5 9;
        AsrChunk.mk (Some (js "ok")) None] 9)
    [(js "hello", 0, 1); (js "world", 1, 2); (js "ok", 2, 4)].
Proof. vm_compute. repeat constructor. Qed.

(* ------------------------------------------------------------------ *)
(** ** One-word texts *)

Lemma split_singleton (sep : N) (text w : jsstring) :
  split sep text = [w] -> text = w.
Proof.
  revert w. induction text as [|c rest IH]; intros w; simpl.
  - now intros [= <-].
  - destruct (c =? sep)%N.
    + destruct (split_cons sep rest) as (w' & ws' & ->). discriminate.
    + destruct (split sep rest) as [|w' ws'] eqn:E.
      * destruct (split_cons sep rest) as (? & ? & E'). congruence.
      * intros [= <- ->]. f_equal. now apply IH.
Qed.

(** The first piece is not empty when the text starts with another code
    unit than the separator. *)
Lemma split_first (sep c : N) (rest : jsstring) :
  c <> sep -> exists w ws, split sep (c :: rest) = (c :: w) :: ws.
Proof.
  intros H. simpl. apply N.eqb_neq in H. rewrite H.
  destruct (split_cons sep rest) as (w & ws & ->). now eexists _, _.
Qed.

(** So is the last piece when the text ends with such a code unit. *)
Lemma split_last (sep : N) (text : jsstring) (c : N) :
  last text = Some c -> c <> sep ->
  exists w, last (split sep text) = Some w /\ w <> [].
Proof.
  induction text as [|d rest IH]; [discriminate |].
  intros Hl Hc. destruct rest as [|e rest].
  - simpl in Hl. injection Hl as ->. simpl.
    apply N.eqb_neq in Hc. rewrite Hc. now exists [c].
  - change (last (d :: e :: rest)) with (last (e :: rest)) in Hl.
    destruct (IH Hl Hc) as (w & Hw & Hne).
    change (split sep (d :: e :: rest)) with
      (if (d =? sep)%N then [] :: split sep (e :: rest)
       else match split sep (e :: rest) with
            | [] => [[d]]
            | w :: ws => (d :: w) :: ws
            end).
    destruct (split sep (e :: rest)) as [|w0 ws0] eqn:E; [discriminate Hw |].
    destruct (d =? sep)%N.
    + exists w. split; [exact Hw | exact Hne].
    + destruct ws0 as [|w1 ws1].
      * simpl in *. eexists. split; [reflexivity | discriminate].
      * exists w. split; [exact Hw | exact Hne].
Qed.

(** Pieces that start and end with a word and hold one word only are that
    word alone. *)
Lemma one_word_pieces (pieces : list jsstring) (first lastw : jsstring) :
  head pieces = Some first -> first <> [] ->
  last pieces = Some lastw -> lastw <> [] ->
  length (List.filter truthy pieces) = 1%nat ->
  pieces = [first].
Proof.
  intros Hh Hf Hl Hlw Hn.
  destruct pieces as [|p ps]; [discriminate |].
  simpl in Hh. injection Hh as ->.
  destruct ps as [|q qs]; [reflexivity | exfalso].
  apply truthy_true in Hf.
  change (List.filter truthy (first :: q :: qs))
    with (if truthy first then first :: List.filter truthy (q :: qs)
          else List.filter truthy (q :: qs)) in Hn.
  rewrite Hf in Hn.
  assert (Hin : lastw ∈ q :: qs).
  { change (last (first :: q :: qs)) with (last (q :: qs)) in Hl.
    apply last_Some in Hl as [l' ->]. apply elem_of_app. right. left. }
  assert (Hin' : In lastw (List.filter truthy (q :: qs))).
  { apply filter_In. split; [now apply list_elem_of_In | now apply truthy_true]. }
  destruct (List.filter truthy (q :: qs)); [destruct Hin' | simpl in Hn; lia].
Qed.

Lemma trimStart_suffix (text : jsstring) :
  exists spaces, text = spaces ++ trimStart text.
Proof.
  induction text as [|c rest IH]; simpl.
  - now exists [].
  - destruct (isSpace c).
    + destruct IH as [p E]. exists (c :: p). simpl. now f_equal.
    + now exists [].
Qed.

(** A trimmed text that is not empty starts and ends with a code unit that
    is not white space. *)
Lemma trim_ends (text : jsstring) :
  trim text <> [] ->
  exists c rest d, trim text = c :: rest /\ isSpace c = false /\
                   last (trim text) = Some d /\ isSpace d = false.
Proof.
  unfold trim. intros Hne.
  set (y := trimStart text) in *.
  destruct (trimStart_suffix (reverse y)) as [p Ep].
  set (z := trimStart (reverse y)) in *.
  assert (Ey : y = reverse z ++ reverse p).
  { rewrite <- (reverse_involutive y), Ep, reverse_app. reflexivity. }
  destruct (reverse z) as [|c rest] eqn:Erz; [now destruct Hne |].
  destruct z as [|d z'] eqn:Ez; [discriminate Erz |].
  exists c, rest, d. split; [reflexivity |]. split; [| split].
  - apply (trimStart_head text c (rest ++ reverse p)). fold y. now rewrite Ey.
  - rewrite <- Erz, reverse_cons. apply last_snoc.
  - now apply (trimStart_head (reverse y) d z').
Qed.

Lemma isSpace_false_ne (c : N) : isSpace c = false -> c <> SPACE.
Proof. intros H ->. discriminate H. Qed.

(** A normalized text with exactly one word is that word. *)
Lemma wordsOf_one_word (text : jsstring) :
  length (wordsOf (normalizeCaptionText text)) = 1%nat ->
  wordsOf (normalizeCaptionText text) = [normalizeCaptionText text].
Proof.
  unfold normalizeCaptionText. set (r := replaceSpaceRuns false text).
  intros H.
  assert (Hne : trim r <> []).
  { intros E. rewrite E in H. discriminate H. }
  destruct (trim_ends r Hne) as (c & rest & d & E & Hc & Hl & Hd).
  unfold wordsOf in *.
  destruct (split_first SPACE c rest (isSpace_false_ne c Hc)) as (w & ws & Es).
  destruct (split_last SPACE (trim r) d Hl (isSpace_false_ne d Hd)) as (lw & Hlw & Hlne).
  rewrite E in *.
  assert (P : split SPACE (c :: rest) = [c :: w]).
  { apply (one_word_pieces _ _ lw); try assumption.
    - now rewrite Es.
    - discriminate. }
  pose proof (split_singleton SPACE _ _ P) as Q.
  rewrite P. simpl. now rewrite Q.
Qed.

(* ------------------------------------------------------------------ *)
(** ** Cues read back from the store *)

(** One iteration on a one-word cue of at least 0.2 s that does not start
    before 0: the cue is pushed as it is. *)
Lemma normalizeStoredStep_keeps (uuid : nat -> jsstring)
    (normalized : list CaptionCue.t) (next : nat) (cue : StoredCue.t) :
  singleWord cue -> wellSpaced cue ->
  exists out next',
    normalizeStoredStep uuid (normalized, next) cue = (normalized ++ [out], next') /\
    keepsCue out cue.
Proof.
  unfold singleWord, wellSpaced, keepsCue. intros Hw Hs.
  pose proof (wordsOf_one_word _ Hw) as Ht.
  unfold normalizeStoredStep.
  set (text := normalizeCaptionText (StoredCue.text cue)) in *.
  rewrite Hw. simpl.
  assert (Hne : truthy text = true).
  { apply truthy_true. intros E. rewrite E in Hw. discriminate Hw. }
  rewrite Hne. simpl.
  destruct (StoredCue.start cue) as [s |]; [| contradiction].
  destruct (StoredCue.end_ cue) as [e |]; [| contradiction].
  destruct Hs as [Hs0 Hse].
  assert (Es : Qmax 0 s == s) by (now apply Q.max_r).
  assert (Ee : Qmax (Qmax 0 s + (2 # 10)) e == e).
  { apply Q.max_r. rewrite Es. exact Hse. }
  destruct (truthy (StoredCue.id cue)) eqn:Hid; eexists _, _;
    (split; [reflexivity |]); simpl; repeat split; try assumption.
  apply truthy_false in Hid. congruence.
Qed.

Lemma normalizeStored_fold_keeps (uuid : nat -> jsstring)
    (rawCues : list StoredCue.t) (normalized : list CaptionCue.t) (next : nat) :
  Forall singleWord rawCues -> Forall wellSpaced rawCues ->
  exists outs next',
    fold_left (normalizeStoredStep uuid) rawCues (normalized, next)
      = (normalized ++ outs, next') /\
    Forall2 keepsCue outs rawCues.
Proof.
  revert normalized next.
  induction rawCues as [|cue rawCues IH]; intros normalized next Hw Hs.
  - exists [], next. simpl. rewrite app_nil_r. split; [reflexivity | constructor].
  - apply Forall_cons in Hw as [Hw Hws]. apply Forall_cons in Hs as [Hs Hss].
    destruct (normalizeStoredStep_keeps uuid normalized next cue Hw Hs)
      as (out & next1 & E1 & K1).
    destruct (IH (normalized ++ [out]) next1 Hws Hss) as (outs & next' & E & K).
    exists (out :: outs), next'. cbn [fold_left]. rewrite E1, E, <- app_assoc.
    split; [reflexivity | now constructor].
Qed.

(** C6, as amended.  On stored cues that are one word each after
    normalization, have finite bounds, do not start before 0 and last at
    least 0.2 s, [normalizeStoredCaptionCues] returns one cue per stored cue
    with the same word, the same start and the same end; the id changes only
    where the stored id was empty. *)
Theorem normalizeStoredCaptionCues_keeps_single_words (uuid : nat -> jsstring)
    (rawCues : list StoredCue.t) :
  Forall singleWord rawCues ->
  Forall wellSpaced rawCues ->
  Forall2 keepsCue (normalizeStoredCaptionCues uuid rawCues) rawCues.
Proof.
  intros Hw Hs. unfold normalizeStoredCaptionCues.
  destruct (normalizeStored_fold_keeps uuid rawCues [] 0%nat Hw Hs)
    as (outs & next' & E & K).
  now rewrite E.
Qed.

(** The cues built for "hello world" over [0,2) and "goodbye" over [3,4),
    saved and read back. *)
Lemma normalizeStoredCaptionCues_keeps_single_words_witness :
  let stored :=
    storeCue <$> buildCaptionCues demoUuid
                   [chunkAt "hello world" 0 2; chunkAt "goodbye" 3 4] 4 in
  Forall2 keepsCue (normalizeStoredCaptionCues demoUuid stored) stored.
Proof.
  intros stored.
  apply (normalizeStoredCaptionCues_keeps_single_words demoUuid stored).
  - repeat constructor.
  - repeat constructor; eval_Q.
Defined.

(** C6, as stated, fails for short words.  The three cues built for "a b c"
    over [0,0.3) last 0.1 s each; saved and read back they are still one
    word each, but the first one now ends at 0.2 instead of 0.1. *)
Lemma normalizeStoredCaptionCues_widens_short_words :
  let stored :=
    storeCue <$> buildCaptionCues demoUuid [chunkAt "a b c" 0 (3 # 10)] 1 in
  Forall singleWord stored /\
  (exists first rest,
     stored = first :: rest /\ StoredCue.text first = js "a" /\
     sameBound (StoredCue.start first) 0 /\
     sameBound (StoredCue.end_ first) (1 # 10)) /\
  (exists first rest,
     normalizeStoredCaptionCues demoUuid stored = first :: rest /\
     CaptionCue.text first = js "a" /\
     CaptionCue.start first == 0 /\ CaptionCue.end_ first == 2 # 10) /\
  ~ Forall2 keepsCue (normalizeStoredCaptionCues demoUuid stored) stored.
Proof.
  intros stored. split; [repeat constructor |]. split; [| split].
  - eexists _, _. split; [vm_compute; reflexivity |]. repeat split.
  - eexists _, _. split; [vm_compute; reflexivity |]. repeat split.
  - intros H. vm_compute in H. inversion H as [| ? ? ? ? K]; subst.
    destruct K as (_ & _ & K & _). discriminate K.
Qed.

(* ------------------------------------------------------------------ *)
(** ** Least length of a cue *)

Lemma wordCues_min_length (uuid : nat -> jsstring) (next : nat)
    (safeStart safeEnd : Q) (words : list jsstring) :
  Forall (fun cue => CaptionCue.start cue + MIN_CUE_LENGTH <= CaptionCue.end_ cue)
    (wordCues uuid next safeStart safeEnd words).
Proof.
  apply Forall_forall. intros cue H. unfold wordCues in H.
  apply elem_of_lookup_imap_1 in H as (i & word & -> & _).
  unfold wordCue, MIN_CUE_LENGTH. simpl. apply Q.le_max_l.
Qed.

Lemma buildLoop_min_length (uuid : nat -> jsstring) (chunks : list AsrChunk.t) :
  Forall (fun cue => CaptionCue.start cue + MIN_CUE_LENGTH <= CaptionCue.end_ cue)
    (cues (buildLoop uuid chunks)).
Proof.
  induction chunks as [|chunk chunks IH] using rev_ind; [constructor |].
  rewrite buildLoop_snoc. unfold buildStep.
  destruct (negb (truthy (chunkText chunk))); [exact IH |].
  destruct (chunkSpan _ chunk) as [safeStart safeEnd].
  destruct (wordsOf (chunkText chunk)) as [|w ws]; [exact IH |].
  simpl. apply Forall_app. split; [exact IH | apply wordCues_min_length].
Qed.

(** Every cue [buildCaptionCues] returns lasts at least 0.08 s. *)
Lemma buildCaptionCues_min_length (uuid : nat -> jsstring)
    (chunks : list AsrChunk.t) (fallbackDuration : Q) :
  Forall (fun cue => CaptionCue.start cue + MIN_CUE_LENGTH <= CaptionCue.end_ cue)
    (buildCaptionCues uuid chunks fallbackDuration).
Proof.
  unfold buildCaptionCues.
  pose proof (buildLoop_min_length uuid chunks) as H.
  destruct (cues (buildLoop uuid chunks)); [| exact H].
  repeat constructor. simpl. unfold MIN_CUE_LENGTH. minmax_cases; lra.
Qed.

Lemma normalizeStoredStep_min_length (uuid : nat -> jsstring)
    (acc : list CaptionCue.t * nat) (cue : StoredCue.t) :
  Forall (fun c => CaptionCue.start c + MIN_CUE_LENGTH <= CaptionCue.end_ c) (fst acc) ->
  Forall (fun c => CaptionCue.start c + MIN_CUE_LENGTH <= CaptionCue.end_ c)
    (fst (normalizeStoredStep uuid acc cue)).
Proof.
  destruct acc as [normalized next]. simpl. intros H.
  set (safeStart := match StoredCue.start cue with
                    | Finite s => Qmax 0 s | NonFinite => 0 end).
  set (safeEnd := match StoredCue.end_ cue with
                  | Finite e => Qmax (safeStart + (2 # 10)) e
                  | NonFinite => safeStart + 2 end).
  assert (Hs : safeStart + MIN_CUE_LENGTH <= safeEnd).
  { unfold safeEnd, MIN_CUE_LENGTH. destruct (StoredCue.end_ cue); minmax_cases; lra. }
  destruct (length (wordsOf (normalizeCaptionText (StoredCue.text cue))) <=? 1)%nat.
  - destruct (negb (truthy (normalizeCaptionText (StoredCue.text cue))));
      [exact H |].
    destruct (truthy (StoredCue.id cue)); simpl;
      (apply Forall_app; split; [exact H | repeat constructor; exact Hs]).
  - simpl. apply Forall_app. split; [exact H | apply wordCues_min_length].
Qed.

(** So does every cue [normalizeStoredCaptionCues] returns. *)
Lemma normalizeStoredCaptionCues_min_length (uuid : nat -> jsstring)
    (rawCues : list StoredCue.t) :
  Forall (fun cue => CaptionCue.start cue + MIN_CUE_LENGTH <= CaptionCue.end_ cue)
    (normalizeStoredCaptionCues uuid rawCues).
Proof.
  unfold normalizeStoredCaptionCues.
  induction rawCues as [|cue rawCues IH] using rev_ind; [constructor |].
  rewrite fold_left_app. cbn [fold_left].
  now apply normalizeStoredStep_min_length.
Qed.

(* ------------------------------------------------------------------ *)
(** ** The caption window *)

Lemma cueContains_true (time : Q) (cue : CaptionCue.t) :
  cueContains time cue = true <-> cueCovers time cue.
Proof.
  unfold cueContains, cueCovers. rewrite inRange_true.
  split; intros [H1 H2]; split; lra.
Qed.

(** C8.  If no cue covers the time the window is empty.  Otherwise, with
    [i] the first index whose cue covers the time (a cue of at least 1 ms,
    as every cue the editor holds is), the window is the run of cues at the
    indices from [i/3*3] up to, and excluding, the least of the number of
    cues and [i/3*3 + 3]; the cue at [i] and no other is flagged active, and
    its progress is [(time - start) / (end - start)] clamped to [0,1]. *)
Theorem getCaptionWindowForTime_window (time : Q) (st : Editor) :
  ((forall cue, cue ∈ captions st -> ~ cueCovers time cue) ->
   getCaptionWindowForTime time st = []) /\
  (forall (i : nat) (active : CaptionCue.t),
     captions st !! i = Some active ->
     cueCovers time active ->
     (forall j cue, captions st !! j = Some cue -> (j < i)%nat ->
                    ~ cueCovers time cue) ->
     (1 # 1000) <= CaptionCue.end_ active - CaptionCue.start active ->
     let lo := (i / 3 * 3)%nat in
     let hi := Nat.min (length (captions st)) (lo + 3) in
     length (getCaptionWindowForTime time st) = (hi - lo)%nat /\
     forall k, (lo <= k < hi)%nat ->
       exists cue entry,
         captions st !! k = Some cue /\
         getCaptionWindowForTime time st !! (k - lo)%nat = Some entry /\
         CaptionWindowCue.cue entry = cue /\
         (CaptionWindowCue.isActive entry = true <-> k = i) /\
         (k = i ->
          CaptionWindowCue.activeProgress entry
            == clamp01 ((time - CaptionCue.start active)
                        / (CaptionCue.end_ active - CaptionCue.start active)))).
Proof.
  split.
  - intros Hnone. unfold getCaptionWindowForTime.
    destruct (list_find _ (captions st)) as [[i cue] |] eqn:F; [| reflexivity].
    apply list_find_Some in F as (Hi & Hc & _).
    apply cueContains_true in Hc. exfalso. eapply Hnone; [| exact Hc].
    eapply list_elem_of_lookup_2, Hi.
  - intros i active Hi Hcov Hfirst Hlen lo hi.
    assert (F : list_find (fun cue => cueContains time cue = true) (captions st)
                = Some (i, active)).
    { apply list_find_Some. split; [exact Hi |]. split.
      - now apply cueContains_true.
      - intros j cue Hj Hji Hc. apply cueContains_true in Hc.
        exact (Hfirst j cue Hj Hji Hc). }
    unfold getCaptionWindowForTime. rewrite F.
    unfold CAPTION_WINDOW_WORD_COUNT. fold lo. fold hi.
    assert (Hil : (i < length (captions st))%nat) by (now apply lookup_lt_Some in Hi).
    assert (Hlo : (lo <= i < lo + 3)%nat).
    { unfold lo. pose proof (Nat.div_mod_eq i 3). pose proof (Nat.mod_upper_bound i 3). lia. }
    split.
    + rewrite length_imap. unfold slice. rewrite length_take, length_drop. lia.
    + intros k Hk.
      assert (Hkl : (k < length (captions st))%nat) by lia.
      destruct (lookup_lt_is_Some_2 _ _ Hkl) as [cue Hcue].
      eexists cue, _. split; [exact Hcue |].
      split.
      { rewrite list_lookup_imap. unfold slice.
        rewrite lookup_take_lt by lia. rewrite lookup_drop.
        replace (lo + (k - lo))%nat with k by lia. rewrite Hcue. reflexivity. }
      replace (lo + (k - lo))%nat with k by lia.
      simpl. split; [reflexivity |]. split; [apply Nat.eqb_eq |].
      intros ->. rewrite Nat.eqb_refl.
      assert (E : cue = active) by congruence. subst cue.
      unfold clamp01. rewrite (Q.max_r (1 # 1000)) by exact Hlen. reflexivity.
Qed.

(** Five one-second words; at 3.5 s the fourth is active and the window
    holds the fourth and the fifth. *)
Lemma getCaptionWindowForTime_window_witness :
  let st :=
    mkEditor (7 # 2) false []
      (buildCaptionCues demoUuid [chunkAt "one two three four five" 0 5] 5)
      [] None None None ∅ ∅ in
  exists active,
    captions st !! 3%nat = Some active /\
    CaptionCue.text active = js "four" /\
    length (getCaptionWindowForTime (7 # 2) st) = 2%nat /\
    forall k, (3 <= k < 5)%nat ->
      exists cue entry,
        captions st !! k = Some cue /\
        getCaptionWindowForTime (7 # 2) st !! (k - 3)%nat = Some entry /\
        CaptionWindowCue.cue entry = cue /\
        (CaptionWindowCue.isActive entry = true <-> k = 3%nat) /\
        (k = 3%nat ->
         CaptionWindowCue.activeProgress entry
           == clamp01 (((7 # 2) - CaptionCue.start active)
                       / (CaptionCue.end_ active - CaptionCue.start active))).
Proof.
  intros st. eexists. split; [vm_compute; reflexivity |].
  split; [reflexivity |].
  apply (proj2 (getCaptionWindowForTime_window (7 # 2) st) 3%nat).
  - vm_compute. reflexivity.
  - split; eval_Q.
  - intros j cue Hj Hlt [H1 H2].
    destruct j as [|[|[|j]]]; [| | | lia];
      vm_compute in Hj; injection Hj as <-;
      apply Qlt_alt in H2; vm_compute in H2; discriminate H2.
  - eval_Q.
Defined.

(* ------------------------------------------------------------------ *)
(** ** Playback synchronizer *)

Lemma insertByStart_perm (c : Clip.t) (l : list Clip.t) :
  insertByStart c l ≡ₚ c :: l.
Proof.
  induction l as [|d l IH]; simpl; [reflexivity |].
  destruct (js_lt (Clip.start d - Clip.start c) 0); [| reflexivity].
  rewrite IH. apply Permutation_swap.
Qed.

Lemma sortByStart_perm (l : list Clip.t) : sortByStart l ≡ₚ l.
Proof.
  unfold sortByStart. induction l as [|c l IH]; simpl; [reflexivity |].
  rewrite insertByStart_perm. now rewrite IH.
Qed.

Lemma set_volume_accepts (v : Q) (e : Media.t) :
  0 <= v -> v <= 1 ->
  Media.set_volume v e
  = Some (Media.mk (Media.currentTime e) v (Media.paused e) (Media.seekLog e)).
Proof.
  intros H0 H1. unfold Media.set_volume.
  apply js_ge_true in H0. apply js_le_true in H1. now rewrite H0, H1.
Qed.

Lemma set_volume_rejects (v : Q) (e : Media.t) :
  v < 0 \/ 1 < v -> Media.set_volume v e = None.
Proof.
  intros H. unfold Media.set_volume.
  destruct (js_ge v 0) eqn:A; [| reflexivity].
  destruct (js_le v 1) eqn:B; [| reflexivity].
  apply js_ge_true in A. apply js_le_true in B. lra.
Qed.

(** What an iteration that ran to its end leaves. *)
Lemma synced_accepts (forceSeek playing : bool) (time : Q) (clip : Clip.t)
    (e : Media.t) :
  Clip.kind clip <> image -> playable clip ->
  syncElement forceSeek playing time clip e
    = Some (synced forceSeek playing time clip e) /\
  synced forceSeek playing time clip e
  = let e0 :=
      Media.mk (Media.currentTime e) (getOutputVolume clip) (Media.paused e)
        (Media.seekLog e) in
    if inRange time (Clip.start clip) (Clip.duration clip) then
      let localTime := time - Clip.start clip + Clip.sourceOffset clip in
      let e1 :=
        if forceSeek || js_gt (Qabs (Media.currentTime e - localTime)) (2 # 10)
        then Media.set_currentTime localTime e0
        else e0 in
      if playing then safePlay e1 else Media.pause e1
    else Media.pause e0.
Proof.
  intros Hk [Hi | [H0 H1]]; [contradiction |].
  unfold synced, syncElement.
  rewrite (set_volume_accepts _ e H0 H1). now split.
Qed.

Lemma syncClip_lookup_ne (forceSeek playing : bool) (time : Q)
    (refs : gmap jsstring Media.t) (d : Clip.t) (k : jsstring) :
  k <> Clip.id d ->
  default refs (syncClip forceSeek playing time refs d) !! k = refs !! k.
Proof.
  intros Hk. unfold syncClip.
  destruct (refs !! Clip.id d) as [e |]; [| reflexivity].
  destruct (syncElement forceSeek playing time d e); [| reflexivity].
  cbn [default from_option id]. now rewrite lookup_insert_ne.
Qed.

Lemma syncClip_lookup_eq (forceSeek playing : bool) (time : Q)
    (refs : gmap jsstring Media.t) (d : Clip.t) :
  default refs (syncClip forceSeek playing time refs d) !! Clip.id d
  = synced forceSeek playing time d <$> refs !! Clip.id d.
Proof.
  unfold syncClip, synced.
  destruct (refs !! Clip.id d) as [e |] eqn:E;
    cbn [default from_option id fmap option_fmap option_map]; [| exact E].
  destruct (syncElement forceSeek playing time d e);
    cbn [default from_option id].
  - now rewrite lookup_insert_eq.
  - exact E.
Qed.

(** One pass over a list of clips with distinct ids, each iteration taken
    with what it leaves: an element registered under the id of a clip of
    the list is updated by that clip alone, unless the clip is skipped. *)
Lemma sync_fold_lookup (forceSeek playing : bool) (time : Q)
    (skip : Clip.t -> bool) (l : list Clip.t) (refs : gmap jsstring Media.t)
    (clip : Clip.t) :
  NoDup (Clip.id <$> l) ->
  clip ∈ l ->
  fold_left
    (fun refs clip =>
       if skip clip then refs
       else default refs (syncClip forceSeek playing time refs clip))
    l refs !! Clip.id clip
  = if skip clip then refs !! Clip.id clip
    else synced forceSeek playing time clip <$> refs !! Clip.id clip.
Proof.
  set (step := fun refs clip =>
                 if skip clip then refs
                 else default refs (syncClip forceSeek playing time refs clip)).
  assert (Other : forall l refs k, k ∉ Clip.id <$> l ->
                    fold_left step l refs !! k = refs !! k).
  { clear. intros l. induction l as [|d l IH]; intros refs k Hk; [reflexivity |].
    rewrite fmap_cons in Hk. apply not_elem_of_cons in Hk as [Hkd Hk].
    simpl. rewrite IH by exact Hk. unfold step.
    destruct (skip d); [reflexivity |]. now apply syncClip_lookup_ne. }
  revert refs. induction l as [|d l IH]; intros refs Hnd Hin.
  - inversion Hin.
  - rewrite fmap_cons in Hnd. apply NoDup_cons in Hnd as [Hd Hnd].
    apply elem_of_cons in Hin as [-> | Hin].
    + simpl. rewrite Other by exact Hd. unfold step.
      destruct (skip d); [reflexivity |]. apply syncClip_lookup_eq.
    + simpl. rewrite IH by assumption.
      assert (Hne : Clip.id clip <> Clip.id d).
      { intros E. apply Hd. rewrite <- E. now apply list_elem_of_fmap_2. }
      assert (E : step refs d !! Clip.id clip = refs !! Clip.id clip).
      { unfold step. destruct (skip d); [reflexivity |].
        now apply syncClip_lookup_ne. }
      now rewrite E.
Qed.

(** A loop none of whose iterations throws runs to its end. *)
Lemma syncLoop_completes
    (body : gmap jsstring Media.t -> Clip.t -> option (gmap jsstring Media.t))
    (l : list Clip.t) (refs : gmap jsstring Media.t) :
  (forall clip refs, clip ∈ l -> is_Some (body refs clip)) ->
  syncLoop body l refs
  = (fold_left (fun refs clip => default refs (body refs clip)) l refs, true).
Proof.
  revert refs. induction l as [|d l IH]; intros refs H; [reflexivity |].
  cbn [syncLoop fold_left].
  destruct (H d refs) as [refs' E]; [left |]. rewrite E. cbn [default from_option id].
  apply IH. intros clip r Hc. apply H. now right.
Qed.

Lemma syncClip_accepts (forceSeek playing : bool) (time : Q)
    (refs : gmap jsstring Media.t) (clip : Clip.t) :
  Clip.kind clip <> image -> playable clip ->
  is_Some (syncClip forceSeek playing time refs clip).
Proof.
  intros Hk Hp. unfold syncClip.
  destruct (refs !! Clip.id clip) as [e |]; [| eauto].
  rewrite (proj1 (synced_accepts forceSeek playing time clip e Hk Hp)). eauto.
Qed.

Lemma filter_ids_NoDup (p : Clip.t -> bool) (l : list Clip.t) :
  NoDup (Clip.id <$> l) -> NoDup (Clip.id <$> sortByStart (List.filter p l)).
Proof.
  intros H. rewrite sortByStart_perm.
  induction l as [|c l IH]; simpl; [constructor |].
  rewrite fmap_cons in H. apply NoDup_cons in H as [Hc H].
  destruct (p c); [| now apply IH].
  rewrite fmap_cons. apply NoDup_cons. split; [| now apply IH].
  intros Hin. apply Hc. apply list_elem_of_fmap in Hin as (d & E & Hd).
  apply list_elem_of_In, filter_In in Hd as [Hd _].
  rewrite E. apply list_elem_of_fmap_2. now apply list_elem_of_In.
Qed.

Lemma elem_of_sorted_filter (p : Clip.t -> bool) (l : list Clip.t) (c : Clip.t) :
  c ∈ l -> p c = true -> c ∈ sortByStart (List.filter p l).
Proof.
  intros Hin Hp. rewrite sortByStart_perm.
  apply list_elem_of_In, filter_In. split; [now apply list_elem_of_In | exact Hp].
Qed.

Lemma sorted_filter_elem_of (p : Clip.t -> bool) (l : list Clip.t) (c : Clip.t) :
  c ∈ sortByStart (List.filter p l) -> c ∈ l /\ p c = true.
Proof.
  rewrite sortByStart_perm. intros H.
  apply list_elem_of_In, filter_In in H as [H Hp].
  split; [now apply list_elem_of_In | exact Hp].
Qed.

Lemma fold_left_pointwise {A B : Type} (f g : A -> B -> A) (l : list B) (a : A) :
  (forall a x, f a x = g a x) -> fold_left f l a = fold_left g l a.
Proof.
  intros H. revert a. induction l as [|x l IH]; intros a; [reflexivity |].
  cbn [fold_left]. now rewrite H, IH.
Qed.

(** When every clip's output volume is one a media element accepts, neither
    loop throws, and each is the pass of its iterations. *)
Lemma syncPreviewMedia_completes (forceSeek : bool) (st : Editor) :
  Forall playable (clips st) ->
  syncVideos forceSeek st
  = (fold_left
       (fun refs clip =>
          if negb (ClipKind_eqb (Clip.kind clip) video) then refs
          else default refs
                 (syncClip forceSeek (isPlaying st) (currentTime st) refs clip))
       (visualClips st) (visualVideoRefs st), true) /\
  syncAudios forceSeek st
  = (fold_left
       (fun refs clip =>
          default refs
            (syncClip forceSeek (isPlaying st) (currentTime st) refs clip))
       (audioClips st) (audioRefs st), true) /\
  syncPreviewMedia_throws forceSeek st = false.
Proof.
  intros Hp. rewrite Forall_forall in Hp.
  assert (V : syncVideos forceSeek st
              = (fold_left
                   (fun refs clip =>
                      if negb (ClipKind_eqb (Clip.kind clip) video) then refs
                      else default refs
                             (syncClip forceSeek (isPlaying st) (currentTime st)
                                refs clip))
                   (visualClips st) (visualVideoRefs st), true)).
  { unfold syncVideos. rewrite syncLoop_completes.
    - f_equal. apply fold_left_pointwise. intros refs clip.
      now destruct (negb (ClipKind_eqb (Clip.kind clip) video)).
    - intros clip refs Hc.
      destruct (ClipKind_eqb (Clip.kind clip) video) eqn:K; cbn [negb]; [| eauto].
      apply ClipKind_eqb_eq in K. apply sorted_filter_elem_of in Hc as [Hc _].
      apply syncClip_accepts; [rewrite K; discriminate | now apply Hp]. }
  assert (A : syncAudios forceSeek st
              = (fold_left
                   (fun refs clip =>
                      default refs
                        (syncClip forceSeek (isPlaying st) (currentTime st)
                           refs clip))
                   (audioClips st) (audioRefs st), true)).
  { unfold syncAudios. rewrite V. cbn [snd]. apply syncLoop_completes.
    intros clip refs Hc. apply sorted_filter_elem_of in Hc as [Hc K].
    unfold isAudio in K. apply ClipKind_eqb_eq in K.
    apply syncClip_accepts; [rewrite K; discriminate | now apply Hp]. }
  split; [exact V |]. split; [exact A |].
  unfold syncPreviewMedia_throws. now rewrite A.
Qed.

Lemma syncClip_keys (forceSeek playing : bool) (time : Q)
    (refs refs' : gmap jsstring Media.t) (d : Clip.t) (k : jsstring) :
  syncClip forceSeek playing time refs d = Some refs' ->
  is_Some (refs !! k) -> is_Some (refs' !! k).
Proof.
  unfold syncClip. intros H Hk.
  destruct (refs !! Clip.id d) as [e |]; [| now injection H as <-].
  destruct (syncElement forceSeek playing time d e) as [e' |]; [| discriminate H].
  injection H as <-. apply lookup_insert_is_Some.
  destruct (decide (Clip.id d = k)); [now left | now right].
Qed.

Lemma syncClip_rejects (forceSeek playing : bool) (time : Q)
    (refs : gmap jsstring Media.t) (clip : Clip.t) :
  getOutputVolume clip < 0 \/ 1 < getOutputVolume clip ->
  is_Some (refs !! Clip.id clip) ->
  syncClip forceSeek playing time refs clip = None.
Proof.
  intros Hv [e He]. unfold syncClip, syncElement.
  now rewrite He, (set_volume_rejects _ e Hv).
Qed.

(** A loop that comes to an iteration that throws does not run to its
    end. *)
Lemma syncLoop_throws
    (body : gmap jsstring Media.t -> Clip.t -> option (gmap jsstring Media.t))
    (l : list Clip.t) (refs : gmap jsstring Media.t) (clip : Clip.t) :
  (forall refs refs' d k, body refs d = Some refs' ->
                          is_Some (refs !! k) -> is_Some (refs' !! k)) ->
  (forall refs, is_Some (refs !! Clip.id clip) -> body refs clip = None) ->
  clip ∈ l ->
  is_Some (refs !! Clip.id clip) ->
  snd (syncLoop body l refs) = false.
Proof.
  intros Hkeys Hthrow. revert refs.
  induction l as [|d l IH]; intros refs Hin Hreg; [inversion Hin |].
  cbn [syncLoop]. destruct (body refs d) as [refs' |] eqn:B; [| reflexivity].
  apply elem_of_cons in Hin as [-> | Hin].
  - rewrite (Hthrow refs Hreg) in B. discriminate B.
  - apply IH; [exact Hin |]. now apply (Hkeys refs refs' d).
Qed.

(** A registered video or audio clip whose output volume the element does
    not accept makes every pass of the synchronizer throw. *)
Lemma syncPreviewMedia_throws_loud (forceSeek : bool) (st : Editor)
    (clip : Clip.t) :
  clip ∈ clips st ->
  Clip.kind clip <> image ->
  is_Some (refsFor clip st !! Clip.id clip) ->
  getOutputVolume clip < 0 \/ 1 < getOutputVolume clip ->
  syncPreviewMedia_throws forceSeek st = true.
Proof.
  intros Hin Hk Hreg Hv. unfold syncPreviewMedia_throws, syncAudios.
  apply negb_true_iff.
  destruct (Clip.kind clip) eqn:K; [| contradiction |]; unfold refsFor in Hreg;
    rewrite K in Hreg.
  - assert (V : snd (syncVideos forceSeek st) = false).
    { unfold syncVideos. apply (syncLoop_throws _ _ _ clip).
      - intros refs refs' d k H.
        destruct (negb (ClipKind_eqb (Clip.kind d) video));
          [now injection H as <- | exact (syncClip_keys _ _ _ _ _ _ _ H)].
      - intros refs Hr. rewrite K. cbn [ClipKind_eqb negb].
        now apply syncClip_rejects.
      - apply elem_of_sorted_filter; [exact Hin |]. unfold isVisual. now rewrite K.
      - exact Hreg. }
    now rewrite V.
  - destruct (snd (syncVideos forceSeek st)); [| reflexivity].
    apply (syncLoop_throws _ _ _ clip).
    + intros refs refs' d k H. exact (syncClip_keys _ _ _ _ _ _ _ H).
    + intros refs Hr. now apply syncClip_rejects.
    + apply elem_of_sorted_filter; [exact Hin |]. unfold isAudio. now rewrite K.
    + exact Hreg.
Qed.

(** The element of a video or audio clip after a pass of the synchronizer
    that does not throw, when clip ids are distinct. *)
Lemma syncPreviewMedia_element (forceSeek : bool) (st : Editor) (clip : Clip.t) :
  NoDup (Clip.id <$> clips st) ->
  Forall playable (clips st) ->
  clip ∈ clips st ->
  Clip.kind clip <> image ->
  refsFor clip (syncPreviewMedia forceSeek st) !! Clip.id clip
  = synced forceSeek (isPlaying st) (currentTime st) clip
      <$> refsFor clip st !! Clip.id clip.
Proof.
  intros Hnd Hp Hin Hk.
  destruct (syncPreviewMedia_completes forceSeek st Hp) as (V & A & _).
  unfold refsFor, syncPreviewMedia.
  destruct (Clip.kind clip) eqn:K; [| contradiction |];
    cbn [set_mediaRefs visualVideoRefs audioRefs].
  - rewrite V. cbn [fst].
    rewrite (sync_fold_lookup forceSeek (isPlaying st) (currentTime st)
               (fun clip => negb (ClipKind_eqb (Clip.kind clip) video))).
    + now rewrite K.
    + now apply filter_ids_NoDup.
    + apply elem_of_sorted_filter; [exact Hin |]. unfold isVisual. now rewrite K.
  - rewrite A. cbn [fst].
    assert (Hnd' : NoDup (Clip.id <$> audioClips st)) by (now apply filter_ids_NoDup).
    assert (Hin' : clip ∈ audioClips st).
    { apply elem_of_sorted_filter; [exact Hin |]. unfold isAudio. now rewrite K. }
    exact (sync_fold_lookup forceSeek (isPlaying st) (currentTime st)
             (fun _ => false) (audioClips st) (audioRefs st) clip Hnd' Hin').
Qed.

(** The tolerance of a pass that does not throw.  In a pass that is not
    forced, at timeline time T, take a video or audio clip with a
    registered media element, among clips with distinct ids whose output
    volumes are at most 1, and let L = T - start + sourceOffset.  If the
    clip's interval contains T and the element's position is within 0.2 s
    of L, the position is not written; if it is farther than 0.2 s from L,
    the position is written once, with L; and if the interval does not
    contain T, the element is paused and its position is not written. *)
Lemma syncPreviewMedia_tolerance_when_accepted (st : Editor) (clip : Clip.t)
    (element : Media.t) :
  NoDup (Clip.id <$> clips st) ->
  Forall playable (clips st) ->
  clip ∈ clips st ->
  Clip.kind clip <> image ->
  refsFor clip st !! Clip.id clip = Some element ->
  let T := currentTime st in
  let L := T - Clip.start clip + Clip.sourceOffset clip in
  let drift := Qabs (Media.currentTime element - L) in
  let active := Clip.start clip <= T /\ T < Clip.start clip + Clip.duration clip in
  exists element',
    refsFor clip (syncPreviewMedia false st) !! Clip.id clip = Some element' /\
    (active -> drift <= 2 # 10 ->
     Media.seekLog element' = Media.seekLog element /\
     Media.currentTime element' = Media.currentTime element) /\
    (active -> 2 # 10 < drift ->
     Media.seekLog element' = Media.seekLog element ++ [L] /\
     Media.currentTime element' = L) /\
    (~ active ->
     Media.paused element' = true /\
     Media.seekLog element' = Media.seekLog element).
Proof.
  intros Hnd Hp Hin Hk He T L drift active.
  assert (Hpc : playable clip).
  { rewrite Forall_forall in Hp. now apply Hp. }
  rewrite (syncPreviewMedia_element false st clip Hnd Hp Hin Hk), He. simpl.
  eexists. split; [reflexivity |].
  rewrite (proj2 (synced_accepts false (isPlaying st) (currentTime st) clip
                    element Hk Hpc)).
  cbv zeta. fold T. fold L.
  split; [| split].
  - intros Ha Hd. apply inRange_true in Ha. rewrite Ha. cbn [orb].
    apply js_gt_false in Hd. fold drift. rewrite Hd.
    destruct (isPlaying st); split; reflexivity.
  - intros Ha Hd. apply inRange_true in Ha. rewrite Ha. cbn [orb].
    apply js_gt_true in Hd. fold drift. rewrite Hd.
    destruct (isPlaying st); split; reflexivity.
  - intros Ha. apply inRange_false in Ha. rewrite Ha. split; reflexivity.
Qed.

(** Decides [Forall playable] on a closed list of video and audio clips. *)
Ltac all_playable :=
  repeat (apply List.Forall_cons; [right; split; eval_Q |]);
  apply List.Forall_nil.

(** A video playing from source offset 1, 3 s into the timeline, whose
    element reports 4.1 s where 4 s is due: the position is left alone. *)
Example syncPreviewMedia_within_tolerance :
  let clip := Clip.mk (js "v1") (js "f1") (js "a.mp4") video 0 10 1 11 1 false 1
                (js "blob:a") in
  let voice := Clip.mk (js "a1") (js "f2") (js "b.mp3") audio 5 4 0 4 1 false 1
                 (js "blob:b") in
  let element := Media.mk (41 # 10) 1 false [] in
  let st :=
    mkEditor 3 true [clip; voice] [] [] None None None
      (<[js "v1" := element]> ∅) (<[js "a1" := Media.mk 0 1 true []]> ∅) in
  exists element',
    refsFor clip (syncPreviewMedia false st) !! Clip.id clip = Some element' /\
    Media.seekLog element' = Media.seekLog element /\
    Media.currentTime element' = Media.currentTime element.
Proof.
  intros clip voice element st.
  destruct (syncPreviewMedia_tolerance_when_accepted st clip element)
    as (e & He & Hnear & _).
  - apply NoDup_cons. split; [| apply NoDup_singleton].
    intros H. apply list_elem_of_singleton in H. discriminate H.
  - all_playable.
  - left.
  - discriminate.
  - vm_compute. reflexivity.
  - exists e. split; [exact He |]. apply Hnear.
    + split; eval_Q.
    + eval_Q.
Qed.

Example syncPreviewMedia_seeks_beyond_tolerance :
  let clip := Clip.mk (js "v1") (js "f1") (js "a.mp4") video 0 10 1 11 1 false 1
                (js "blob:a") in
  let st :=
    mkEditor 3 true [clip] [] [] None None None
      (<[js "v1" := Media.mk (43 # 10) 1 false []]> ∅) ∅ in
  exists element',
    visualVideoRefs (syncPreviewMedia false st) !! js "v1" = Some element' /\
    Media.seekLog element' = [3 - 0 + 1].
Proof. eexists. split; vm_compute; reflexivity. Qed.

(** C7.  The claim fails on a clip whose volume is above 1, which the
    inspector allows up to 2.  A 10 s video at 0, selected, whose element
    is registered and reports position 0 while the clock is at 3 s; its
    volume is set to 1.5 in the inspector.  The clip contains the clock,
    and the position due is L = 3 - 0 + 0 = 3, farther than 0.2 s from 0.
    Yet neither the forced pass that ends the inspector's handler nor a
    following pass corrects the position: the assignment of 1.5 to the
    element's volume throws before the position is looked at, so the
    element keeps its position, its volume and an empty seek log, and the
    pass throws. *)
Theorem syncPreviewMedia_loud_clip_not_corrected :
  let clip := Clip.mk (js "v1") (js "f1") (js "a.mp4") video 0 10 0 10 1 false 1
                (js "blob:a") in
  let element := Media.mk 0 1 true [] in
  let st0 :=
    mkEditor 3 true [clip] [] [] (Some (js "v1")) None None
      (<[js "v1" := element]> ∅) ∅ in
  let st := updateSelectedClipField field_volume (Finite (3 # 2)) st0 in
  let L := 3 - 0 + 0 in
  exists loud,
    clips st = [loud] /\
    Clip.id loud = js "v1" /\ Clip.kind loud = video /\
    getOutputVolume loud == 3 # 2 /\
    clipActive (currentTime st) loud /\
    currentTime st - Clip.start loud + Clip.sourceOffset loud == L /\
    refsFor loud st !! Clip.id loud = Some element /\
    2 # 10 < Qabs (Media.currentTime element - L) /\
    refsFor loud (syncPreviewMedia false st) !! Clip.id loud = Some element /\
    ~ Media.currentTime element == L /\
    Media.seekLog element = [] /\
    syncPreviewMedia_throws false st = true.
Proof.
  intros clip element st0 st L. eexists.
  split; [vm_compute; reflexivity |].
  split; [reflexivity |]. split; [reflexivity |].
  split; [eval_Q |]. split; [split; eval_Q |]. split; [eval_Q |].
  split; [vm_compute; reflexivity |]. split; [eval_Q |].
  split; [vm_compute; reflexivity |]. split; [eval_Q |].
  split; [reflexivity | vm_compute; reflexivity].
Qed.

(* ------------------------------------------------------------------ *)
(** ** Conversion of an empty buffer *)

(** A buffer that is not empty does reach the network: the first effect of
    the conversion is the request to the endpoint. *)
Lemma convertWebmToMp4_requests (network : list N -> FetchOutcome)
    (webmBlob : Blob.t) :
  Blob.size webmBlob <> 0%nat ->
  exists result,
    convertWebmToMp4 network webmBlob =
      ([Fetch (js "/api/export-mp4") (js "POST") (js "video/webm")
          (Blob.bytes webmBlob)], result).
Proof.
  intros H. unfold convertWebmToMp4, withTimeout, fetch.
  apply Nat.eqb_neq in H. rewrite H.
  destruct (network (Blob.bytes webmBlob)) as [response | m |]; simpl;
    try (eexists; reflexivity).
  destruct (Response.ok response); simpl; [eexists; reflexivity |].
  destruct (truthy (Response.text response)); eexists; reflexivity.
Qed.

(** With a body, a transcoder, a temporary directory and the body written
    into it, the endpoint does start the transcoder. *)
Lemma exportMp4Handler_spawns (env : Server) (chunks : list (list N))
    (c : N) (path tempDir : jsstring) :
  concat chunks <> [] ->
  ffmpegStatic env = Some (c :: path) ->
  mkdtemp env = inr tempDir ->
  writeFile env = None ->
  exists args, Spawn (c :: path) args ∈ fst (exportMp4Handler env chunks).
Proof.
  intros Hne Hf Hd Hw. unfold exportMp4Handler. rewrite Hf, Hd, Hw.
  destruct (concat chunks) as [|b input] eqn:E; [congruence |]. simpl.
  unfold runFfmpeg.
  destruct (ffmpeg env (b :: input)) as [m | code stderr output]; simpl.
  - destruct (rm env); eexists; right; right; left.
  - destruct (code =? 0)%Z; simpl.
    + destruct output; simpl; destruct (rm env); eexists; right; right; left.
    + destruct (truthy stderr); simpl; destruct (rm env); eexists; right; right; left.
Qed.

(** C9.  Converting a recorded buffer of size zero throws the "buffer is
    empty" error with no request issued, whatever the network would answer;
    and the endpoint answers an empty body with the 400 error "Missing video
    payload" with no effect issued, so without starting the transcoder. *)
Theorem empty_buffer_fails_fast (network : list N -> FetchOutcome)
    (env : Server) (webmBlob : Blob.t) (chunks : list (list N)) :
  (Blob.size webmBlob = 0%nat ->
   convertWebmToMp4 network webmBlob = ([], inl (JsError EMPTY_BUFFER_MESSAGE))) /\
  (concat chunks = [] ->
   exportMp4Handler env chunks =
     ([], inl (H3Error 400 (js "Missing video payload")))).
Proof.
  split.
  - intros H. unfold convertWebmToMp4. now rewrite H.
  - intros H. unfold exportMp4Handler. now rewrite H.
Qed.

(** An empty blob, and a request that delivered two empty buffers, against
    a network and a transcoder that would succeed. *)
Lemma empty_buffer_fails_fast_witness :
  let network := fun _ => Responded (Response.mk true 200 [] [0%N]) in
  let env := mkServer (Some (js "/usr/bin/ffmpeg")) (js "/tmp")
               (inr (js "/tmp/vidmaker-1")) None
               (fun _ => Closed 0 [] (Some [0%N])) None in
  convertWebmToMp4 network (Blob.mk [] (js "video/webm"))
    = ([], inl (JsError EMPTY_BUFFER_MESSAGE)) /\
  exportMp4Handler env [[]; []]
    = ([], inl (H3Error 400 (js "Missing video payload"))).
Proof.
  intros network env. split.
  - apply (empty_buffer_fails_fast network env (Blob.mk [] (js "video/webm")) []).
    reflexivity.
  - apply (empty_buffer_fails_fast network env (Blob.mk [] (js "video/webm")) [[]; []]).
    reflexivity.
Defined.

(* ------------------------------------------------------------------ *)
(** ** Ordered tracks and active items *)

Lemma insertByStart_sorted (c : Clip.t) (l : list Clip.t) :
  StronglySorted byStart l -> StronglySorted byStart (insertByStart c l).
Proof.
  induction l as [|d l IH]; intros H; simpl.
  - repeat constructor.
  - apply StronglySorted_inv in H as [Hl Hd].
    destruct (js_lt (Clip.start d - Clip.start c) 0) eqn:E.
    + apply js_lt_true in E. constructor; [now apply IH |].
      rewrite Forall_forall. intros x Hx.
      rewrite insertByStart_perm in Hx.
      apply elem_of_cons in Hx as [-> | Hx].
      * unfold byStart. lra.
      * rewrite Forall_forall in Hd. now apply Hd.
    + apply not_true_iff_false in E. rewrite js_lt_true in E.
      assert (Hcd : Clip.start c <= Clip.start d) by lra.
      constructor; [now constructor |].
      constructor; [exact Hcd |].
      eapply Forall_impl; [exact Hd |]. unfold byStart. intros x Hx. simpl in *. lra.
Qed.

Lemma sortByStart_sorted (l : list Clip.t) : StronglySorted byStart (sortByStart l).
Proof.
  unfold sortByStart. induction l as [|c l IH]; simpl; [constructor |].
  now apply insertByStart_sorted.
Qed.

(** The sort is stable: a list already in order, ties included, is
    returned as it is. *)
Lemma sortByStart_ordered (l : list Clip.t) :
  StronglySorted byStart l -> sortByStart l = l.
Proof.
  unfold sortByStart. induction l as [|c l IH]; intros H; [reflexivity |].
  apply StronglySorted_inv in H as [Hl Hc]. simpl. rewrite IH by exact Hl.
  destruct l as [|d l]; [reflexivity |]. simpl.
  apply Forall_cons in Hc as [Hcd _]. unfold byStart in Hcd.
  destruct (js_lt (Clip.start d - Clip.start c) 0) eqn:E; [| reflexivity].
  apply js_lt_true in E. lra.
Qed.

(** X1.  Each of the two track lists, the video and image track and the
    audio track, holds exactly the clips of its track, every one as often
    as in [clips], in ascending order of start; and a track whose clips are
    already in that order in [clips], ties included, is read in the order
    it has there. *)
Theorem tracks_sorted (st : Editor) :
  (StronglySorted byStart (visualClips st) /\
   visualClips st ≡ₚ List.filter isVisual (clips st)) /\
  (StronglySorted byStart (audioClips st) /\
   audioClips st ≡ₚ List.filter isAudio (clips st)) /\
  (StronglySorted byStart (List.filter isVisual (clips st)) ->
   visualClips st = List.filter isVisual (clips st)) /\
  (StronglySorted byStart (List.filter isAudio (clips st)) ->
   audioClips st = List.filter isAudio (clips st)).
Proof.
  unfold visualClips, audioClips.
  split; [split; [apply sortByStart_sorted | apply sortByStart_perm] |].
  split; [split; [apply sortByStart_sorted | apply sortByStart_perm] |].
  split; apply sortByStart_ordered.
Qed.

(** Two images that start together after a video, and two audio clips
    that start together, one of them listed between the images. *)
Lemma tracks_sorted_witness :
  let a := Clip.mk (js "a") (js "f") (js "a.mp4") video 0 4 0 4 1 false 1 (js "u") in
  let b := Clip.mk (js "b") (js "f") (js "b.png") image 4 3 0 3 1 false 1 (js "u") in
  let m := Clip.mk (js "m") (js "f") (js "m.mp3") audio 1 5 0 5 1 false 1 (js "u") in
  let c := Clip.mk (js "c") (js "f") (js "c.png") image 4 2 0 2 1 false 1 (js "u") in
  let n := Clip.mk (js "n") (js "f") (js "n.mp3") audio 1 2 0 2 1 false 1 (js "u") in
  let st := mkEditor 0 false [a; b; m; c; n] [] [] None None None ∅ ∅ in
  visualClips st = [a; b; c] /\ audioClips st = [m; n].
Proof.
  intros a b m c n st.
  destruct (tracks_sorted st) as (_ & _ & Hv & Ha).
  split; [apply Hv | apply Ha];
    repeat constructor; unfold byStart; simpl; eval_Q.
Defined.

Lemma find_split {A : Type} (p : A -> bool) (l : list A) (x : A) :
  List.find p l = Some x ->
  exists before after,
    l = before ++ x :: after /\ p x = true /\ Forall (fun y => p y = false) before.
Proof.
  induction l as [|y l IH]; simpl; [discriminate |].
  destruct (p y) eqn:E.
  - intros [= ->]. exists [], l. repeat split; [exact E | constructor].
  - intros H. destruct (IH H) as (before & after & -> & Hp & Hb).
    exists (y :: before), after. repeat split; [exact Hp | now constructor].
Qed.

Lemma StronglySorted_suffix {A : Type} (R : A -> A -> Prop) (l1 l2 : list A) :
  StronglySorted R (l1 ++ l2) -> StronglySorted R l2.
Proof.
  induction l1 as [|x l1 IH]; simpl; [trivial |].
  intros H. apply StronglySorted_inv in H as [H _]. now apply IH.
Qed.

Lemma elem_of_visualClips (st : Editor) (c : Clip.t) :
  c ∈ visualClips st <-> c ∈ clips st /\ isVisual c = true.
Proof.
  unfold visualClips. rewrite sortByStart_perm, list_elem_of_In, filter_In.
  now rewrite <- list_elem_of_In.
Qed.

(** X2.  The clip shown in the preview is a video or image clip whose
    interval contains the current time, and among all such clips one with
    the earliest start; there is none exactly when no video or image clip
    contains the current time. *)
Theorem activeVisualClip_earliest (st : Editor) :
  (forall c, activeVisualClip st = Some c ->
     c ∈ clips st /\ isVisual c = true /\ clipActive (currentTime st) c /\
     forall d, d ∈ clips st -> isVisual d = true ->
               clipActive (currentTime st) d -> Clip.start c <= Clip.start d) /\
  (activeVisualClip st = None <->
   forall d, d ∈ clips st -> isVisual d = true -> ~ clipActive (currentTime st) d).
Proof.
  unfold activeVisualClip, clipActive. split.
  - intros c H. apply find_split in H as (before & after & E & Hc & Hb).
    assert (Hin : c ∈ visualClips st).
    { rewrite E. apply elem_of_app. right. left. }
    apply elem_of_visualClips in Hin as [Hin Hv].
    split; [exact Hin |]. split; [exact Hv |].
    split; [now apply inRange_true |].
    intros d Hd Hdv Hda.
    assert (Hd' : d ∈ visualClips st) by (now apply elem_of_visualClips).
    pose proof (sortByStart_sorted (List.filter isVisual (clips st))) as S.
    fold (visualClips st) in S. rewrite E in S, Hd'.
    apply elem_of_app in Hd' as [Hd' | Hd'].
    + rewrite Forall_forall in Hb.
      apply Hb in Hd'. apply inRange_true in Hda. congruence.
    + apply StronglySorted_suffix in S.
      apply elem_of_cons in Hd' as [-> | Hd']; [apply Qle_refl |].
      apply StronglySorted_inv in S as [_ S]. rewrite Forall_forall in S.
      now apply S.
  - split.
    + intros H d Hd Hv Ha.
      assert (Hd' : In d (visualClips st)).
      { apply list_elem_of_In. now apply elem_of_visualClips. }
      apply (find_none _ _ H) in Hd'. apply inRange_true in Ha. congruence.
    + intros H.
      destruct (List.find _ (visualClips st)) as [c |] eqn:F; [| reflexivity].
      exfalso. apply find_some in F as [Hin Hc].
      apply list_elem_of_In, elem_of_visualClips in Hin as [Hin Hv].
      apply inRange_true in Hc. exact (H c Hin Hv Hc).
Qed.

Lemma activeVisualClip_earliest_witness :
  let a := Clip.mk (js "a") (js "f") (js "a.mp4") video 2 4 0 4 1 false 1 (js "u") in
  let b := Clip.mk (js "b") (js "f") (js "b.png") image 1 3 0 3 1 false 1 (js "u") in
  let st := mkEditor (5 # 2) false [a; b] [] [] None None None ∅ ∅ in
  b ∈ clips st /\ isVisual b = true /\ clipActive (currentTime st) b /\
  forall d, d ∈ clips st -> isVisual d = true ->
            clipActive (currentTime st) d -> Clip.start b <= Clip.start d.
Proof.
  intros a b st.
  apply (proj1 (activeVisualClip_earliest st) b).
  vm_compute. reflexivity.
Defined.

Lemma insertOverlayByStart_perm (item : OverlayItem.t) (l : list OverlayItem.t) :
  insertOverlayByStart item l ≡ₚ item :: l.
Proof.
  induction l as [|d l IH]; simpl; [reflexivity |].
  destruct (js_lt (OverlayItem.start d - OverlayItem.start item) 0); [| reflexivity].
  rewrite IH. apply Permutation_swap.
Qed.

Lemma sortOverlaysByStart_perm (l : list OverlayItem.t) : sortOverlaysByStart l ≡ₚ l.
Proof.
  unfold sortOverlaysByStart. induction l as [|c l IH]; simpl; [reflexivity |].
  rewrite insertOverlayByStart_perm. now rewrite IH.
Qed.

Lemma insertOverlayByStart_sorted (c : OverlayItem.t) (l : list OverlayItem.t) :
  StronglySorted overlayByStart l ->
  StronglySorted overlayByStart (insertOverlayByStart c l).
Proof.
  induction l as [|d l IH]; intros H; simpl.
  - repeat constructor.
  - apply StronglySorted_inv in H as [Hl Hd].
    destruct (js_lt (OverlayItem.start d - OverlayItem.start c) 0) eqn:E.
    + apply js_lt_true in E. constructor; [now apply IH |].
      rewrite Forall_forall. intros x Hx.
      rewrite insertOverlayByStart_perm in Hx.
      apply elem_of_cons in Hx as [-> | Hx].
      * unfold overlayByStart. lra.
      * rewrite Forall_forall in Hd. now apply Hd.
    + apply not_true_iff_false in E. rewrite js_lt_true in E.
      assert (Hcd : OverlayItem.start c <= OverlayItem.start d) by lra.
      constructor; [now constructor |].
      constructor; [exact Hcd |].
      eapply Forall_impl; [exact Hd |].
      unfold overlayByStart. intros x Hx. simpl in *. lra.
Qed.

(** X3.  The overlays shown are exactly the overlays whose interval
    contains the current time, each as often as it is in the project, in
    ascending order of start. *)
Theorem activeOverlays_sorted (st : Editor) :
  StronglySorted overlayByStart (activeOverlays st) /\
  (forall item, item ∈ activeOverlays st <->
                item ∈ overlays st /\ overlayActive (currentTime st) item) /\
  activeOverlays st ≡ₚ
    List.filter
      (fun item => inRange (currentTime st) (OverlayItem.start item)
                     (OverlayItem.duration item))
      (overlays st).
Proof.
  unfold activeOverlays. split; [| split].
  - unfold sortOverlaysByStart.
    induction (List.filter _ (overlays st)) as [|c l IH]; simpl; [constructor |].
    now apply insertOverlayByStart_sorted.
  - intros item. rewrite sortOverlaysByStart_perm, list_elem_of_In, filter_In.
    rewrite <- list_elem_of_In, inRange_true. reflexivity.
  - apply sortOverlaysByStart_perm.
Qed.

(* ------------------------------------------------------------------ *)
(** ** Placement of imported clips *)

Lemma getTrackEnd_bound (kind : ClipKind) (st : Editor) (d : Clip.t) :
  d ∈ clips st -> sameTrack kind d -> endOfClip d <= getTrackEnd kind st.
Proof.
  intros Hin Hs. unfold getTrackEnd.
  set (p := fun clip : Clip.t =>
              if ClipKind_eqb kind audio then ClipKind_eqb (Clip.kind clip) audio
              else ClipKind_eqb (Clip.kind clip) video
                   || ClipKind_eqb (Clip.kind clip) image).
  change (fun clip => Clip.start clip + Clip.duration clip) with endOfClip.
  assert (Hp : p d = true).
  { unfold p, sameTrack in *. destruct kind, (Clip.kind d); simpl; congruence. }
  assert (He : endOfClip d ∈ endOfClip <$> List.filter p (clips st)).
  { apply list_elem_of_fmap_2, list_elem_of_In, filter_In.
    split; [now apply list_elem_of_In | exact Hp]. }
  destruct (max_or_zero_bounds (endOfClip <$> List.filter p (clips st))) as (Hub & _).
  now apply Hub.
Qed.

Lemma Math_max_of_snoc (first : Q) (rest : list Q) (x : Q) :
  Math_max_of first (rest ++ [x]) = Qmax (Math_max_of first rest) x.
Proof. unfold Math_max_of. now rewrite fold_left_app. Qed.

(** The end of a track after a clip that starts at its old end and has a
    duration that is not negative was appended. *)
Lemma getTrackEnd_appended (kind : ClipKind) (st : Editor) (c : Clip.t) :
  Clip.kind c = kind ->
  Clip.start c = getTrackEnd kind st ->
  0 <= Clip.duration c ->
  getTrackEnd kind (set_clips (clips st ++ [c]) st) == endOfClip c.
Proof.
  intros Hk Hs Hd. unfold getTrackEnd in *. simpl.
  set (p := fun clip : Clip.t =>
              if ClipKind_eqb kind audio then ClipKind_eqb (Clip.kind clip) audio
              else ClipKind_eqb (Clip.kind clip) video
                   || ClipKind_eqb (Clip.kind clip) image) in *.
  change (fun clip => Clip.start clip + Clip.duration clip) with endOfClip in *.
  assert (Hp : p c = true).
  { unfold p. rewrite Hk. destruct kind; reflexivity. }
  rewrite List.filter_app. simpl. rewrite Hp, fmap_app. simpl.
  destruct (endOfClip <$> List.filter p (clips st)) as [|e es]; simpl.
  - reflexivity.
  - rewrite Math_max_of_snoc. apply Q.max_r. unfold endOfClip.
    rewrite Hs. lra.
Qed.

(** The library after the push of the import loop, for a file of a given
    kind and measured duration. *)
Lemma importFile_push (uuid : nat -> jsstring) (url : jsstring)
    (lib lib' : Library) (file : MediaFile.t) (kind : ClipKind) (duration : Q) :
  mkLibrary
    (set_clips
       (clips (editor lib)
        ++ [Clip.mk (uuid (S (uuids lib))) (uuid (uuids lib))
              (MediaFile.name file) kind (getTrackEnd kind (editor lib))
              (Qmax MIN_CLIP_DURATION
                 (if Qeq_bool duration 0 then IMAGE_DEFAULT_DURATION else duration))
              0
              (Qmax MIN_CLIP_DURATION
                 (if Qeq_bool duration 0 then IMAGE_DEFAULT_DURATION else duration))
              1 false 1 url])
       (editor lib))
    (<[uuid (uuids lib) :=
         StoredFileRecord.mk (uuid (uuids lib)) (MediaFile.name file)
           (MediaFile.type file) (MediaFile.bytes file)]> (fileStore lib))
    (S (S (uuids lib))) = lib' ->
  exists c,
    clips (editor lib') = clips (editor lib) ++ [c] /\
    Clip.kind c = kind /\
    Clip.start c = getTrackEnd kind (editor lib) /\
    (forall d, d ∈ clips (editor lib) -> sameTrack kind d ->
               endOfClip d <= Clip.start c) /\
    Clip.sourceOffset c = 0 /\
    Clip.sourceDuration c = Clip.duration c /\
    clipInvariant c /\
    getTrackEnd kind (editor lib') == endOfClip c /\
    StoredFileRecord.blob <$> fileStore lib' !! Clip.fileId c
      = Some (MediaFile.bytes file).
Proof.
  intros <-. eexists. split; [reflexivity |]. simpl.
  assert (Hmin : MIN_CLIP_DURATION
                 <= Qmax MIN_CLIP_DURATION
                      (if Qeq_bool duration 0 then IMAGE_DEFAULT_DURATION
                       else duration)) by apply Q.le_max_l.
  split; [reflexivity |]. split; [reflexivity |].
  split; [intros d Hd Hs; now apply getTrackEnd_bound |].
  split; [reflexivity |]. split; [reflexivity |].
  split.
  { split; [exact Hmin |]. intros _. simpl. unfold MIN_CLIP_DURATION in *.
    split; lra. }
  split.
  { apply getTrackEnd_appended; [reflexivity | reflexivity |].
    cbn [Clip.duration]. eapply Qle_trans; [| exact Hmin]. discriminate. }
  now rewrite lookup_insert_eq.
Qed.

(** X4.  A file of a recognised kind whose duration can be read is
    imported as one clip appended to the clips.  The clip starts at the end
    of its track, so not before the end of any clip already on that track;
    it plays its whole source from offset 0 and lasts at least 0.2 s; the
    track then ends where the clip ends; and the bytes are in the file store
    under the clip's file id. *)
Theorem importFile_appends (uuid : nat -> jsstring)
    (createUrl : MediaFile.t -> jsstring) (probe : MediaFile.t -> option Q)
    (lib lib' : Library) (file : MediaFile.t) (kind : ClipKind) :
  kindOfFile file = Some kind ->
  importFile uuid createUrl probe lib file = (lib', None) ->
  exists c,
    clips (editor lib') = clips (editor lib) ++ [c] /\
    Clip.kind c = kind /\
    Clip.start c = getTrackEnd kind (editor lib) /\
    (forall d, d ∈ clips (editor lib) -> sameTrack kind d ->
               endOfClip d <= Clip.start c) /\
    Clip.sourceOffset c = 0 /\
    Clip.sourceDuration c = Clip.duration c /\
    clipInvariant c /\
    getTrackEnd kind (editor lib') == endOfClip c /\
    StoredFileRecord.blob <$> fileStore lib' !! Clip.fileId c
      = Some (MediaFile.bytes file).
Proof.
  intros Hk H. unfold importFile in H. rewrite Hk in H.
  destruct kind.
  - destruct (probe file) as [duration |]; [| discriminate H].
    injection H as H. exact (importFile_push _ _ _ _ _ _ duration H).
  - injection H as H. exact (importFile_push _ _ _ _ _ _ IMAGE_DEFAULT_DURATION H).
  - destruct (probe file) as [duration |]; [| discriminate H].
    injection H as H. exact (importFile_push _ _ _ _ _ _ duration H).
Qed.

(** A 10 s video imported into a project that already holds one. *)
Lemma importFile_appends_witness :
  let file := MediaFile.mk (js "b.mp4") (js "video/mp4") [1%N; 2%N] in
  let lib :=
    fst (importFile demoUuid demoUrl demoProbe emptyLibrary
           (MediaFile.mk (js "a.mp4") (js "video/mp4") [0%N])) in
  let lib' := fst (importFile demoUuid demoUrl demoProbe lib file) in
  exists c,
    clips (editor lib') = clips (editor lib) ++ [c] /\
    Clip.kind c = video /\
    Clip.start c = getTrackEnd video (editor lib) /\
    (forall d, d ∈ clips (editor lib) -> sameTrack video d ->
               endOfClip d <= Clip.start c) /\
    Clip.sourceOffset c = 0 /\
    Clip.sourceDuration c = Clip.duration c /\
    clipInvariant c /\
    getTrackEnd video (editor lib') == endOfClip c /\
    StoredFileRecord.blob <$> fileStore lib' !! Clip.fileId c
      = Some (MediaFile.bytes file).
Proof.
  intros file lib lib'.
  apply (importFile_appends demoUuid demoUrl demoProbe lib lib' file video).
  - reflexivity.
  - reflexivity.
Defined.

(** What one iteration of the import loop can do to the clips. *)
Lemma importFile_cases (uuid : nat -> jsstring)
    (createUrl : MediaFile.t -> jsstring) (probe : MediaFile.t -> option Q)
    (lib lib' : Library) (file : MediaFile.t) (r : option Thrown) :
  importFile uuid createUrl probe lib file = (lib', r) ->
  clips (editor lib') = clips (editor lib) \/
  exists c,
    clips (editor lib') = clips (editor lib) ++ [c] /\
    clipInvariant c /\
    forall d, d ∈ clips (editor lib) -> sameTrack (Clip.kind c) d ->
              endOfClip d <= Clip.start c.
Proof.
  intros H. destruct r as [e |].
  - left. unfold importFile in H.
    destruct (kindOfFile file) as [[| |] |]; try destruct (probe file);
      try discriminate H; now injection H as <- _.
  - destruct (kindOfFile file) as [kind |] eqn:K.
    + right. unfold importFile in H. rewrite K in H.
      assert (P : forall duration,
                mkLibrary
                  (set_clips
                     (clips (editor lib)
                      ++ [Clip.mk (uuid (S (uuids lib))) (uuid (uuids lib))
                            (MediaFile.name file) kind
                            (getTrackEnd kind (editor lib))
                            (Qmax MIN_CLIP_DURATION
                               (if Qeq_bool duration 0 then IMAGE_DEFAULT_DURATION
                                else duration))
                            0
                            (Qmax MIN_CLIP_DURATION
                               (if Qeq_bool duration 0 then IMAGE_DEFAULT_DURATION
                                else duration))
                            1 false 1 (createUrl file)])
                     (editor lib))
                  (<[uuid (uuids lib) :=
                       StoredFileRecord.mk (uuid (uuids lib)) (MediaFile.name file)
                         (MediaFile.type file) (MediaFile.bytes file)]>
                     (fileStore lib))
                  (S (S (uuids lib))) = lib' ->
                exists c,
                  clips (editor lib') = clips (editor lib) ++ [c] /\
                  clipInvariant c /\
                  forall d, d ∈ clips (editor lib) -> sameTrack (Clip.kind c) d ->
                            endOfClip d <= Clip.start c).
      { intros duration E.
        destruct (importFile_push _ _ _ _ _ _ duration E)
          as (c & Ec & Hk & _ & Hb & _ & _ & Hi & _).
        exists c. rewrite Hk. auto. }
      destruct kind.
      * destruct (probe file) as [duration |]; [| discriminate H].
        injection H as H. exact (P duration H).
      * injection H as H. exact (P IMAGE_DEFAULT_DURATION H).
      * destruct (probe file) as [duration |]; [| discriminate H].
        injection H as H. exact (P duration H).
    + left. unfold importFile in H. rewrite K in H. now injection H as <-.
Qed.

(** X5.  Whether the import loop runs to its end or stops at a file that
    cannot be read, the clips it leaves are the old clips followed by the
    imported ones; every imported clip is within its bounds, and starts no
    earlier than the end of any clip of its track that is before it in the
    list: files of one batch are laid end to end, never on top of each
    other or of what was there. *)
Theorem importFiles_sequential (uuid : nat -> jsstring)
    (createUrl : MediaFile.t -> jsstring) (probe : MediaFile.t -> option Q)
    (files : list MediaFile.t) (lib lib' : Library) (r : option Thrown) :
  importFiles uuid createUrl probe files lib = (lib', r) ->
  exists added,
    clips (editor lib') = clips (editor lib) ++ added /\
    Forall clipInvariant added /\
    forall pre c post, added = pre ++ c :: post ->
      forall d, d ∈ clips (editor lib) ++ pre -> sameTrack (Clip.kind c) d ->
                endOfClip d <= Clip.start c.
Proof.
  revert lib. induction files as [|file files IH]; intros lib H; simpl in H.
  - injection H as <- _. exists []. rewrite app_nil_r.
    split; [reflexivity |]. split; [constructor |].
    intros pre c post E. now destruct pre.
  - destruct (importFile uuid createUrl probe lib file) as [lib1 r1] eqn:F.
    pose proof (importFile_cases _ _ _ _ _ _ _ F) as C.
    assert (T : exists added,
              clips (editor lib') = clips (editor lib1) ++ added /\
              Forall clipInvariant added /\
              forall pre c post, added = pre ++ c :: post ->
                forall d, d ∈ clips (editor lib1) ++ pre ->
                          sameTrack (Clip.kind c) d -> endOfClip d <= Clip.start c).
    { destruct r1 as [e |].
      - injection H as <- _. exists []. rewrite app_nil_r.
        split; [reflexivity |]. split; [constructor |].
        intros pre c post E. now destruct pre.
      - now apply IH. }
    destruct T as (added & E & Hinv & Hseq).
    destruct C as [C | (c & C & Hc & Hb)].
    + exists added. rewrite <- C. auto.
    + exists (c :: added). rewrite E, C, <- app_assoc.
      split; [reflexivity |]. split; [now constructor |].
      intros pre x post Ex d Hd Hs. destruct pre as [|p pre].
      * injection Ex as <- _. rewrite app_nil_r in Hd. now apply Hb.
      * injection Ex as <- ->. apply (Hseq pre x post eq_refl); [| exact Hs].
        rewrite C, <- app_assoc. exact Hd.
Qed.

(** Two videos and a text file picked at once. *)
Lemma importFiles_sequential_witness :
  let files :=
    [MediaFile.mk (js "a.mp4") (js "video/mp4") [0%N];
     MediaFile.mk (js "notes.txt") (js "text/plain") [1%N];
     MediaFile.mk (js "b.mp4") (js "video/mp4") [2%N]] in
  let lib' := fst (importFiles demoUuid demoUrl demoProbe files emptyLibrary) in
  exists added,
    clips (editor lib') = clips (editor emptyLibrary) ++ added /\
    Forall clipInvariant added /\
    forall pre c post, added = pre ++ c :: post ->
      forall d, d ∈ clips (editor emptyLibrary) ++ pre ->
                sameTrack (Clip.kind c) d -> endOfClip d <= Clip.start c.
Proof.
  intros files lib'.
  apply (importFiles_sequential demoUuid demoUrl demoProbe files emptyLibrary lib' None).
  reflexivity.
Defined.

(** A 10 s video imported into an empty project is placed at 0 and plays
    its whole source; a second one is placed at 10. *)
Example importFiles_two_videos :
  let files :=
    [MediaFile.mk (js "a.mp4") (js "video/mp4") [0%N];
     MediaFile.mk (js "b.mp4") (js "video/mp4") [2%N]] in
  (fun c => (Clip.kind c, Clip.start c, Clip.duration c, Clip.sourceOffset c,
             Clip.sourceDuration c))
    <$> clips (editor (fst (importFiles demoUuid demoUrl demoProbe files emptyLibrary)))
  = [(video, 0, Qmax MIN_CLIP_DURATION 10, 0, Qmax MIN_CLIP_DURATION 10);
     (video, Qmax MIN_CLIP_DURATION 10, Qmax MIN_CLIP_DURATION 10, 0,
      Qmax MIN_CLIP_DURATION 10)].
Proof. vm_compute. reflexivity. Qed.

(* ------------------------------------------------------------------ *)
(** ** Seeking and the playback clock *)

Lemma projectDuration_sync (forceSeek : bool) (st : Editor) :
  projectDuration (syncPreviewMedia forceSeek st) = projectDuration st.
Proof. reflexivity. Qed.


Lemma demoEditor_ids : NoDup (Clip.id <$> clips demoEditor).
Proof.
  apply NoDup_cons. split; [| apply NoDup_singleton].
  intros H. apply list_elem_of_singleton in H. discriminate H.
Qed.

Lemma demoEditor_playable : Forall playable (clips demoEditor).
Proof. all_playable. Qed.


Lemma stopPlayback_page (p : Player) :
  isPlaying (page (stopPlayback p)) = false /\
  currentTime (page (stopPlayback p)) = currentTime (page p) /\
  clips (page (stopPlayback p)) = clips (page p).
Proof. repeat split. Qed.

(** X7.  One frame of a playing clock whose time is within the project
    and whose time stamps do not run backwards.  The first frame after a
    start only records its time stamp; a later frame advances the clock by
    the seconds elapsed since the frame before, up to the project duration.
    The clock never runs backwards nor past the duration; when it reaches
    the duration playback stops and no further frame is requested.
    Otherwise the next frame is requested exactly when the pass of the
    synchronizer returns, which it does when no clip has an output volume
    above 1; when the pass throws, no frame is requested although the page
    still says playing. *)
Theorem stepPlayback_clock (timestamp : Q) (p : Player) :
  isPlaying (page p) = true ->
  currentTime (page p) <= projectDuration (page p) ->
  playbackLastTimestamp p <= timestamp ->
  let p' := stepPlayback timestamp p in
  let elapsed :=
    if Qeq_bool (playbackLastTimestamp p) 0 then 0
    else (timestamp - playbackLastTimestamp p) / 1000 in
  currentTime (page p')
    == Qmin (projectDuration (page p)) (currentTime (page p) + elapsed) /\
  currentTime (page p) <= currentTime (page p') /\
  currentTime (page p') <= projectDuration (page p') /\
  (projectDuration (page p) <= currentTime (page p) + elapsed ->
   isPlaying (page p') = false /\ playbackRaf p' = false /\
   playbackLastTimestamp p' = 0) /\
  (currentTime (page p) + elapsed < projectDuration (page p) ->
   isPlaying (page p') = true /\
   playbackLastTimestamp p' = timestamp /\
   playbackRaf p'
   = negb (syncPreviewMedia_throws false
             (set_currentTime (currentTime (page p')) (page p))) /\
   (Forall playable (clips (page p)) -> playbackRaf p' = true)).
Proof.
  intros Hplay Hcur Hts p' elapsed.
  set (delta := (timestamp
                 - (if Qeq_bool (playbackLastTimestamp p) 0 then timestamp
                    else playbackLastTimestamp p)) / 1000).
  assert (Hd : delta == elapsed).
  { unfold delta, elapsed. destruct (Qeq_bool (playbackLastTimestamp p) 0).
    - field.
    - reflexivity. }
  assert (He : 0 <= elapsed).
  { unfold elapsed. destruct (Qeq_bool (playbackLastTimestamp p) 0).
    - apply Qle_refl.
    - apply Qle_shift_div_l; [reflexivity | lra]. }
  set (t := Qmin (projectDuration (page p)) (currentTime (page p) + delta)).
  assert (Ht : t == Qmin (projectDuration (page p)) (currentTime (page p) + elapsed)).
  { unfold t. now rewrite Hd. }
  assert (Hcases :
            (js_ge t (projectDuration (page p)) = true /\
             p' = stopPlayback
                    (mkPlayer (set_currentTime t (page p)) timestamp (playbackRaf p)))
            \/ (js_ge t (projectDuration (page p)) = false /\
                p' = mkPlayer (syncPreviewMedia false (set_currentTime t (page p)))
                       timestamp
                       (negb (syncPreviewMedia_throws false
                                (set_currentTime t (page p)))))).
  { unfold p', stepPlayback. rewrite Hplay. cbn [negb]. fold delta. fold t.
    change (currentTime (set_currentTime t (page p))) with t.
    change (projectDuration (set_currentTime t (page p)))
      with (projectDuration (page p)).
    destruct (js_ge t (projectDuration (page p))); [left | right]; now split. }
  assert (Hcur' : currentTime (page p') = t).
  { destruct Hcases as [[_ ->] | [_ ->]]; reflexivity. }
  assert (Hdur' : projectDuration (page p') = projectDuration (page p)).
  { destruct Hcases as [[_ ->] | [_ ->]]; reflexivity. }
  rewrite Hcur', Hdur'.
  split; [exact Ht |].
  split; [rewrite Ht; minmax_cases; lra |].
  split; [rewrite Ht; apply Q.le_min_l |].
  split.
  - intros Hend. destruct Hcases as [[_ ->] | [Hge _]]; [repeat split |].
    exfalso. apply not_true_iff_false in Hge. apply Hge. apply js_ge_true.
    rewrite Ht. rewrite Q.min_l by exact Hend. apply Qle_refl.
  - intros Hlt. destruct Hcases as [[Hge _] | [_ ->]].
    + exfalso. apply js_ge_true in Hge. rewrite Ht in Hge.
      rewrite Q.min_r in Hge by lra. lra.
    + split; [exact Hplay |]. split; [reflexivity |]. split; [reflexivity |].
      intros Hp. cbn [playbackRaf].
      now rewrite (proj2 (proj2 (syncPreviewMedia_completes false
                                   (set_currentTime t (page p)) Hp))).
Qed.

Lemma stepPlayback_clock_witness :
  let p := mkPlayer (set_isPlaying true demoEditor) 1000 true in
  let p' := stepPlayback 1500 p in
  currentTime (page p') == 7 # 2 /\
  isPlaying (page p') = true /\ playbackRaf p' = true /\
  playbackLastTimestamp p' = 1500.
Proof.
  intros p p'.
  destruct (stepPlayback_clock 1500 p) as (Ht & _ & _ & _ & Hrun).
  - reflexivity.
  - eval_Q.
  - eval_Q.
  - split.
    + eapply Qeq_trans; [exact Ht | eval_Q].
    + destruct Hrun as (H1 & H2 & _ & H4); [eval_Q |].
      split; [exact H1 |]. split; [apply H4, demoEditor_playable | exact H2].
Defined.



(* ------------------------------------------------------------------ *)
(** ** Removing clips *)

Lemma max_or_zero_subset (l l' : list Q) :
  (forall e, e ∈ l' -> e ∈ l) ->
  Forall (fun e => 0 <= e) l ->
  match l' with [] => 0 | e :: es => Math_max_of e es end
  <= match l with [] => 0 | e :: es => Math_max_of e es end.
Proof.
  intros Hsub Hpos.
  destruct (max_or_zero_bounds l) as (Hub & H0 & Hat).
  destruct (max_or_zero_bounds l') as (_ & H0' & Hat').
  cbv zeta in *.
  destruct l' as [|e' es'].
  - destruct l as [|e es]; [apply Qle_refl |].
    destruct Hat as (x & Hx & ->); [discriminate |].
    rewrite Forall_forall in Hpos. now apply Hpos.
  - destruct Hat' as (x & Hx & ->); [discriminate |].
    apply Hub, Hsub, Hx.
Qed.

(** X9.  Removing a clip, among clips with distinct ids, leaves exactly
    the clips with another id, in the order they had; the removed id is no
    longer selected; and the project never gets longer. *)
Theorem removeClip_removes (clipId : jsstring) (st : Editor) :
  NoDup (Clip.id <$> clips st) ->
  let st' := removeClip clipId st in
  (forall d, d ∈ clips st' <-> d ∈ clips st /\ Clip.id d <> clipId) /\
  sublist (clips st') (clips st) /\
  selectedClipId st' <> Some clipId /\
  (Forall (fun e => 0 <= e) (allEnds st) ->
   projectDuration st' <= projectDuration st).
Proof.
  intros Hnd st'.
  set (st1 := if decide (selectedClipId st = Some clipId)
              then set_selectedClipId None st else st).
  assert (Hc1 : clips st1 = clips st) by (unfold st1; now destruct (decide _)).
  assert (Hs1 : selectedClipId st1 <> Some clipId).
  { unfold st1. destruct (decide _); [discriminate | assumption]. }
  assert (Ho1 : overlays st1 = overlays st) by (unfold st1; now destruct (decide _)).
  assert (Hclips :
            (exists i c, findClip clipId (clips st) = Some (i, c) /\
                         clips st' = delete i (clips st)) \/
            (findClip clipId (clips st) = None /\ clips st' = clips st)).
  { unfold st', removeClip. fold st1. rewrite Hc1.
    destruct (findClip clipId (clips st)) as [[i c] |]; [left | right]; eauto. }
  assert (Hsel : selectedClipId st' = selectedClipId st1).
  { unfold st', removeClip. fold st1.
    now destruct (findClip clipId (clips st1)) as [[i c] |]. }
  assert (Hov : overlays st' = overlays st).
  { unfold st', removeClip. fold st1. rewrite <- Ho1.
    now destruct (findClip clipId (clips st1)) as [[i c] |]. }
  assert (Hmem : forall d, d ∈ clips st' <-> d ∈ clips st /\ Clip.id d <> clipId).
  { intros d. destruct Hclips as [(i & c & F & ->) | (F & ->)].
    - apply findClip_Some in F as [Fi Fid].
      rewrite <- (take_drop_middle _ _ _ Fi) in Hnd |- * at 2.
      rewrite delete_take_drop.
      rewrite fmap_app, fmap_cons in Hnd.
      apply NoDup_app in Hnd as (_ & Hd1 & Hnd).
      apply NoDup_cons in Hnd as [Hd2 _].
      rewrite !elem_of_app, elem_of_cons. split.
      + intros [H | H].
        * split; [now left |]. intros E. apply (Hd1 (Clip.id d)).
          -- now apply list_elem_of_fmap_2.
          -- rewrite E, <- Fid. left.
        * split; [now right; right |]. intros E. apply Hd2.
          rewrite Fid, <- E. now apply list_elem_of_fmap_2.
      + intros [[H | [-> | H]] Hne]; [now left | contradiction | now right].
    - split; [| tauto]. intros H. split; [exact H |].
      unfold findClip in F. apply list_find_None in F.
      rewrite Forall_forall in F. now apply F. }
  split; [exact Hmem |]. split; [| split].
  - destruct Hclips as [(i & c & F & ->) | (F & ->)];
      [apply sublist_delete | reflexivity].
  - now rewrite Hsel.
  - intros Hpos. unfold projectDuration. rewrite Hov.
    apply Forall_app in Hpos as [Pc _].
    apply Q.max_le_compat_r.
    change (fun clip => Clip.start clip + Clip.duration clip) with endOfClip.
    apply max_or_zero_subset; [| exact Pc].
    intros e He. apply list_elem_of_fmap in He as (d & -> & Hd).
    apply Hmem in Hd as [Hd _]. now apply list_elem_of_fmap_2.
Qed.

Lemma removeClip_removes_witness :
  let st' := removeClip (js "v1") demoEditor in
  (forall d, d ∈ clips st' <-> d ∈ clips demoEditor /\ Clip.id d <> js "v1") /\
  sublist (clips st') (clips demoEditor) /\
  selectedClipId st' <> Some (js "v1") /\
  (Forall (fun e => 0 <= e) (allEnds demoEditor) ->
   projectDuration st' <= projectDuration demoEditor).
Proof.
  apply (removeClip_removes (js "v1") demoEditor). exact demoEditor_ids.
Defined.

(* ------------------------------------------------------------------ *)
(** ** Mute and volume *)

Lemma getOutputVolume_video (c : Clip.t) :
  Clip.kind c = video ->
  getOutputVolume c = if Clip.muted c then 0 else Clip.volume c.
Proof. intros H. unfold getOutputVolume. now rewrite H. Qed.

(** X10.  The mute button on the selected video flips its mute flag.  A
    muted video has output volume 0; a video that was just unmuted is
    audible, at its own volume if that is positive and at no less than 0.1
    otherwise; and muting then unmuting a video of positive volume gives
    back the volume it had.  With distinct clip ids, and when after the
    toggle no clip has an output volume above 1 (a media element accepts
    volumes from 0 to 1 only), the registered media element gets the new
    output volume at once. *)
Theorem toggleSelectedVideoMute_volume (st : Editor) (i : nat) (c : Clip.t)
    (element : Media.t) :
  NoDup (Clip.id <$> clips st) ->
  selectedClip st = Some (i, c) ->
  Clip.kind c = video ->
  visualVideoRefs st !! Clip.id c = Some element ->
  let st' := toggleSelectedVideoMute st in
  clips st' = <[i := toggleMute c]> (clips st) /\
  Clip.muted (toggleMute c) = negb (Clip.muted c) /\
  (Clip.muted c = false -> getOutputVolume (toggleMute c) = 0) /\
  (Clip.muted c = true ->
   0 < getOutputVolume (toggleMute c) /\
   (0 < Clip.volume c -> getOutputVolume (toggleMute c) = Clip.volume c) /\
   (Clip.volume c <= 0 -> (1 # 10) <= getOutputVolume (toggleMute c))) /\
  (Clip.muted c = false -> 0 < Clip.volume c ->
   Clip.volume (toggleMute (toggleMute c)) = Clip.volume c /\
   Clip.muted (toggleMute (toggleMute c)) = false) /\
  (Forall playable (clips st') ->
   exists element',
     visualVideoRefs st' !! Clip.id c = Some element' /\
     Media.volume element' = getOutputVolume (toggleMute c)).
Proof.
  intros Hnd Hsel Hk He st'.
  assert (Hi : clips st !! i = Some c).
  { unfold selectedClip in Hsel.
    destruct (selectedClipId st) as [[|ch s] |]; try discriminate.
    now apply findClip_Some in Hsel. }
  assert (Hst' : st' = syncPreviewMedia true
                         (set_clips (<[i := toggleMute c]> (clips st)) st)).
  { unfold st', toggleSelectedVideoMute. rewrite Hsel, Hk. reflexivity. }
  assert (Hkind : Clip.kind (toggleMute c) = video).
  { unfold toggleMute.
    destruct (Clip.muted c); simpl;
      [destruct (js_le (Clip.volume c) 0) | destruct (js_gt (Clip.volume c) 0)];
      exact Hk. }
  assert (Hid : Clip.id (toggleMute c) = Clip.id c).
  { unfold toggleMute.
    destruct (Clip.muted c); simpl;
      [destruct (js_le (Clip.volume c) 0) | destruct (js_gt (Clip.volume c) 0)];
      reflexivity. }
  split; [now rewrite Hst' |].
  split.
  { unfold toggleMute.
    destruct (Clip.muted c); simpl;
      [destruct (js_le (Clip.volume c) 0) | destruct (js_gt (Clip.volume c) 0)];
      reflexivity. }
  split.
  { intros Hm. rewrite (getOutputVolume_video _ Hkind). unfold toggleMute.
    rewrite Hm. now destruct (js_gt (Clip.volume c) 0). }
  split.
  { intros Hm. rewrite (getOutputVolume_video _ Hkind). unfold toggleMute.
    rewrite Hm. simpl.
    destruct (js_le (Clip.volume c) 0) eqn:L; simpl.
    - apply js_le_true in L. repeat split.
      + minmax_cases; lra.
      + intros Hp. lra.
      + intros _. apply Q.le_max_l.
    - apply not_true_iff_false in L. rewrite js_le_true in L.
      apply Qnot_le_lt in L. repeat split; [exact L | intros Hn; lra]. }
  split.
  { intros Hm Hp. unfold toggleMute at 2 4. rewrite Hm.
    apply js_gt_true in Hp. rewrite Hp.
    unfold toggleMute. simpl.
    apply js_gt_true in Hp.
    assert (L : js_le (Clip.volume c) 0 = false).
    { apply not_true_iff_false. rewrite js_le_true. lra. }
    rewrite L. split; reflexivity. }
  rewrite Hst'.
  set (st1 := set_clips (<[i := toggleMute c]> (clips st)) st).
  intros Hpl. change (clips (syncPreviewMedia true st1)) with (clips st1) in Hpl.
  assert (Hnd1 : NoDup (Clip.id <$> clips st1)).
  { simpl. rewrite list_fmap_insert, Hid. rewrite list_insert_id; [exact Hnd |].
    now rewrite list_lookup_fmap, Hi. }
  assert (Hin1 : toggleMute c ∈ clips st1).
  { simpl. eapply list_elem_of_lookup_2. apply list_lookup_insert_eq.
    now apply lookup_lt_Some in Hi. }
  assert (Hk1 : Clip.kind (toggleMute c) <> image) by (rewrite Hkind; discriminate).
  assert (Hpc : playable (toggleMute c)).
  { rewrite Forall_forall in Hpl. now apply Hpl. }
  pose proof (syncPreviewMedia_element true st1 (toggleMute c) Hnd1 Hpl Hin1 Hk1)
    as S.
  unfold refsFor in S. rewrite Hkind, Hid in S.
  change (visualVideoRefs st1) with (visualVideoRefs st) in S.
  rewrite He in S. cbn [fmap option_fmap option_map] in S.
  eexists. split; [exact S |].
  rewrite (proj2 (synced_accepts true (isPlaying st1) (currentTime st1)
                    (toggleMute c) element Hk1 Hpc)).
  cbv zeta.
  destruct (inRange _ _ _); cbn [orb]; destruct (isPlaying st1); reflexivity.
Qed.

Lemma toggleSelectedVideoMute_volume_witness :
  let st := set_selectedClipId (Some (js "v1")) demoEditor in
  let st' := toggleSelectedVideoMute st in
  getOutputVolume (toggleMute demoVideo) = 0 /\
  exists element',
    visualVideoRefs st' !! Clip.id demoVideo = Some element' /\
    Media.volume element' = getOutputVolume (toggleMute demoVideo).
Proof.
  intros st st'.
  destruct (toggleSelectedVideoMute_volume st 0%nat demoVideo (Media.mk 0 1 true []))
    as (_ & _ & Hmute & _ & _ & He).
  - exact demoEditor_ids.
  - reflexivity.
  - reflexivity.
  - reflexivity.
  - split; [now apply Hmute | apply He; all_playable].
Defined.

(** X11.  The volume field of the inspector keeps the volume between 0 and
    2; the clip's output volume is then that volume, for a video too, whose
    mute flag is set exactly when the volume is 0; and a positive volume is
    remembered as the one to come back to after a mute. *)
Theorem applyClipField_volume (parsed : Q) (c : Clip.t) :
  let c' := applyClipField field_volume parsed c in
  Clip.volume c' = Qmax 0 (Qmin 2 parsed) /\
  0 <= Clip.volume c' /\ Clip.volume c' <= 2 /\
  getOutputVolume c' == Clip.volume c' /\
  (Clip.kind c = video ->
   (Clip.muted c' = true <-> Clip.volume c' == 0) /\
   (0 < Clip.volume c' -> Clip.previousVolume c' = Clip.volume c')).
Proof.
  intros c'. unfold c', applyClipField.
  set (v := Qmax 0 (Qmin 2 parsed)).
  assert (Hv : 0 <= v /\ v <= 2) by (unfold v; split; minmax_cases; lra).
  cbn [Clip.kind Clip.volume Clip.set_volume].
  destruct (ClipKind_eqb (Clip.kind c) video) eqn:K.
  - apply ClipKind_eqb_eq in K.
    cbn [Clip.volume Clip.set_muted Clip.set_volume].
    destruct (js_gt v 0) eqn:G; unfold getOutputVolume; simpl; rewrite K; simpl.
    + apply js_gt_true in G.
      assert (Z : Qeq_bool v 0 = false).
      { apply not_true_iff_false. rewrite Qeq_bool_iff. lra. }
      rewrite Z. repeat split; try tauto; try reflexivity; try discriminate.
      intros E. lra.
    + apply js_gt_false in G.
      assert (Z : Qeq_bool v 0 = true) by (apply Qeq_bool_iff; lra).
      rewrite Z. apply Qeq_bool_iff in Z.
      repeat split; try tauto; try reflexivity.
      * now symmetry.
      * intros Hp. lra.
  - apply ClipKind_eqb_neq in K. unfold getOutputVolume. simpl.
    assert (K' : ClipKind_eqb (Clip.kind c) video = false) by (now apply ClipKind_eqb_neq).
    rewrite K'. simpl. repeat split; try tauto; try reflexivity; contradiction.
Qed.

Lemma applyClipField_volume_witness :
  let c' := applyClipField field_volume (-1) demoVideo in
  Clip.muted c' = true <-> Clip.volume c' == 0.
Proof.
  apply (applyClipField_volume (-1) demoVideo). reflexivity.
Defined.

(* ------------------------------------------------------------------ *)
(** ** Overlays *)

Lemma applyOverlayField_invariant (field : OverlayField) (value : FieldValue)
    (o : OverlayItem.t) :
  overlayInvariant o -> overlayInvariant (applyOverlayField field value o).
Proof.
  unfold overlayInvariant. destruct o as [id kind text start duration x y size color bg].
  simpl. intros H.
  destruct field; simpl; try exact H;
    destruct (asNumber value) as [parsed |]; simpl; try exact H;
    repeat split; try tauto; minmax_cases; lra.
Qed.

(** X12.  When the clock is not negative, adding a title or a sticker and
    every inspector edit of the selected overlay keep all overlays within
    their bounds: start at least 0, duration at least 0.2 s, position
    between 0 and 100 percent, size between 16 and 120.  An edit sets the
    field it names within its bounds whatever the overlay was before. *)
Theorem overlay_bounds_kept (id : jsstring) (field : OverlayField)
    (value : FieldValue) (st : Editor) :
  0 <= currentTime st ->
  Forall overlayInvariant (overlays st) ->
  Forall overlayInvariant (overlays (addTitle id st)) /\
  Forall overlayInvariant (overlays (addSticker id st)) /\
  Forall overlayInvariant (overlays (updateSelectedOverlayField field value st)) /\
  forall (o : OverlayItem.t) (parsed : Q),
    asNumber value = Finite parsed ->
    let o' := applyOverlayField field value o in
    (field = overlay_start -> 0 <= OverlayItem.start o') /\
    (field = overlay_duration -> (2 # 10) <= OverlayItem.duration o') /\
    (field = overlay_x -> 0 <= OverlayItem.x o' /\ OverlayItem.x o' <= 100) /\
    (field = overlay_y -> 0 <= OverlayItem.y o' /\ OverlayItem.y o' <= 100) /\
    (field = overlay_size -> 16 <= OverlayItem.size o' /\ OverlayItem.size o' <= 120).
Proof.
  intros Ht H. split; [| split; [| split]].
  - simpl. apply Forall_app. split; [exact H |].
    repeat constructor; simpl; try exact Ht; eval_Q.
  - simpl. apply Forall_app. split; [exact H |].
    repeat constructor; simpl; try exact Ht; eval_Q.
  - unfold updateSelectedOverlayField.
    destruct (selectedOverlay st) as [[i o] |] eqn:S; [| exact H].
    simpl. apply Forall_insert; [exact H |].
    apply applyOverlayField_invariant.
    unfold selectedOverlay in S.
    destruct (selectedOverlayId st) as [[|ch s] |]; try discriminate.
    apply list_find_Some in S as (S & _).
    rewrite Forall_forall in H. apply H. eapply list_elem_of_lookup_2, S.
  - intros o parsed Hp.
    destruct o as [oid kind text start duration x y size color bg].
    cbv zeta. split; [| split; [| split; [| split]]]; intros ->; simpl;
      rewrite Hp; simpl.
    + apply Q.le_max_l.
    + apply Q.le_max_l.
    + split; minmax_cases; lra.
    + split; minmax_cases; lra.
    + split; minmax_cases; lra.
Qed.

Lemma overlay_bounds_kept_witness :
  let st := addTitle (js "t1") demoEditor in
  Forall overlayInvariant
    (overlays (updateSelectedOverlayField overlay_size
                 (mkFieldValue (js "500") (Finite 500)) st)).
Proof.
  intros st.
  apply (overlay_bounds_kept (js "t2") overlay_size
           (mkFieldValue (js "500") (Finite 500)) st).
  - eval_Q.
  - repeat constructor; simpl; eval_Q.
Defined.

(* ------------------------------------------------------------------ *)
(** ** Move, trim-right and image trim-left gestures *)

Lemma onGrid_steps (k : Z) : onGrid (inject_Z k / 20).
Proof.
  unfold onGrid.
  assert (E : inject_Z k / 20 == 0 + inject_Z k / 20) by ring.
  rewrite E at 1. rewrite toStepTime_add_steps, toStepTime_0. ring.
Qed.

Lemma onGrid_toStepTime (x : Q) : onGrid (toStepTime x).
Proof.
  unfold onGrid. destruct (toStepTime_steps x) as [k E].
  rewrite E. apply onGrid_steps.
Qed.

Lemma onGrid_max0 (x : Q) : onGrid x -> onGrid (Qmax 0 x).
Proof.
  unfold onGrid. intros H.
  destruct (Q.max_spec 0 x) as [[_ E] | [_ E]]; rewrite E.
  - exact H.
  - apply toStepTime_0.
Qed.

(** The clips after a gesture: only the dragged clip can differ. *)
Lemma dragGesture_others (mode : DragMode) (c : Clip.t) (down last : PointerEvent.t)
    (moves : list PointerEvent.t) (st : Editor) (i j : nat) :
  findClip (Clip.id c) (clips st) = Some (i, c) ->
  PointerEvent.button down = 0%Z ->
  j <> i ->
  clips (dragGesture mode c down (moves ++ [last]) st) !! j = clips st !! j.
Proof.
  intros Hf Hb Hj. rewrite (dragGesture_clips mode c down last moves st i Hf Hb).
  now apply list_lookup_insert_ne.
Qed.

Lemma dragGesture_dragged (mode : DragMode) (c : Clip.t) (down last : PointerEvent.t)
    (moves : list PointerEvent.t) (st : Editor) (i : nat) :
  findClip (Clip.id c) (clips st) = Some (i, c) ->
  PointerEvent.button down = 0%Z ->
  clips (dragGesture mode c down (moves ++ [last]) st) !! i
  = Some (dragClip (dragStateOf mode c down) (dragDelta down last) c).
Proof.
  intros Hf Hb. rewrite (dragGesture_clips mode c down last moves st i Hf Hb).
  apply list_lookup_insert_eq. apply findClip_Some in Hf as [Hf _].
  now apply lookup_lt_Some in Hf.
Qed.

(** X13.  A move gesture changes nothing but the start of the dragged
    clip.  The new start is on the 1/20 s grid, is not negative, and, unless
    it was held at 0, lies within 1/40 s of the old start plus the drag
    distance.  Every other clip is as it was. *)
Theorem move_gesture (st : Editor) (c : Clip.t) (i : nat)
    (down last : PointerEvent.t) (moves : list PointerEvent.t) :
  findClip (Clip.id c) (clips st) = Some (i, c) ->
  PointerEvent.button down = 0%Z ->
  let st' := dragGesture move c down (moves ++ [last]) st in
  exists start',
    clips st' !! i = Some (Clip.set_start start' c) /\
    0 <= start' /\ onGrid start' /\
    (0 <= toStepTime (Clip.start c + dragDelta down last) ->
     Clip.start c + dragDelta down last - (1 # 40) < start' /\
     start' <= Clip.start c + dragDelta down last + (1 # 40)) /\
    forall j, j <> i -> clips st' !! j = clips st !! j.
Proof.
  intros Hf Hb st'.
  exists (Qmax 0 (toStepTime (Clip.start c + dragDelta down last))).
  split; [exact (dragGesture_dragged move c down last moves st i Hf Hb) |].
  split; [apply Q.le_max_l |].
  split; [apply onGrid_max0, onGrid_toStepTime |].
  split.
  - intros H0. rewrite Q.max_r by exact H0. apply toStepTime_near.
  - intros j Hj. now apply (dragGesture_others _ _ _ _ _ _ i).
Qed.

Lemma move_gesture_witness :
  let st' := dragGesture move demoAudio (PointerEvent.mk 10 0)
               ([PointerEvent.mk 500 0] ++ [PointerEvent.mk 100 0]) demoEditor in
  exists start',
    clips st' !! 1%nat = Some (Clip.set_start start' demoAudio) /\
    0 <= start' /\ onGrid start' /\
    (0 <= toStepTime (Clip.start demoAudio
                      + dragDelta (PointerEvent.mk 10 0) (PointerEvent.mk 100 0)) ->
     Clip.start demoAudio + dragDelta (PointerEvent.mk 10 0) (PointerEvent.mk 100 0)
       - (1 # 40) < start' /\
     start' <= Clip.start demoAudio
               + dragDelta (PointerEvent.mk 10 0) (PointerEvent.mk 100 0) + (1 # 40)) /\
    forall j, j <> 1%nat -> clips st' !! j = clips demoEditor !! j.
Proof.
  apply (move_gesture demoEditor demoAudio 1%nat (PointerEvent.mk 10 0)
           (PointerEvent.mk 100 0) [PointerEvent.mk 500 0]).
  - reflexivity.
  - reflexivity.
Defined.

(** X14.  A trim-right gesture changes nothing but the duration of the
    dragged clip.  The new duration is at least 0.2 s; an image lasts at
    most 120 s; and a video or audio clip whose offset leaves at least
    0.2 s of source never plays past the end of its source. *)
Theorem trim_right_gesture (st : Editor) (c : Clip.t) (i : nat)
    (down last : PointerEvent.t) (moves : list PointerEvent.t) :
  findClip (Clip.id c) (clips st) = Some (i, c) ->
  PointerEvent.button down = 0%Z ->
  let st' := dragGesture trim_right c down (moves ++ [last]) st in
  exists duration',
    clips st' !! i = Some (Clip.set_duration duration' c) /\
    MIN_CLIP_DURATION <= duration' /\
    (Clip.kind c = image -> duration' <= 120) /\
    (Clip.kind c <> image ->
     Clip.sourceOffset c <= Clip.sourceDuration c - MIN_CLIP_DURATION ->
     Clip.sourceOffset c + duration' <= Clip.sourceDuration c) /\
    forall j, j <> i -> clips st' !! j = clips st !! j.
Proof.
  intros Hf Hb st'.
  pose proof (dragGesture_dragged trim_right c down last moves st i Hf Hb) as H.
  unfold dragClip in H. cbn [dragStateOf DragState.mode] in H.
  eexists. split; [exact H |].
  cbn [dragStateOf DragState.initialDuration].
  unfold MIN_CLIP_DURATION.
  split; [| split; [| split]].
  - destruct (ClipKind_eqb (Clip.kind c) image); minmax_cases; lra.
  - intros K. apply ClipKind_eqb_eq in K. rewrite K. apply Q.le_min_l.
  - intros K Ho. apply ClipKind_eqb_neq in K. rewrite K.
    minmax_cases; lra.
  - intros j Hj. now apply (dragGesture_others _ _ _ _ _ _ i).
Qed.

Lemma trim_right_gesture_witness :
  let st' := dragGesture trim_right demoVideo (PointerEvent.mk 10 0)
               ([] ++ [PointerEvent.mk 900 0]) demoEditor in
  exists duration',
    clips st' !! 0%nat = Some (Clip.set_duration duration' demoVideo) /\
    MIN_CLIP_DURATION <= duration' /\
    (Clip.kind demoVideo = image -> duration' <= 120) /\
    (Clip.kind demoVideo <> image ->
     Clip.sourceOffset demoVideo <= Clip.sourceDuration demoVideo - MIN_CLIP_DURATION ->
     Clip.sourceOffset demoVideo + duration' <= Clip.sourceDuration demoVideo) /\
    forall j, j <> 0%nat -> clips st' !! j = clips demoEditor !! j.
Proof.
  apply (trim_right_gesture demoEditor demoVideo 0%nat (PointerEvent.mk 10 0)
           (PointerEvent.mk 900 0) []).
  - reflexivity.
  - reflexivity.
Defined.



(** While a drag is on, pointer moves touch the clips only. *)
Lemma pointer_moves_shape (ds : DragState.t) (i : nat) (c : Clip.t)
    (moves : list PointerEvent.t) (st : Editor) :
  dragState st = Some ds ->
  findClip (DragState.clipId ds) (clips st) = Some (i, c) ->
  fold_left (fun s event => onPointerMove event s) moves st
  = set_clips
      (clips (fold_left (fun s event => onPointerMove event s) moves st)) st.
Proof.
  intros Hd Hf. induction moves as [|e es IH] using rev_ind.
  - simpl. now destruct st.
  - rewrite fold_left_app. cbn [fold_left].
    destruct (pointer_moves_state ds i c es st Hd Hf) as (Hd' & c' & Hc' & Hid & _).
    set (s := fold_left (fun s event => onPointerMove event s) es st) in *.
    assert (Hf' : findClip (DragState.clipId ds) (clips s) = Some (i, c')).
    { rewrite Hc'. apply (findClip_insert _ _ _ c); [exact Hf |].
      rewrite Hid. now apply findClip_Some in Hf. }
    rewrite (onPointerMove_dragging e s ds i c' Hd' Hf').
    rewrite IH at 2. reflexivity.
Qed.

(** X16.  Of the pointer positions of a drag only the last one counts: the
    page after the gesture is the page after the same gesture with the last
    move alone.  After pointer up no drag is on, so further pointer moves
    change nothing; and a pointer down with another button than the primary
    one starts no drag at all. *)
Theorem dragGesture_last_position (mode : DragMode) (c : Clip.t)
    (down last : PointerEvent.t) (moves : list PointerEvent.t) (st : Editor)
    (i : nat) :
  findClip (Clip.id c) (clips st) = Some (i, c) ->
  (PointerEvent.button down = 0%Z ->
   dragGesture mode c down (moves ++ [last]) st
     = dragGesture mode c down [last] st /\
   dragState (dragGesture mode c down (moves ++ [last]) st) = None /\
   forall event,
     onPointerMove event (dragGesture mode c down (moves ++ [last]) st)
     = dragGesture mode c down (moves ++ [last]) st) /\
  (PointerEvent.button down <> 0%Z -> dragState st = None ->
   dragGesture mode c down (moves ++ [last]) st = st).
Proof.
  intros Hf. split.
  - intros Hb.
    set (st1 := startClipDrag mode c down st).
    assert (Hd1 : dragState st1 = Some (dragStateOf mode c down)).
    { unfold st1, startClipDrag. now rewrite Hb. }
    assert (Hc1 : clips st1 = clips st).
    { unfold st1, startClipDrag. now rewrite Hb. }
    assert (Hf1 : findClip (DragState.clipId (dragStateOf mode c down)) (clips st1)
                  = Some (i, c)) by (now rewrite Hc1).
    assert (Shape : forall ms,
              fold_left (fun s event => onPointerMove event s) (ms ++ [last]) st1
              = set_clips
                  (<[i := dragClip (dragStateOf mode c down) (dragDelta down last) c]>
                     (clips st))
                  st1).
    { intros ms.
      rewrite (pointer_moves_shape _ i c (ms ++ [last]) st1 Hd1 Hf1).
      f_equal.
      rewrite <- (dragGesture_clips mode c down last ms st i Hf Hb).
      unfold dragGesture. now rewrite onPointerUp_clips. }
    assert (E : dragGesture mode c down (moves ++ [last]) st
                = dragGesture mode c down [last] st).
    { unfold dragGesture. fold st1. rewrite (Shape moves).
      change [last] with ([] ++ [last]). now rewrite (Shape []). }
    assert (D : dragState (dragGesture mode c down (moves ++ [last]) st) = None).
    { unfold dragGesture. fold st1. rewrite (Shape moves).
      unfold onPointerUp. cbn [dragState set_clips]. now rewrite Hd1. }
    split; [exact E |]. split; [exact D |].
    intros event. unfold onPointerMove. now rewrite D.
  - intros Hb Hd.
    assert (Hs : startClipDrag mode c down st = st).
    { unfold startClipDrag. apply Z.eqb_neq in Hb. now rewrite Hb. }
    unfold dragGesture. rewrite Hs.
    assert (Hm : forall ms, fold_left (fun s event => onPointerMove event s) ms st = st).
    { intros ms. induction ms as [|e ms IH]; [reflexivity |].
      cbn [fold_left]. unfold onPointerMove at 2. now rewrite Hd. }
    rewrite Hm. unfold onPointerUp. now rewrite Hd.
Qed.

Lemma dragGesture_last_position_witness :
  dragGesture move demoAudio (PointerEvent.mk 10 0)
    ([PointerEvent.mk 500 0; PointerEvent.mk 20 0] ++ [PointerEvent.mk 100 0])
    demoEditor
  = dragGesture move demoAudio (PointerEvent.mk 10 0) [PointerEvent.mk 100 0]
      demoEditor /\
  dragGesture move demoAudio (PointerEvent.mk 10 2)
    ([PointerEvent.mk 500 0] ++ [PointerEvent.mk 100 0]) demoEditor
  = demoEditor.
Proof.
  split.
  - apply (dragGesture_last_position move demoAudio (PointerEvent.mk 10 0)
             (PointerEvent.mk 100 0) [PointerEvent.mk 500 0; PointerEvent.mk 20 0]
             demoEditor 1%nat).
    + reflexivity.
    + reflexivity.
  - apply (dragGesture_last_position move demoAudio (PointerEvent.mk 10 2)
             (PointerEvent.mk 100 0) [PointerEvent.mk 500 0] demoEditor 1%nat).
    + reflexivity.
    + discriminate.
    + reflexivity.
Defined.

(* ------------------------------------------------------------------ *)
(** ** Cues of a transcript *)

Lemma wordCues_texts (uuid : nat -> jsstring) (next : nat) (safeStart safeEnd : Q)
    (words : list jsstring) :
  CaptionCue.text <$> wordCues uuid next safeStart safeEnd words = words /\
  CaptionCue.id <$> wordCues uuid next safeStart safeEnd words
    = uuid <$> seq next (length words).
Proof.
  unfold wordCues.
  set (f := wordCue uuid next safeStart safeEnd _ (length words)).
  split.
  - apply list_eq. intros i.
    rewrite list_lookup_fmap, list_lookup_imap.
    now destruct (words !! i).
  - apply list_eq. intros i.
    rewrite !list_lookup_fmap, list_lookup_imap.
    destruct (words !! i) as [w |] eqn:E; simpl.
    + rewrite lookup_seq_lt by (now apply lookup_lt_Some in E). reflexivity.
    + rewrite lookup_seq_ge by (now apply lookup_ge_None in E). reflexivity.
Qed.

Lemma buildLoop_texts (uuid : nat -> jsstring) (chunks : list AsrChunk.t) :
  CaptionCue.text <$> cues (buildLoop uuid chunks) = transcriptWords chunks /\
  nextId (buildLoop uuid chunks) = length (transcriptWords chunks) /\
  CaptionCue.id <$> cues (buildLoop uuid chunks)
    = uuid <$> seq 0 (length (transcriptWords chunks)).
Proof.
  unfold transcriptWords.
  induction chunks as [|chunk chunks IH] using rev_ind; [now repeat split |].
  destruct IH as (IHt & IHn & IHi).
  rewrite buildLoop_snoc, fmap_app, concat_app. simpl. rewrite app_nil_r.
  rewrite length_app.
  unfold buildStep.
  destruct (truthy (chunkText chunk)) eqn:T; simpl.
  - destruct (chunkSpan _ chunk) as [safeStart safeEnd].
    destruct (wordsOf (chunkText chunk)) as [|w ws] eqn:W; simpl.
    + rewrite app_nil_r, Nat.add_0_r. auto.
    + destruct (wordCues_texts uuid (nextId (buildLoop uuid chunks)) safeStart
                  safeEnd (w :: ws)) as [Ht Hi].
      rewrite !fmap_app, Ht, Hi, IHt, IHi, IHn.
      rewrite seq_app, fmap_app. simpl. auto.
  - apply truthy_false in T. rewrite T. simpl.
    rewrite app_nil_r, Nat.add_0_r. auto.
Qed.

(** X17.  When the transcript has a word, the cues [buildCaptionCues]
    returns are its words, one cue per word and in order, and their ids are
    the first ids drawn, one after the other: with a supply that never
    repeats, no two cues share an id. *)
Theorem buildCaptionCues_words (uuid : nat -> jsstring)
    (chunks : list AsrChunk.t) (fallbackDuration : Q) :
  transcriptWords chunks <> [] ->
  CaptionCue.text <$> buildCaptionCues uuid chunks fallbackDuration
    = transcriptWords chunks /\
  CaptionCue.id <$> buildCaptionCues uuid chunks fallbackDuration
    = uuid <$> seq 0 (length (transcriptWords chunks)) /\
  ((forall m n, uuid m = uuid n -> m = n) ->
   NoDup (CaptionCue.id <$> buildCaptionCues uuid chunks fallbackDuration)).
Proof.
  intros Hne. destruct (buildLoop_texts uuid chunks) as (Ht & _ & Hi).
  unfold buildCaptionCues.
  destruct (cues (buildLoop uuid chunks)) as [|cue rest] eqn:E.
  - simpl in Ht. congruence.
  - split; [exact Ht |]. split; [exact Hi |].
    intros Hinj. rewrite Hi. apply NoDup_fmap_2; [| apply NoDup_seq].
    intros m n. apply Hinj.
Qed.

Lemma buildCaptionCues_words_witness :
  CaptionCue.text
    <$> buildCaptionCues demoUuid
          [chunkAt "hello world" 0 2; chunkAt "" 2 3; chunkAt "goodbye" 3 4] 4
  = transcriptWords
      [chunkAt "hello world" 0 2; chunkAt "" 2 3; chunkAt "goodbye" 3 4].
Proof.
  apply (buildCaptionCues_words demoUuid
           [chunkAt "hello world" 0 2; chunkAt "" 2 3; chunkAt "goodbye" 3 4] 4).
  discriminate.
Defined.

(* ------------------------------------------------------------------ *)
(** ** Timing of cues *)

Lemma of_nat_nonneg (n : nat) : 0 <= of_nat n.
Proof.
  unfold of_nat. change 0 with (inject_Z 0). rewrite <- Zle_Qle. lia.
Qed.

Lemma of_nat_pos (n : nat) : (0 < n)%nat -> 0 < of_nat n.
Proof.
  intros H. unfold of_nat. change 0 with (inject_Z 0). rewrite <- Zlt_Qlt. lia.
Qed.

Lemma of_nat_S (n : nat) : of_nat (S n) == of_nat n + 1.
Proof.
  unfold of_nat. rewrite Nat2Z.inj_succ, <- Z.add_1_r, inject_Z_plus. reflexivity.
Qed.

Lemma of_nat_le (m n : nat) : (m <= n)%nat -> of_nat m <= of_nat n.
Proof. intros H. unfold of_nat. rewrite <- Zle_Qle. lia. Qed.

(** X18.  The cues of one chunk, for a span of at least 0.2 s.  There is
    one cue per word, with the word as text and the next free id; the cue
    of word [i] of [n] starts at [i/n] of the span; and when every word
    gets at least 0.08 s it ends at [(i+1)/n] of the span, so that the cues
    tile the span from its start to its end without gap or overlap. *)
Theorem wordCues_even (uuid : nat -> jsstring) (next : nat)
    (safeStart safeEnd : Q) (words : list jsstring) :
  safeStart + (2 # 10) <= safeEnd ->
  let n := of_nat (length words) in
  let span := safeEnd - safeStart in
  length (wordCues uuid next safeStart safeEnd words) = length words /\
  forall i word, words !! i = Some word ->
    exists cue,
      wordCues uuid next safeStart safeEnd words !! i = Some cue /\
      CaptionCue.text cue = word /\
      CaptionCue.id cue = uuid (next + i)%nat /\
      CaptionCue.start cue == safeStart + span * of_nat i / n /\
      (MIN_CUE_LENGTH * n <= span ->
       CaptionCue.end_ cue == safeStart + span * of_nat (S i) / n).
Proof.
  intros Hspan n span. unfold wordCues. split; [apply length_imap |].
  intros i word Hw. rewrite list_lookup_imap, Hw. simpl.
  eexists. split; [reflexivity |]. unfold wordCue. simpl.
  assert (Hi : (i < length words)%nat) by (now apply lookup_lt_Some in Hw).
  assert (Hn : 0 < n) by (apply of_nat_pos; lia).
  assert (Hd : Qmax (2 # 10) (safeEnd - safeStart) == span).
  { apply Q.max_r. unfold span. lra. }
  fold n. set (d := Qmax (2 # 10) (safeEnd - safeStart)) in *. clearbody d.
  split; [reflexivity |]. split; [reflexivity |].
  split; [rewrite Hd; field; lra |].
  intros Hmin.
  assert (Hwd : MIN_CUE_LENGTH <= span / n).
  { apply Qle_shift_div_l; [exact Hn | exact Hmin]. }
  unfold MIN_CUE_LENGTH in Hwd.
  destruct (Nat.eqb_spec i (length words - 1)) as [-> | Hne]; rewrite Hd.
  - assert (E : of_nat (S (length words - 1)) == n).
    { unfold n. replace (S (length words - 1)) with (length words) by lia.
      reflexivity. }
    rewrite E.
    assert (E2 : safeStart + span * n / n == safeEnd) by (unfold span; field; lra).
    rewrite E2.
    apply Q.max_r.
    assert (E3 : of_nat (length words - 1) == n - 1).
    { unfold n. replace (length words) with (S (length words - 1)) at 2 by lia.
      rewrite of_nat_S. ring. }
    rewrite E3.
    assert (E4 : safeStart + span / n * (n - 1) == safeEnd - span / n)
      by (unfold span; field; lra).
    rewrite E4. lra.
  - assert (Hle : of_nat (S i) <= n) by (apply of_nat_le; lia).
    assert (E : safeStart + span / n * of_nat i + span / n
                == safeStart + span * of_nat (S i) / n).
    { rewrite of_nat_S. field. lra. }
    assert (Hend : safeStart + span * of_nat (S i) / n <= safeEnd).
    { assert (X : span * of_nat (S i) / n <= span).
      { apply Qle_shift_div_r; [exact Hn |].
        assert (0 <= span) by (unfold span; lra). nra. }
      unfold span in *. lra. }
    rewrite Q.min_r by (rewrite E; exact Hend).
    rewrite E. apply Q.max_r. rewrite <- E. lra.
Qed.

Lemma wordCues_even_witness :
  exists cue,
    wordCues demoUuid 0 1 3 [js "a"; js "b"; js "c"; js "d"] !! 2%nat = Some cue /\
    CaptionCue.text cue = js "c" /\
    CaptionCue.start cue == 2 /\ CaptionCue.end_ cue == 5 # 2.
Proof.
  destruct (wordCues_even demoUuid 0 1 3 [js "a"; js "b"; js "c"; js "d"])
    as (_ & H).
  - eval_Q.
  - destruct (H 2%nat (js "c") eq_refl) as (cue & Hc & Ht & _ & Hs & He).
    exists cue. split; [exact Hc |]. split; [exact Ht |]. split.
    + rewrite Hs. eval_Q.
    + rewrite He by eval_Q. eval_Q.
Defined.

Lemma wordCues_wellTimed (uuid : nat -> jsstring) (next : nat)
    (safeStart safeEnd : Q) (words : list jsstring) :
  0 <= safeStart ->
  Forall wellTimed (wordCues uuid next safeStart safeEnd words).
Proof.
  intros H0. apply Forall_forall. intros cue H. unfold wordCues in H.
  apply elem_of_lookup_imap_1 in H as (i & word & -> & Hw).
  unfold wellTimed, wordCue, MIN_CUE_LENGTH. simpl. split; [| apply Q.le_max_l].
  assert (Hn : 0 < of_nat (length words)).
  { apply of_nat_pos. apply lookup_lt_Some in Hw. lia. }
  assert (Hd : 0 <= Qmax (2 # 10) (safeEnd - safeStart) / of_nat (length words)).
  { apply Qle_shift_div_l; [exact Hn |]. minmax_cases; lra. }
  pose proof (of_nat_nonneg i) as Hi.
  set (wd := Qmax (2 # 10) (safeEnd - safeStart) / of_nat (length words)) in *.
  nra.
Qed.

Lemma buildLoop_wellTimed (uuid : nat -> jsstring) (chunks : list AsrChunk.t) :
  Forall wellTimed (cues (buildLoop uuid chunks)).
Proof.
  induction chunks as [|chunk chunks IH] using rev_ind; [constructor |].
  rewrite buildLoop_snoc. unfold buildStep.
  destruct (negb (truthy (chunkText chunk))); [exact IH |].
  pose proof (chunkSpan_bounds _ chunk (buildLoop_cursor_nonneg uuid chunks)) as [H0 _].
  destruct (chunkSpan _ chunk) as [safeStart safeEnd]. simpl in H0.
  destruct (wordsOf (chunkText chunk)) as [|w ws]; [exact IH |].
  simpl. apply Forall_app. split; [exact IH | now apply wordCues_wellTimed].
Qed.

Lemma normalizeStoredStep_wellTimed (uuid : nat -> jsstring)
    (acc : list CaptionCue.t * nat) (cue : StoredCue.t) :
  Forall wellTimed (fst acc) ->
  Forall wellTimed (fst (normalizeStoredStep uuid acc cue)).
Proof.
  destruct acc as [normalized next]. simpl. intros H.
  set (safeStart := match StoredCue.start cue with
                    | Finite s => Qmax 0 s | NonFinite => 0 end).
  set (safeEnd := match StoredCue.end_ cue with
                  | Finite e => Qmax (safeStart + (2 # 10)) e
                  | NonFinite => safeStart + 2 end).
  assert (H0 : 0 <= safeStart).
  { unfold safeStart. destruct (StoredCue.start cue); [apply Q.le_max_l | apply Qle_refl]. }
  assert (Hs : safeStart + MIN_CUE_LENGTH <= safeEnd).
  { unfold safeEnd, MIN_CUE_LENGTH. destruct (StoredCue.end_ cue); minmax_cases; lra. }
  destruct (length (wordsOf (normalizeCaptionText (StoredCue.text cue))) <=? 1)%nat.
  - destruct (negb (truthy (normalizeCaptionText (StoredCue.text cue))));
      [exact H |].
    destruct (truthy (StoredCue.id cue)); simpl;
      (apply Forall_app; split; [exact H | repeat constructor; assumption]).
  - simpl. apply Forall_app. split; [exact H | now apply wordCues_wellTimed].
Qed.

(** X19.  Whatever the recognizer or the store delivers (time stamps
    missing, not finite, negative or reversed), every cue that
    [buildCaptionCues] or [normalizeStoredCaptionCues] returns starts at or
    after 0 and ends at least 0.08 s after it starts. *)
Theorem cues_well_timed (uuid : nat -> jsstring) (chunks : list AsrChunk.t)
    (fallbackDuration : Q) (rawCues : list StoredCue.t) :
  Forall wellTimed (buildCaptionCues uuid chunks fallbackDuration) /\
  Forall wellTimed (normalizeStoredCaptionCues uuid rawCues).
Proof.
  split.
  - unfold buildCaptionCues.
    pose proof (buildLoop_wellTimed uuid chunks) as H.
    destruct (cues (buildLoop uuid chunks)); [| exact H].
    repeat constructor; simpl; [apply Qle_refl |].
    unfold MIN_CUE_LENGTH. minmax_cases; lra.
  - unfold normalizeStoredCaptionCues.
    induction rawCues as [|cue rawCues IH] using rev_ind; [constructor |].
    rewrite fold_left_app. cbn [fold_left].
    now apply normalizeStoredStep_wellTimed.
Qed.

(* ------------------------------------------------------------------ *)
(** ** Normalized text *)

Lemma replaceSpaceRuns_length (inRun : bool) (text : jsstring) :
  (length (replaceSpaceRuns inRun text) <= length text)%nat.
Proof.
  revert inRun. induction text as [|c rest IH]; intros inRun; simpl; [lia |].
  destruct (isSpace c); [destruct inRun |]; simpl;
    [pose proof (IH true) | pose proof (IH true) | pose proof (IH false)]; lia.
Qed.

(** Replacing runs a second time changes nothing. *)
Lemma replaceSpaceRuns_idem (text : jsstring) :
  (forall inRun,
     replaceSpaceRuns false (replaceSpaceRuns inRun text)
     = replaceSpaceRuns inRun text) /\
  replaceSpaceRuns true (replaceSpaceRuns true text) = replaceSpaceRuns true text.
Proof.
  induction text as [|c rest [IH1 IH2]]; [now split |].
  split.
  - intros inRun. simpl. destruct (isSpace c) eqn:E.
    + destruct inRun; [apply IH1 |].
      simpl. now rewrite IH2.
    + simpl. rewrite E. now rewrite IH1.
  - simpl. destruct (isSpace c) eqn:E; [exact IH2 |].
    simpl. rewrite E. now rewrite IH1.
Qed.

Lemma replaceSpaceRuns_app (inRun : bool) (p s : jsstring) :
  replaceSpaceRuns inRun (p ++ s)
  = replaceSpaceRuns inRun p ++ replaceSpaceRuns (runAfter inRun p) s.
Proof.
  revert inRun. induction p as [|c p IH]; intros inRun; [reflexivity |].
  assert (R : forall b, runAfter b (c :: p) = runAfter (isSpace c) p).
  { intros b. unfold runAfter. destruct p as [|e p']; [reflexivity |].
    rewrite last_cons_cons. destruct (last (e :: p')) eqn:L; [reflexivity |].
    apply last_None in L. discriminate L. }
  simpl. rewrite R.
  destruct (isSpace c); [destruct inRun |]; simpl; now rewrite IH.
Qed.

(** A text left alone by the replacement has parts left alone by it. *)
Lemma replaceSpaceRuns_fixed_app (p s : jsstring) :
  replaceSpaceRuns false (p ++ s) = p ++ s ->
  replaceSpaceRuns false p = p /\
  replaceSpaceRuns (runAfter false p) s = s.
Proof.
  rewrite replaceSpaceRuns_app. intros H.
  pose proof (replaceSpaceRuns_length false p) as L1.
  pose proof (replaceSpaceRuns_length (runAfter false p) s) as L2.
  assert (L : length (replaceSpaceRuns false p) = length p).
  { apply (f_equal length) in H. rewrite !length_app in H. lia. }
  apply app_inj_1 in H; [exact H | exact L].
Qed.

Lemma replaceSpaceRuns_head (inRun : bool) (c : N) (rest : jsstring) :
  isSpace c = false ->
  replaceSpaceRuns inRun (c :: rest) = replaceSpaceRuns false (c :: rest).
Proof. intros H. simpl. now rewrite H. Qed.

Lemma trimStart_fixed (text : jsstring) :
  (forall c rest, text = c :: rest -> isSpace c = false) -> trimStart text = text.
Proof.
  destruct text as [|c rest]; [reflexivity |].
  intros H. simpl. now rewrite (H c rest eq_refl).
Qed.

(** The shape of a trimmed text inside the text it was cut from. *)
Lemma trim_inside (text : jsstring) :
  exists before after, text = before ++ trim text ++ after.
Proof.
  unfold trim.
  destruct (trimStart_suffix text) as [p1 E1].
  destruct (trimStart_suffix (reverse (trimStart text))) as [p2 E2].
  exists p1, (reverse p2).
  rewrite <- reverse_app, <- E2, reverse_involutive. exact E1.
Qed.

Lemma trim_fixed (text : jsstring) :
  (forall c rest, text = c :: rest -> isSpace c = false) ->
  (forall d, last text = Some d -> isSpace d = false) ->
  trim text = text.
Proof.
  intros Hf Hl. unfold trim. rewrite (trimStart_fixed text Hf).
  rewrite trimStart_fixed; [apply reverse_involutive |].
  intros c rest E. apply Hl.
  rewrite <- (reverse_involutive text), E, reverse_cons. apply last_snoc.
Qed.

Lemma normalized_fixed (text : jsstring) :
  replaceSpaceRuns false (normalizeCaptionText text) = normalizeCaptionText text.
Proof.
  unfold normalizeCaptionText.
  set (r := replaceSpaceRuns false text).
  assert (F : replaceSpaceRuns false r = r) by (apply replaceSpaceRuns_idem).
  destruct (trim_inside r) as (before & after & E).
  destruct (trim r) as [|c rest] eqn:T; [reflexivity |].
  assert (Hc : isSpace c = false).
  { destruct (trim_ends r) as (c' & rest' & d & E' & Hc' & _).
    - rewrite T. discriminate.
    - rewrite T in E'. now injection E' as <- _. }
  rewrite E in F. apply replaceSpaceRuns_fixed_app in F as [_ F].
  rewrite replaceSpaceRuns_app in F.
  rewrite (replaceSpaceRuns_head _ c rest Hc) in F.
  pose proof (replaceSpaceRuns_length false (c :: rest)) as L1.
  pose proof (replaceSpaceRuns_length (runAfter (runAfter false before) (c :: rest)) after)
    as L2.
  assert (L : length (replaceSpaceRuns false (c :: rest)) = length (c :: rest)).
  { apply (f_equal length) in F. rewrite !length_app in F. lia. }
  apply app_inj_1 in F; [apply F | exact L].
Qed.

(** [normalizeCaptionText] applied twice is [normalizeCaptionText]. *)
Lemma normalizeCaptionText_idem (text : jsstring) :
  normalizeCaptionText (normalizeCaptionText text) = normalizeCaptionText text.
Proof.
  unfold normalizeCaptionText at 1. rewrite normalized_fixed.
  destruct (normalizeCaptionText text) as [|c rest] eqn:T; [reflexivity |].
  destruct (trim_ends (replaceSpaceRuns false text)) as (c' & rest' & d & E & Hc & Hl & Hd).
  { fold (normalizeCaptionText text). rewrite T. discriminate. }
  fold (normalizeCaptionText text) in E, Hl. rewrite T in E, Hl.
  injection E as <- <-.
  apply trim_fixed.
  - intros c0 r0 [= <- <-]. exact Hc.
  - intros d0 H0. rewrite Hl in H0. now injection H0 as <-.
Qed.

Lemma joinWords_cons (w : jsstring) (rest : list jsstring) :
  rest <> [] -> joinWords (w :: rest) = w ++ SPACE :: joinWords rest.
Proof. destruct rest; [congruence | reflexivity]. Qed.

(** Splitting at the spaces and joining with spaces gives the text back. *)
Lemma joinWords_split (text : jsstring) : joinWords (split SPACE text) = text.
Proof.
  induction text as [|c rest IH]; [reflexivity |].
  simpl split. destruct (split_cons SPACE rest) as (w & ws & E).
  rewrite E in *. destruct (c =? SPACE)%N eqn:C.
  - apply N.eqb_eq in C. subst c. rewrite joinWords_cons by discriminate.
    cbn [app]. now rewrite IH.
  - destruct ws as [|w' ws].
    + simpl in *. now rewrite IH.
    + rewrite joinWords_cons by discriminate.
      rewrite joinWords_cons in IH by discriminate.
      cbn [app]. now rewrite IH.
Qed.

(** In a text that the replacement leaves alone and that neither starts
    nor ends with white space, no piece between two spaces is empty. *)
Lemma split_pieces_truthy (n : nat) (text : jsstring) :
  (length text <= n)%nat ->
  replaceSpaceRuns false text = text ->
  (forall c rest, text = c :: rest -> isSpace c = false) ->
  (forall d, last text = Some d -> isSpace d = false) ->
  text <> [] ->
  Forall (fun w => truthy w = true) (split SPACE text).
Proof.
  revert text. induction n as [|n IH]; intros text Hn HR Hf Hl Hne.
  - destruct text; [congruence | simpl in Hn; lia].
  - destruct text as [|c r]; [congruence |].
    assert (Hc : isSpace c = false) by (now apply (Hf c r)).
    pose proof (isSpace_false_ne c Hc) as Hcs. apply N.eqb_neq in Hcs.
    simpl in HR. rewrite Hc in HR. injection HR as HR.
    destruct r as [|e r'].
    + simpl. rewrite Hcs. repeat constructor.
    + assert (Hl' : forall d, last (e :: r') = Some d -> isSpace d = false).
      { intros d Hd. apply Hl. now rewrite last_cons_cons. }
      destruct (isSpace e) eqn:He.
      * simpl in HR. rewrite He in HR. injection HR as <- HR.
        destruct r' as [|f r''].
        { specialize (Hl' SPACE eq_refl). discriminate Hl'. }
        assert (Hf' : isSpace f = false).
        { destruct (isSpace f) eqn:Hf'; [| reflexivity].
          simpl in HR. rewrite Hf' in HR.
          pose proof (replaceSpaceRuns_length true r'') as L.
          apply (f_equal length) in HR. simpl in HR. lia. }
        assert (HR' : replaceSpaceRuns false (f :: r'') = f :: r'').
        { now rewrite <- (replaceSpaceRuns_head true f r'' Hf'). }
        assert (T : Forall (fun w => truthy w = true) (split SPACE (f :: r''))).
        { apply IH.
          - simpl in *. lia.
          - exact HR'.
          - intros c0 r0 [= <- <-]. exact Hf'.
          - intros d Hd. apply Hl'. now rewrite last_cons_cons.
          - discriminate. }
        change (split SPACE (c :: SPACE :: f :: r''))
          with (if (c =? SPACE)%N then [] :: [] :: split SPACE (f :: r'')
                else [c] :: split SPACE (f :: r'')).
        rewrite Hcs. now constructor.
      * assert (T : Forall (fun w => truthy w = true) (split SPACE (e :: r'))).
        { apply IH.
          - simpl in *. lia.
          - exact HR.
          - intros c0 r0 [= <- <-]. exact He.
          - exact Hl'.
          - discriminate. }
        change (split SPACE (c :: e :: r'))
          with (if (c =? SPACE)%N then [] :: split SPACE (e :: r')
                else match split SPACE (e :: r') with
                     | [] => [[c]]
                     | w :: ws => (c :: w) :: ws
                     end).
        rewrite Hcs.
        destruct (split SPACE (e :: r')) as [|w ws]; [repeat constructor |].
        apply Forall_cons in T as [_ T]. now constructor.
Qed.

Lemma filter_all {A : Type} (p : A -> bool) (l : list A) :
  Forall (fun x => p x = true) l -> List.filter p l = l.
Proof.
  induction 1 as [|x l Hx _ IH]; [reflexivity |].
  simpl. now rewrite Hx, IH.
Qed.

(** The words of a normalized text are the pieces between its spaces. *)
Lemma wordsOf_normalized_split (text : jsstring) :
  normalizeCaptionText text <> [] ->
  wordsOf (normalizeCaptionText text) = split SPACE (normalizeCaptionText text).
Proof.
  intros Hne. unfold wordsOf. apply filter_all.
  destruct (trim_ends (replaceSpaceRuns false text) Hne)
    as (c & rest & d & E & Hc & Hl & Hd).
  fold (normalizeCaptionText text) in E, Hl.
  apply (split_pieces_truthy (length (normalizeCaptionText text))).
  - lia.
  - apply normalized_fixed.
  - intros c0 r0 E0. rewrite E in E0. now injection E0 as <- _.
  - intros d0 H0. rewrite Hl in H0. now injection H0 as <-.
  - exact Hne.
Qed.

Lemma replaceSpaceRuns_spaces (inRun : bool) (text : jsstring) (c : N) :
  c ∈ replaceSpaceRuns inRun text -> isSpace c = true -> c = SPACE.
Proof.
  revert inRun. induction text as [|d rest IH]; intros inRun H Hs; simpl in H.
  - inversion H.
  - destruct (isSpace d) eqn:E.
    + destruct inRun; [now apply (IH true) |].
      apply elem_of_cons in H as [-> | H]; [reflexivity | now apply (IH true)].
    + apply elem_of_cons in H as [-> | H]; [congruence | now apply (IH false)].
Qed.

Lemma normalized_spaces (text : jsstring) (c : N) :
  c ∈ normalizeCaptionText text -> isSpace c = true -> c = SPACE.
Proof.
  unfold normalizeCaptionText. intros H.
  destruct (trim_inside (replaceSpaceRuns false text)) as (before & after & E).
  apply (replaceSpaceRuns_spaces false text). rewrite E.
  apply elem_of_app. right. apply elem_of_app. now left.
Qed.

Lemma split_piece_chars (sep : N) (text : jsstring) (w : jsstring) (c : N) :
  w ∈ split sep text -> c ∈ w -> c ∈ text /\ c <> sep.
Proof.
  revert w. induction text as [|d rest IH]; intros w Hw Hc; simpl in Hw.
  - apply list_elem_of_singleton in Hw. subst w. inversion Hc.
  - destruct (d =? sep)%N eqn:D.
    + apply elem_of_cons in Hw as [-> | Hw]; [inversion Hc |].
      destruct (IH w Hw Hc). split; [now right | assumption].
    + apply N.eqb_neq in D.
      destruct (split sep rest) as [|w0 ws0] eqn:E.
      * apply list_elem_of_singleton in Hw. subst w.
        apply list_elem_of_singleton in Hc. subst c. split; [left | exact D].
      * apply elem_of_cons in Hw as [-> | Hw].
        -- apply elem_of_cons in Hc as [-> | Hc]; [split; [left | exact D] |].
           destruct (IH w0 (ltac:(left)) Hc). split; [now right | assumption].
        -- destruct (IH w (ltac:(now right)) Hc). split; [now right | assumption].
Qed.

Lemma wordsOf_normalized_words (text : jsstring) :
  Forall isWord (wordsOf (normalizeCaptionText text)).
Proof.
  apply Forall_forall. intros w Hw. unfold wordsOf in Hw.
  apply list_elem_of_In, filter_In in Hw as [Hw Ht].
  apply list_elem_of_In in Hw. split; [now apply truthy_true |].
  intros c Hc. destruct (split_piece_chars SPACE _ w c Hw Hc) as [Hin Hne].
  destruct (isSpace c) eqn:E; [| reflexivity].
  exfalso. apply Hne. now apply (normalized_spaces text).
Qed.

(** X20.  [normalizeCaptionText] gives a normal form: applying it again
    changes nothing, and the result is exactly its words joined by single
    spaces, each word without white space, so it neither starts nor ends
    with white space nor holds two spaces in a row. *)
Theorem normalizeCaptionText_normal_form (text : jsstring) :
  normalizeCaptionText (normalizeCaptionText text) = normalizeCaptionText text /\
  joinWords (wordsOf (normalizeCaptionText text)) = normalizeCaptionText text /\
  Forall isWord (wordsOf (normalizeCaptionText text)).
Proof.
  split; [apply normalizeCaptionText_idem |].
  split; [| apply wordsOf_normalized_words].
  destruct (normalizeCaptionText text) as [|c rest] eqn:E; [reflexivity |].
  rewrite <- E. rewrite wordsOf_normalized_split by (rewrite E; discriminate).
  apply joinWords_split.
Qed.

(* ------------------------------------------------------------------ *)
(** ** One word per cue *)

Lemma wordCues_words (uuid : nat -> jsstring) (next : nat) (safeStart safeEnd : Q)
    (words : list jsstring) :
  Forall isWord words ->
  Forall (fun cue => isWord (CaptionCue.text cue))
    (wordCues uuid next safeStart safeEnd words).
Proof.
  intros H.
  rewrite <- (proj1 (wordCues_texts uuid next safeStart safeEnd words)) in H.
  rewrite Forall_fmap in H. exact H.
Qed.

Lemma normalizeStoredStep_words (uuid : nat -> jsstring)
    (acc : list CaptionCue.t * nat) (cue : StoredCue.t) :
  Forall (fun c => isWord (CaptionCue.text c)) (fst acc) ->
  Forall (fun c => isWord (CaptionCue.text c)) (fst (normalizeStoredStep uuid acc cue)).
Proof.
  destruct acc as [normalized next]. cbn [fst]. intros IH.
  unfold normalizeStoredStep.
  pose proof (wordsOf_normalized_words (StoredCue.text cue)) as W.
  pose proof (wordsOf_normalized (StoredCue.text cue)) as Hne.
  pose proof (wordsOf_one_word (StoredCue.text cue)) as Hone.
  set (text := normalizeCaptionText (StoredCue.text cue)) in *.
  destruct (length (wordsOf text) <=? 1)%nat eqn:L.
  - destruct (truthy text) eqn:T; cbn [negb]; [| exact IH].
    apply Nat.leb_le in L.
    assert (E : wordsOf text = [text]).
    { apply Hone. specialize (Hne eq_refl).
      destruct (wordsOf text) as [|w [|w' ws]]; [contradiction | reflexivity |].
      simpl in L. lia. }
    rewrite E in W. apply (proj1 (Forall_singleton _ _)) in W.
    destruct (truthy (StoredCue.id cue)); cbn [fst];
      (apply Forall_app; split; [exact IH | apply Forall_singleton; exact W]).
  - cbn [fst]. apply Forall_app. split; [exact IH |].
    now apply wordCues_words.
Qed.

Lemma normalizeStored_fold_words (uuid : nat -> jsstring)
    (rawCues : list StoredCue.t) (acc : list CaptionCue.t * nat) :
  Forall (fun c => isWord (CaptionCue.text c)) (fst acc) ->
  Forall (fun c => isWord (CaptionCue.text c))
    (fst (fold_left (normalizeStoredStep uuid) rawCues acc)).
Proof.
  revert acc. induction rawCues as [|cue rest IH]; intros acc H; [exact H |].
  cbn [fold_left]. apply IH. now apply normalizeStoredStep_words.
Qed.

Lemma transcriptWords_words (chunks : list AsrChunk.t) :
  Forall isWord (transcriptWords chunks).
Proof.
  unfold transcriptWords. apply Forall_concat, Forall_fmap, Forall_forall.
  intros chunk _. apply wordsOf_normalized_words.
Qed.

(** X21.  Captions are shown one word at a time: the text of every cue
    read back from a stored draft is one word (not empty, no white space
    inside), and so is the text of every cue built from a transcript, the
    placeholder cue of an empty transcript excepted. *)
Theorem cue_texts_are_words (uuid : nat -> jsstring)
    (rawCues : list StoredCue.t) (chunks : list AsrChunk.t)
    (fallbackDuration : Q) :
  Forall (fun cue => isWord (CaptionCue.text cue))
    (normalizeStoredCaptionCues uuid rawCues) /\
  Forall (fun cue => isWord (CaptionCue.text cue) \/
                     (transcriptWords chunks = [] /\
                      CaptionCue.text cue = NO_SPEECH))
    (buildCaptionCues uuid chunks fallbackDuration).
Proof.
  split.
  - apply normalizeStored_fold_words. constructor.
  - unfold buildCaptionCues.
    destruct (buildLoop_texts uuid chunks) as (Ht & _ & _).
    pose proof (transcriptWords_words chunks) as W.
    destruct (cues (buildLoop uuid chunks)) as [|c cs] eqn:E.
    + apply Forall_singleton. right. split; [now rewrite <- Ht | reflexivity].
    + rewrite <- Ht in W. rewrite Forall_fmap in W.
      eapply Forall_impl; [exact W |]. intros cue H. now left.
Qed.

(** A stored placeholder cue comes back as three cues, one per word. *)
Example placeholder_reloaded :
  CaptionCue.text <$>
    normalizeStoredCaptionCues demoUuid
      (storeCue <$> buildCaptionCues demoUuid [] 5)
  = [js "No"; js "speech"; js "detected"].
Proof. vm_compute. reflexivity. Qed.

(* ------------------------------------------------------------------ *)
(** ** Removing overlays, and the seek buttons *)

Lemma findOverlay_Some (id : jsstring) (l : list OverlayItem.t) (i : nat)
    (o : OverlayItem.t) :
  findOverlay id l = Some (i, o) ->
  l !! i = Some o /\ OverlayItem.id o = id.
Proof.
  unfold findOverlay. intros H. apply list_find_Some in H as (H1 & H2 & _).
  now split.
Qed.

(** X22.  Removing an overlay, among overlays with distinct ids, leaves
    exactly the overlays with another id, in the order they had, and the
    removed id is no longer selected.  Clips, clock and media elements are
    untouched (the clock is not pulled back to a shorter project), and the
    project never gets longer.  Removing a title right after adding it
    gives the former overlays back. *)
Theorem removeOverlay_removes (id : jsstring) (st : Editor) :
  NoDup (OverlayItem.id <$> overlays st) ->
  let st' := removeOverlay id st in
  (forall o, o ∈ overlays st' <-> o ∈ overlays st /\ OverlayItem.id o <> id) /\
  sublist (overlays st') (overlays st) /\
  selectedOverlayId st' <> Some id /\
  (clips st' = clips st /\ currentTime st' = currentTime st /\
   visualVideoRefs st' = visualVideoRefs st /\ audioRefs st' = audioRefs st) /\
  (Forall (fun e => 0 <= e) (allEnds st) ->
   projectDuration st' <= projectDuration st) /\
  (id ∉ OverlayItem.id <$> overlays st ->
   overlays (removeOverlay id (addTitle id st)) = overlays st /\
   selectedOverlayId (removeOverlay id (addTitle id st)) = None).
Proof.
  intros Hnd st'.
  set (st1 := if decide (selectedOverlayId st = Some id)
              then set_selectedOverlayId None st else st).
  assert (Ho1 : overlays st1 = overlays st) by (unfold st1; now destruct (decide _)).
  assert (Hs1 : selectedOverlayId st1 <> Some id).
  { unfold st1. destruct (decide _); [discriminate | assumption]. }
  assert (Hrest : clips st1 = clips st /\ currentTime st1 = currentTime st /\
                  visualVideoRefs st1 = visualVideoRefs st /\
                  audioRefs st1 = audioRefs st).
  { unfold st1. now destruct (decide _). }
  assert (Hov :
            (exists i o, findOverlay id (overlays st) = Some (i, o) /\
                         st' = set_overlays (delete i (overlays st)) st1) \/
            (findOverlay id (overlays st) = None /\ st' = st1)).
  { unfold st', removeOverlay. fold st1. rewrite Ho1.
    destruct (findOverlay id (overlays st)) as [[i o] |]; [left | right]; eauto. }
  assert (Hmem : forall o, o ∈ overlays st' <->
                           o ∈ overlays st /\ OverlayItem.id o <> id).
  { intros d. destruct Hov as [(i & o & F & ->) | (F & ->)].
    - apply findOverlay_Some in F as [Fi Fid].
      cbn [set_overlays overlays].
      rewrite <- (take_drop_middle _ _ _ Fi) in Hnd |- * at 2.
      rewrite delete_take_drop.
      rewrite fmap_app, fmap_cons in Hnd.
      apply NoDup_app in Hnd as (_ & Hd1 & Hnd).
      apply NoDup_cons in Hnd as [Hd2 _].
      rewrite !elem_of_app, elem_of_cons. split.
      + intros [H | H].
        * split; [now left |]. intros E. apply (Hd1 (OverlayItem.id d)).
          -- now apply list_elem_of_fmap_2.
          -- rewrite E, <- Fid. left.
        * split; [now right; right |]. intros E. apply Hd2.
          rewrite Fid, <- E. now apply list_elem_of_fmap_2.
      + intros [[H | [-> | H]] Hne]; [now left | contradiction | now right].
    - rewrite Ho1. split; [| tauto]. intros H. split; [exact H |].
      unfold findOverlay in F. apply list_find_None in F.
      rewrite Forall_forall in F. now apply F. }
  split; [exact Hmem |]. split; [| split; [| split; [| split]]].
  - destruct Hov as [(i & o & F & ->) | (F & ->)].
    + apply sublist_delete.
    + now rewrite Ho1.
  - destruct Hov as [(i & o & F & ->) | (F & ->)]; exact Hs1.
  - destruct Hov as [(i & o & F & ->) | (F & ->)]; exact Hrest.
  - intros Hpos. unfold projectDuration.
    assert (Hc : clips st' = clips st).
    { destruct Hov as [(i & o & F & ->) | (F & ->)]; apply Hrest. }
    rewrite Hc. apply Forall_app in Hpos as [_ Po].
    apply Q.max_le_compat_l.
    change (fun item => OverlayItem.start item + OverlayItem.duration item)
      with endOfOverlay.
    apply max_or_zero_subset; [| exact Po].
    intros e He. apply list_elem_of_fmap in He as (d & -> & Hd).
    apply Hmem in Hd as [Hd _]. now apply list_elem_of_fmap_2.
  - intros Hfresh. unfold removeOverlay, addTitle, selectOverlay.
    cbn [set_selectedOverlayId set_selectedClipId set_overlays selectedOverlayId
         overlays].
    destruct (decide (Some id = Some id)) as [_ | N]; [| contradiction].
    cbn [set_selectedOverlayId overlays selectedOverlayId].
    set (item := OverlayItem.mk id title _ _ _ _ _ _ _ _).
    assert (F : findOverlay id (overlays st ++ [item])
                = Some (length (overlays st), item)).
    { unfold findOverlay. apply list_find_Some. split; [| split].
      - now rewrite lookup_app_r, Nat.sub_diag by lia.
      - reflexivity.
      - intros j y Hj Hlt E. apply Hfresh. rewrite <- E.
        rewrite lookup_app_l in Hj by exact Hlt.
        apply list_elem_of_fmap_2. eapply list_elem_of_lookup_2, Hj. }
    change (overlays (set_selectedClipId None
                        (set_overlays (overlays st ++ [item]) st)))
      with (overlays st ++ [item]).
    rewrite F. cbn [set_overlays overlays selectedOverlayId set_selectedOverlayId].
    split; [| reflexivity].
    rewrite delete_take_drop, take_app_length.
    rewrite drop_ge by (rewrite length_app; simpl; lia).
    apply app_nil_r.
Qed.

Lemma removeOverlay_removes_witness :
  let st := addSticker (js "o2") (addTitle (js "o1") demoEditor) in
  let st' := removeOverlay (js "o1") st in
  (forall o, o ∈ overlays st' <->
             o ∈ overlays st /\ OverlayItem.id o <> js "o1") /\
  selectedOverlayId st' <> Some (js "o1") /\
  overlays (removeOverlay (js "o3") (addTitle (js "o3") st)) = overlays st.
Proof.
  intros st st'.
  assert (Hnd : NoDup (OverlayItem.id <$> overlays st)).
  { apply NoDup_cons. split; [| apply NoDup_singleton].
    intros H. apply list_elem_of_singleton in H. discriminate H. }
  destruct (removeOverlay_removes (js "o1") st Hnd) as (H1 & _ & H3 & _).
  destruct (removeOverlay_removes (js "o3") st Hnd) as (_ & _ & _ & _ & _ & H6).
  split; [exact H1 |]. split; [exact H3 |].
  apply H6. intros H.
  apply elem_of_cons in H as [H | H]; [discriminate H |].
  apply list_elem_of_singleton in H. discriminate H.
Defined.

(** X23.  The two seek buttons undo each other away from the ends of the
    timeline: stepping back by [delta] and forward by [delta] again gives
    the time the clock had, when it was at least [delta] and within the
    project; closer to the start the clock ends at [delta], or at the end
    of a project shorter than that. *)
Theorem seekBy_back_and_forth (delta : Q) (st : Editor) :
  0 <= delta ->
  0 <= currentTime st ->
  currentTime st <= projectDuration st ->
  let st' := seekBy delta (seekBy (- delta) st) in
  (delta <= currentTime st -> currentTime st' == currentTime st) /\
  (currentTime st <= delta ->
   currentTime st' == Qmin (projectDuration st) delta) /\
  clips st' = clips st /\ overlays st' = overlays st.
Proof.
  intros Hd H0 H1 st'.
  assert (E1 : currentTime (seekBy (- delta) st)
               = Qmin (projectDuration st) (Qmax 0 (currentTime st + - delta)))
    by reflexivity.
  assert (E2 : currentTime st'
               = Qmin (projectDuration st)
                   (Qmax 0 (currentTime (seekBy (- delta) st) + delta)))
    by reflexivity.
  rewrite E2, E1. clear E1 E2.
  split; [| split; [| split; reflexivity]].
  - intros H. minmax_cases; lra.
  - intros H. minmax_cases; lra.
Qed.

Lemma seekBy_back_and_forth_witness :
  currentTime (seekBy 2 (seekBy (- (2)) demoEditor)) == currentTime demoEditor.
Proof.
  apply (seekBy_back_and_forth 2 demoEditor); eval_Q.
Defined.

(* ------------------------------------------------------------------ *)
(** ** Rendering of a frame *)

(** X24.  [drawCover] scales a source with non-zero dimensions so that it
    covers the frame: the rectangle drawn keeps the aspect ratio of the
    source, is centred on the frame, reaches over or up to every edge of
    it, and fits it exactly in width or in height.  Nothing is drawn for a
    source with a zero dimension, such as a video without metadata. *)
Theorem drawCover_covers (source : CanvasImageSource) (width height : Q)
    (sourceWidth sourceHeight : Q) :
  source = HTMLVideoElement sourceWidth sourceHeight \/
  source = HTMLImageElement sourceWidth sourceHeight ->
  0 <= width -> 0 <= height ->
  (sourceWidth == 0 \/ sourceHeight == 0 -> drawCover source width height = None) /\
  (0 < sourceWidth -> 0 < sourceHeight ->
   exists d,
     drawCover source width height = Some d /\
     dWidth d * sourceHeight == dHeight d * sourceWidth /\
     dx d + dWidth d / 2 == width / 2 /\
     dy d + dHeight d / 2 == height / 2 /\
     dx d <= 0 /\ dy d <= 0 /\
     width <= dx d + dWidth d /\ height <= dy d + dHeight d /\
     (dWidth d == width \/ dHeight d == height)).
Proof.
  intros Hs Hw Hh.
  assert (E : drawCover source width height =
              if Qeq_bool sourceWidth 0 || Qeq_bool sourceHeight 0 then None
              else
                let scale := Qmax (width / sourceWidth) (height / sourceHeight) in
                Some (mkDrawImage ((width - sourceWidth * scale) / 2)
                        ((height - sourceHeight * scale) / 2)
                        (sourceWidth * scale) (sourceHeight * scale))).
  { now destruct Hs as [-> | ->]. }
  rewrite E. clear E Hs. split.
  - intros [H | H]; apply Qeq_bool_iff in H; rewrite H; [reflexivity |].
    now rewrite orb_true_r.
  - intros Hsw Hsh.
    assert (N1 : Qeq_bool sourceWidth 0 = false).
    { apply not_true_iff_false. intros H. apply Qeq_bool_iff in H. lra. }
    assert (N2 : Qeq_bool sourceHeight 0 = false).
    { apply not_true_iff_false. intros H. apply Qeq_bool_iff in H. lra. }
    rewrite N1, N2. cbn [orb]. cbv zeta. eexists. split; [reflexivity |].
    cbn [dx dy dWidth dHeight].
    assert (Ew : sourceWidth * (width / sourceWidth) == width) by (field; lra).
    assert (Eh : sourceHeight * (height / sourceHeight) == height) by (field; lra).
    set (a := width / sourceWidth) in *. set (b := height / sourceHeight) in *.
    assert (Hsc : (a <= b /\ Qmax a b == b) \/ (b <= a /\ Qmax a b == a)).
    { destruct (Qlt_le_dec b a) as [L | L].
      - right. split; [lra | apply Q.max_l; lra].
      - left. split; [exact L | now apply Q.max_r]. }
    set (s := Qmax a b) in *. clearbody s.
    assert (Hwa : width <= sourceWidth * s /\ height <= sourceHeight * s /\
                  (sourceWidth * s == width \/ sourceHeight * s == height)).
    { destruct Hsc as [[L ->] | [L ->]].
      - split; [| split; [lra | right; exact Eh]].
        rewrite <- Ew. apply Qmult_le_l; assumption.
      - split; [lra | split; [| left; exact Ew]].
        rewrite <- Eh. apply Qmult_le_l; assumption. }
    destruct Hwa as (H1 & H2 & H3).
    split; [ring |]. split; [field |]. split; [field |].
    assert (Q1 : (width - sourceWidth * s) / 2 * 2 == width - sourceWidth * s)
      by field.
    assert (Q2 : (height - sourceHeight * s) / 2 * 2 == height - sourceHeight * s)
      by field.
    set (q1 := (width - sourceWidth * s) / 2) in *.
    set (q2 := (height - sourceHeight * s) / 2) in *.
    set (w := sourceWidth * s) in *. set (h := sourceHeight * s) in *.
    clearbody q1 q2 w h.
    repeat split; try lra.
Qed.

(** A landscape video on the 1080 x 1920 frame of the export is drawn at
    full height and cropped left and right. *)
Lemma drawCover_covers_witness :
  exists d,
    drawCover (HTMLVideoElement 1920 1080) 1080 1920 = Some d /\
    dHeight d == 1920 /\ dx d <= 0 /\ 1080 <= dx d + dWidth d.
Proof.
  destruct (drawCover_covers (HTMLVideoElement 1920 1080) 1080 1920 1920 1080)
    as (_ & H); [now left | eval_Q | eval_Q |].
  destruct H as (d & Hd & _ & _ & _ & Hx & _ & Hw & _ & _); [eval_Q | eval_Q |].
  exists d. split; [exact Hd |]. split; [| split; [exact Hx | exact Hw]].
  injection Hd as <-. eval_Q.
Defined.

Lemma js_le_false (x y : Q) : js_le x y = false <-> y < x.
Proof.
  unfold js_le. rewrite <- not_true_iff_false, Qle_bool_iff.
  split; [apply Qnot_le_lt | apply Qlt_not_le].
Qed.

Lemma js_ge_false (x y : Q) : js_ge x y = false <-> x < y.
Proof.
  unfold js_ge. rewrite <- not_true_iff_false, Qle_bool_iff.
  split; [apply Qnot_le_lt | apply Qlt_not_le].
Qed.

Lemma getCaptionPopScale_cases (p : Q) :
  (p <= 0 \/ 1 <= p \/ (62 # 100) < p) /\ getCaptionPopScale p = 1 \/
  (0 < p /\ p <= (18 # 100)) /\
    getCaptionPopScale p = 1 + (22 # 100) * (p / (18 # 100)) \/
  ((18 # 100) < p /\ p <= (42 # 100)) /\
    getCaptionPopScale p
      = (122 # 100) - (24 # 100) * ((p - (18 # 100)) / (24 # 100)) \/
  ((42 # 100) < p /\ p <= (62 # 100)) /\
    getCaptionPopScale p
      = (98 # 100) + (2 # 100) * ((p - (42 # 100)) / (2 # 10)).
Proof.
  unfold getCaptionPopScale.
  destruct (js_le p 0) eqn:A.
  { apply js_le_true in A. left. cbn [orb]. tauto. }
  destruct (js_ge p 1) eqn:B.
  { apply js_ge_true in B. left. cbn [orb]. tauto. }
  cbn [orb]. apply js_le_false in A. apply js_ge_false in B.
  destruct (js_le p (18 # 100)) eqn:C.
  { apply js_le_true in C. right. left. tauto. }
  apply js_le_false in C.
  destruct (js_le p (42 # 100)) eqn:D.
  { apply js_le_true in D. right. right. left. tauto. }
  apply js_le_false in D.
  destruct (js_le p (62 # 100)) eqn:F.
  { apply js_le_true in F. right. right. right. tauto. }
  apply js_le_false in F. left. tauto.
Qed.

(** X25.  The pop animation of the active word never shrinks it below 0.98
    nor grows it above 1.22 of its size; the peak 1.22 is reached at
    progress 0.18 and the dip 0.98 at 0.42; the scale is 1 outside the
    open interval from 0 to 1 and from progress 0.62 on, where the last
    ramp has come back to 1. *)
Theorem getCaptionPopScale_bounds (progress : Q) :
  (98 # 100) <= getCaptionPopScale progress /\
  getCaptionPopScale progress <= (122 # 100) /\
  getCaptionPopScale (18 # 100) == (122 # 100) /\
  getCaptionPopScale (42 # 100) == (98 # 100) /\
  (progress <= 0 \/ (62 # 100) <= progress -> getCaptionPopScale progress == 1).
Proof.
  assert (E1 : progress / (18 # 100) == progress * (100 # 18)) by (field; lra).
  assert (E2 : (progress - (18 # 100)) / (24 # 100)
               == (progress - (18 # 100)) * (100 # 24)) by (field; lra).
  assert (E3 : (progress - (42 # 100)) / (2 # 10)
               == (progress - (42 # 100)) * 5) by (field; lra).
  split; [| split; [| split; [eval_Q | split; [eval_Q |]]]].
  - destruct (getCaptionPopScale_cases progress)
      as [[_ ->] | [[H ->] | [[H ->] | [H ->]]]];
      [lra | rewrite E1 | rewrite E2 | rewrite E3]; lra.
  - destruct (getCaptionPopScale_cases progress)
      as [[_ ->] | [[H ->] | [[H ->] | [H ->]]]];
      [lra | rewrite E1 | rewrite E2 | rewrite E3]; lra.
  - intros H.
    destruct (getCaptionPopScale_cases progress)
      as [[_ ->] | [[H' ->] | [[H' ->] | [H' ->]]]];
      [lra | rewrite E1 | rewrite E2 | rewrite E3]; lra.
Qed.

(** X26.  A frame of the export, taken at a time [elapsed] before the end
    of the project.  A media element whose clip is on plays and is within
    0.3 s of the clip-local position; it is sought only when it had drifted
    by more than that, and then to the exact position; an element whose
    clip is off is paused and not sought.  The progress reported is the
    whole percentage of the project rendered, at most 99 (the cap of the
    code never applies), and does not go down as time goes on. *)
Theorem export_frame (elapsed later total : Q) (clip : Clip.t)
    (media : Media.t) :
  0 <= elapsed -> elapsed <= later -> later < total ->
  let local := elapsed - Clip.start clip + Clip.sourceOffset clip in
  let media' := exportSyncElement elapsed clip media in
  (clipActive elapsed clip ->
   Media.paused media' = false /\
   Qabs (Media.currentTime media' - local) <= (3 # 10) /\
   (Qabs (Media.currentTime media - local) <= (3 # 10) ->
    Media.currentTime media' = Media.currentTime media /\
    Media.seekLog media' = Media.seekLog media) /\
   ((3 # 10) < Qabs (Media.currentTime media - local) ->
    Media.currentTime media' = local)) /\
  (~ clipActive elapsed clip ->
   Media.paused media' = true /\
   Media.currentTime media' = Media.currentTime media /\
   Media.seekLog media' = Media.seekLog media) /\
  Media.volume media' = Media.volume media /\
  frameProgress elapsed total
    = inject_Z (Qfloor (elapsed / total * 100)) /\
  0 <= frameProgress elapsed total /\
  frameProgress elapsed total <= 99 /\
  frameProgress elapsed total <= frameProgress later total.
Proof.
  intros H0 Hl Hp local media'.
  assert (Hsync :
    (clipActive elapsed clip ->
     Media.paused media' = false /\
     Qabs (Media.currentTime media' - local) <= (3 # 10) /\
     (Qabs (Media.currentTime media - local) <= (3 # 10) ->
      Media.currentTime media' = Media.currentTime media /\
      Media.seekLog media' = Media.seekLog media) /\
     ((3 # 10) < Qabs (Media.currentTime media - local) ->
      Media.currentTime media' = local)) /\
    (~ clipActive elapsed clip ->
     Media.paused media' = true /\
     Media.currentTime media' = Media.currentTime media /\
     Media.seekLog media' = Media.seekLog media) /\
    Media.volume media' = Media.volume media).
  { unfold media', exportSyncElement, clipActive. fold local.
    destruct (inRange elapsed (Clip.start clip) (Clip.duration clip)) eqn:R.
    - apply inRange_true in R. split; [| split].
      + intros _.
        destruct (js_gt (Qabs (Media.currentTime media - local)) (3 # 10)) eqn:G.
        * apply js_gt_true in G. unfold Media.play, Media.set_currentTime.
          cbn [Media.currentTime Media.paused Media.seekLog Media.volume].
          split; [reflexivity |]. split.
          { apply Qabs_case; intros; lra. }
          split; [intros H; lra | reflexivity].
        * apply js_gt_false in G. unfold Media.play.
          cbn [Media.currentTime Media.paused Media.seekLog Media.volume].
          split; [reflexivity |]. split; [exact G |].
          split; [now split | intros H; lra].
      + intros Hn. contradiction.
      + now destruct (js_gt _ _).
    - apply inRange_false in R. split; [| split].
      + intros Ha. contradiction.
      + intros _. now cbn.
      + reflexivity. }
  destruct Hsync as (S1 & S2 & S3).
  split; [exact S1 |]. split; [exact S2 |]. split; [exact S3 |].
  assert (Hpos : 0 < total) by lra.
  assert (Fr : forall t, 0 <= t -> t < total ->
                 0 <= inject_Z (Qfloor (t / total * 100)) /\
                 inject_Z (Qfloor (t / total * 100)) <= 99).
  { intros t T0 T1.
    assert (A : 0 <= t / total * 100).
    { apply Qmult_le_0_compat; [| discriminate].
      apply Qle_shift_div_l; lra. }
    assert (B : t / total * 100 < 100).
    { assert (t / total < 1) by (apply Qlt_shift_div_r; lra). lra. }
    split.
    - change 0 with (inject_Z 0). rewrite <- Zle_Qle.
      pose proof (Qfloor_resp_le (inject_Z 0) _ A) as F0.
      now rewrite Qfloor_Z in F0.
    - change 99 with (inject_Z 99). rewrite <- Zle_Qle.
      assert (Qfloor (t / total * 100) < 100)%Z; [| lia].
      apply Z.nle_gt. intros C. rewrite Zle_Qle in C.
      pose proof (Qfloor_le (t / total * 100)) as D.
      change (inject_Z 100) with 100 in C. lra. }
  assert (Ff : forall t, 0 <= t -> t < total ->
                 frameProgress t total
                 = inject_Z (Qfloor (t / total * 100))).
  { intros t T0 T1. unfold frameProgress.
    destruct (Fr t T0 T1) as [_ B].
    unfold Qmin. unfold GenericMinMax.gmin.
    destruct (99 ?= inject_Z (Qfloor (t / total * 100))) eqn:C;
      [| | reflexivity].
    - apply Qeq_alt in C. change 99 with (inject_Z 99) in C |- *.
      apply (proj1 (inject_Z_injective _ _)) in C. f_equal. exact C.
    - apply Qlt_alt in C. lra. }
  rewrite (Ff elapsed) by lra. rewrite (Ff later) by lra.
  destruct (Fr elapsed) as [A B]; [lra | lra |].
  split; [reflexivity |]. split; [exact A |]. split; [exact B |].
  rewrite <- Zle_Qle. apply Qfloor_resp_le.
  apply Qmult_le_compat_r; [| discriminate].
  apply Qmult_le_compat_r; [exact Hl |].
  apply Qinv_le_0_compat. lra.
Qed.

(** Half a second into a two second project, a video placed at 0 whose
    element is still at its start. *)
Lemma export_frame_witness :
  let media' := exportSyncElement (1 # 2) demoVideo (Media.mk 0 1 true []) in
  Media.paused media' = false /\
  frameProgress (1 # 2) 2 = 25 /\
  frameProgress (1 # 2) 2 <= frameProgress 1 2.
Proof.
  intros media'.
  destruct (export_frame (1 # 2) 1 2 demoVideo (Media.mk 0 1 true []))
    as (S1 & _ & _ & F1 & _ & _ & F4); [eval_Q | eval_Q | eval_Q |].
  split; [| split; [| exact F4]].
  - apply S1. split; eval_Q.
  - rewrite F1. reflexivity.
Defined.

(* ------------------------------------------------------------------ *)
(** ** The conversion endpoint and the export pipeline *)

Lemma getCaptionPopScale_bounds_witness :
  getCaptionPopScale (7 # 10) == 1.
Proof.
  apply (getCaptionPopScale_bounds (7 # 10)). right. eval_Q.
Defined.

Ltac not_in_trace H :=
  repeat (apply elem_of_cons in H as [H | H]; [discriminate H |]);
  apply elem_of_nil in H; contradiction.

(** X27.  The conversion endpoint ends in one of three ways.  It throws
    before it touches the disk: the effects are none (so it is when the
    request body cannot be read, is empty, or the transcoder is missing).
    Or it asks for a temporary directory under the system's temporary
    directory, fails to get one, and throws that error with nothing to
    clean up.  Or it gets the directory, writes the request body into it,
    and ends by removing that directory, whether the write and the
    transcoder succeeded or not.  It answers with bytes only when the write
    succeeded, the transcoder exited with code 0 and left an output file,
    and the removal succeeded, and the bytes are that file; the MP4 content
    type is set only when the transcoder exited with code 0 and left an
    output file; and the output file is not read unless the transcoder
    exited with code 0. *)
Theorem exportMp4Handler_cleans_up (env : Server) (chunks : list (list N))
    (streamError : option Thrown) :
  let input := concat chunks in
  let trace := fst (exportMp4Endpoint env chunks streamError) in
  let result := snd (exportMp4Endpoint env chunks streamError) in
  let asked := Mkdtemp (join (tmpdir env) (js "vidmaker-")) in
  (trace = [] /\ exists error, result = inl error) \/
  (trace = [asked] /\
   exists error, mkdtemp env = inl error /\ result = inl error) \/
  (exists tempDir middle,
     mkdtemp env = inr tempDir /\
     trace = asked :: WriteFile (join tempDir (js "input.webm")) input
             :: middle ++ [Rm tempDir] /\
     (forall output, result = inr output ->
        writeFile env = None /\ rm env = None /\
        exists stderr, ffmpeg env input = Closed 0 stderr (Some output)) /\
     (forall n v, SetHeader n v ∈ middle ->
        n = js "content-type" /\ v = js "video/mp4" /\
        writeFile env = None /\
        exists stderr output, ffmpeg env input = Closed 0 stderr (Some output)) /\
     (forall path, ReadFile path ∈ middle ->
        writeFile env = None /\
        exists stderr output, ffmpeg env input = Closed 0 stderr output)).
Proof.
  intros input trace result asked.
  unfold trace, result, exportMp4Endpoint.
  destruct streamError as [e |]; [left; split; [reflexivity | eauto] |].
  unfold exportMp4Handler. fold input.
  destruct (length input =? 0)%nat; [left; split; [reflexivity | eauto] |].
  destruct (ffmpegStatic env) as [[|c p] |];
    [left; split; [reflexivity | eauto] | | left; split; [reflexivity | eauto]].
  right. fold asked.
  destruct (mkdtemp env) as [e | tempDir];
    [left; split; [reflexivity | eauto] |].
  right. exists tempDir.
  destruct (writeFile env) as [e |].
  { exists []. split; [reflexivity |].
    split; [now destruct (rm env) |]. split; [| split].
    - intros o H. destruct (rm env); discriminate H.
    - intros n v H. inversion H.
    - intros path H. inversion H. }
  unfold runFfmpeg.
  destruct (ffmpeg env input) as [m | code stderr output] eqn:F.
  - eexists [_]. split; [reflexivity |].
    split; [now destruct (rm env) |]. split; [| split].
    + intros o H. destruct (rm env); discriminate H.
    + intros n v H. not_in_trace H.
    + intros path H. not_in_trace H.
  - destruct (code =? 0)%Z eqn:C.
    + apply Z.eqb_eq in C. subst code.
      destruct output as [out |].
      * eexists [_; _; _]. split; [reflexivity |].
        split; [now destruct (rm env) |]. split; [| split].
        -- intros o H. destruct (rm env); [discriminate H |].
           injection H as <-. repeat split. now exists stderr.
        -- intros n v H.
           apply elem_of_cons in H as [H | H]; [discriminate H |].
           apply elem_of_cons in H as [H | H]; [discriminate H |].
           apply list_elem_of_singleton in H. injection H as -> ->.
           repeat split. eauto.
        -- intros path H. split; [reflexivity | eauto].
      * eexists [_; _]. split; [reflexivity |].
        split; [now destruct (rm env) |]. split; [| split].
        -- intros o H. destruct (rm env); discriminate H.
        -- intros n v H. not_in_trace H.
        -- intros path H. split; [reflexivity | eauto].
    + assert (Hr : forall path, ReadFile path ∉ [Spawn (c :: p)
                     [js "-y"; js "-i"; join tempDir (js "input.webm"); js "-c:v";
                      js "libx264"; js "-preset"; js "veryfast"; js "-pix_fmt";
                      js "yuv420p"; js "-c:a"; js "aac"; js "-movflags";
                      js "faststart"; join tempDir (js "output.mp4")]]).
      { intros path H. not_in_trace H. }
      destruct (truthy stderr).
      * eexists [_]. split; [reflexivity |].
        split; [now destruct (rm env) |]. split; [| split].
        -- intros o H. destruct (rm env); discriminate H.
        -- intros n v H. not_in_trace H.
        -- intros path H. now apply Hr in H.
      * eexists [_]. split; [reflexivity |].
        split; [now destruct (rm env) |]. split; [| split].
        -- intros o H. destruct (rm env); discriminate H.
        -- intros n v H. not_in_trace H.
        -- intros path H. now apply Hr in H.
Qed.

(** A transcoder that exits with code 1: the directory is removed, and the
    output is not read. *)
Lemma exportMp4Handler_cleans_up_witness :
  let env := mkServer (Some (js "/usr/bin/ffmpeg")) (js "/tmp")
               (inr (js "/tmp/vidmaker-1")) None
               (fun _ => Closed 1 (js "Invalid data") None) None in
  exists middle,
    fst (exportMp4Endpoint env [[0%N]] None)
      = Mkdtemp (js "/tmp/vidmaker-")
        :: WriteFile (js "/tmp/vidmaker-1/input.webm") [0%N]
        :: middle ++ [Rm (js "/tmp/vidmaker-1")] /\
    forall path, ReadFile path ∉ middle.
Proof.
  intros env.
  destruct (exportMp4Handler_cleans_up env [[0%N]] None)
    as [[H _] | [[H _] | (tempDir & middle & Hd & Ht & _ & _ & Hr)]];
    [discriminate H | discriminate H |].
  injection Hd as <-.
  exists middle. split; [exact Ht |].
  intros path H. apply Hr in H as (_ & stderr & output & H). discriminate H.
Defined.

Lemma convertWebmToMp4_result (network : list N -> FetchOutcome)
    (webmBlob mp4Blob : Blob.t) :
  snd (convertWebmToMp4 network webmBlob) = inr mp4Blob <->
  exists response,
    Blob.size webmBlob <> 0%nat /\
    network (Blob.bytes webmBlob) = Responded response /\
    Response.ok response = true /\
    mp4Blob = Blob.mk (Response.arrayBuffer response) (js "video/mp4").
Proof.
  unfold convertWebmToMp4, withTimeout, fetch.
  destruct (Blob.size webmBlob =? 0)%nat eqn:S.
  - apply Nat.eqb_eq in S. split; [discriminate |].
    intros (r & Hs & _). contradiction.
  - apply Nat.eqb_neq in S.
    destruct (network (Blob.bytes webmBlob)) as [response | m |]; cbn.
    + destruct (Response.ok response) eqn:O; cbn.
      * split.
        -- intros H. injection H as <-. exists response. auto.
        -- intros (r & _ & Hr & _ & ->). now injection Hr as <-.
      * split.
        -- intros H. destruct (truthy (Response.text response)); discriminate H.
        -- intros (r & _ & Hr & Ho & _). injection Hr as <-. congruence.
    + split; [discriminate |]. intros (r & _ & Hr & _). discriminate Hr.
    + split; [discriminate |]. intros (r & _ & Hr & _). discriminate Hr.
Qed.

Lemma convertWebmToMp4_one_request (network : list N -> FetchOutcome)
    (webmBlob : Blob.t) :
  (length (fst (convertWebmToMp4 network webmBlob)) <= 1)%nat.
Proof.
  unfold convertWebmToMp4, withTimeout, fetch.
  destruct (Blob.size webmBlob =? 0)%nat; [cbn; lia |].
  destruct (network (Blob.bytes webmBlob)) as [response | m |]; cbn; try lia.
  destruct (Response.ok response); cbn; [lia |].
  destruct (truthy (Response.text response)); cbn; lia.
Qed.

(** X28.  The MP4 export.  A click while an export runs, or on a project
    of duration 0, changes nothing and issues no request.  Otherwise
    playback is stopped, the clips are untouched and at most one request is
    issued.  A file is downloaded exactly when stopping the playback did
    not throw, the recording gave a blob that is not empty and the endpoint
    answered it with an ok response; the file is then the body of that
    response as an MP4 blob, under the name made from the current date;
    and the status line reads "MP4 export complete." exactly when a file
    was downloaded.  When no clip has an output volume above 1, the export
    button is released however the recording and the conversion end (stage
    idle, not exporting).  But when a registered video or audio clip has
    an output volume above 1, stopping the playback throws before the
    [try] block is entered: the export stays marked as running, in stage
    render, nothing is requested or downloaded, and so every later click
    does nothing. *)
Theorem exportMp4_pipeline
    (renderProjectToWebm : Editor -> list Q * (Thrown + Blob.t))
    (network : list N -> FetchOutcome) (String_ : Thrown -> jsstring)
    (isoNow : jsstring) (x : Exporter) :
  let out := exportMp4 renderProjectToWebm network String_ isoNow x in
  let x' := fst (fst out) in
  let requests := snd (fst out) in
  let download := snd out in
  (isExportingMp4 x = true \/ projectDuration (page (player x)) == 0 ->
   out = (x, [], None)) /\
  (isExportingMp4 x = false -> ~ projectDuration (page (player x)) == 0 ->
   isPlaying (page (player x')) = false /\
   clips (page (player x')) = clips (page (player x)) /\
   (length requests <= 1)%nat /\
   (forall blob name,
      download = Some (blob, name) <->
      exists webmBlob response,
        stopPlayback_throws (player x) = false /\
        snd (renderProjectToWebm (page (stopPlayback (player x)))) = inr webmBlob /\
        Blob.size webmBlob <> 0%nat /\
        network (Blob.bytes webmBlob) = Responded response /\
        Response.ok response = true /\
        blob = Blob.mk (Response.arrayBuffer response) (js "video/mp4") /\
        name = exportFileName isoNow) /\
   (statusMessage x' = js "MP4 export complete." <-> download <> None) /\
   (download <> None -> exportProgress x' = 100) /\
   (Forall playable (clips (page (player x))) ->
    isExportingMp4 x' = false /\ mp4Stage x' = Mp4Stage.idle) /\
   (forall clip,
      clip ∈ clips (page (player x)) ->
      Clip.kind clip <> image ->
      is_Some (refsFor clip (page (player x)) !! Clip.id clip) ->
      1 < getOutputVolume clip ->
      isExportingMp4 x' = true /\ mp4Stage x' = Mp4Stage.render /\
      requests = [] /\ download = None /\
      exportMp4 renderProjectToWebm network String_ isoNow x' = (x', [], None))).
Proof.
  intros out x' requests download. split.
  - intros H. unfold out, exportMp4.
    destruct H as [-> | H]; [reflexivity |].
    apply Qeq_bool_iff in H. rewrite H. now rewrite orb_true_r.
  - intros He Hd.
    assert (Hq : Qeq_bool (projectDuration (page (player x))) 0 = false).
    { apply not_true_iff_false. intros H. now apply Qeq_bool_iff in H. }
    assert (Hplayable : Forall playable (clips (page (player x))) ->
                        stopPlayback_throws (player x) = false).
    { intros Hpl. unfold stopPlayback_throws.
      now apply (syncPreviewMedia_completes true (set_isPlaying false (page (player x)))). }
    assert (Hloud : forall clip,
              clip ∈ clips (page (player x)) ->
              Clip.kind clip <> image ->
              is_Some (refsFor clip (page (player x)) !! Clip.id clip) ->
              1 < getOutputVolume clip ->
              stopPlayback_throws (player x) = true).
    { intros clip Hin Hk Hreg Hv. unfold stopPlayback_throws.
      apply (syncPreviewMedia_throws_loud true _ clip); [exact Hin | exact Hk | | now right].
      unfold refsFor in *. now destruct (Clip.kind clip). }
    unfold download, requests, x', out, exportMp4. rewrite He, Hq. cbn [orb].
    set (p := stopPlayback (player x)).
    assert (Hp : isPlaying (page p) = false /\ clips (page p) = clips (page (player x))).
    { split; reflexivity. }
    destruct Hp as [Hp1 Hp2].
    destruct (stopPlayback_throws (player x)) eqn:T.
    { cbn [fst snd isExportingMp4 mp4Stage player statusMessage exportProgress].
      split; [exact Hp1 |]. split; [exact Hp2 |]. split; [cbn; lia |].
      split; [| split; [| split; [| split]]].
      - intros blob name. split; [discriminate |].
        intros (w & r & Hw & _). discriminate Hw.
      - split; [intros H; discriminate H | intros H; now contradiction H].
      - intros H. now contradiction H.
      - intros Hpl. specialize (Hplayable Hpl). discriminate Hplayable.
      - intros clip _ _ _ _. repeat split. }
    assert (Hquiet : forall clip,
              clip ∈ clips (page (player x)) ->
              Clip.kind clip <> image ->
              is_Some (refsFor clip (page (player x)) !! Clip.id clip) ->
              1 < getOutputVolume clip -> False).
    { intros clip Hin Hk Hreg Hv. specialize (Hloud clip Hin Hk Hreg Hv).
      discriminate Hloud. }
    destruct (renderProjectToWebm (page p)) as [reports [error | webmBlob]] eqn:R.
    + cbn [fst snd]. cbn [isExportingMp4 mp4Stage player statusMessage exportProgress].
      split; [exact Hp1 |]. split; [exact Hp2 |]. split; [cbn; lia |].
      split; [| split; [| split; [| split]]].
      * intros blob name. split; [discriminate |].
        intros (w & r & _ & Hw & _). discriminate Hw.
      * split; [intros H; discriminate H | intros H; now contradiction H].
      * intros H. now contradiction H.
      * intros _. now split.
      * intros clip Hin Hk Hreg Hv. destruct (Hquiet clip Hin Hk Hreg Hv).
    + pose proof (convertWebmToMp4_result network webmBlob) as Hres.
      pose proof (convertWebmToMp4_one_request network webmBlob) as Hone.
      destruct (convertWebmToMp4 network webmBlob) as [reqs [error | mp4Blob]].
      * cbn [fst snd] in *.
        cbn [isExportingMp4 mp4Stage player statusMessage exportProgress].
        split; [exact Hp1 |]. split; [exact Hp2 |]. split; [exact Hone |].
        split; [| split; [| split; [| split]]].
        -- intros blob name. split; [discriminate |].
           intros (w & r & _ & Hw & Hs & Hn & Ho & Hb & _). injection Hw as <-.
           assert (C : @inl Thrown Blob.t error = inr blob);
             [| discriminate C].
           apply Hres. now exists r.
        -- split; [intros H; discriminate H | intros H; now contradiction H].
        -- intros H. now contradiction H.
        -- intros _. now split.
        -- intros clip Hin Hk Hreg Hv. destruct (Hquiet clip Hin Hk Hreg Hv).
      * cbn [fst snd] in *.
        cbn [isExportingMp4 mp4Stage player statusMessage exportProgress].
        split; [exact Hp1 |]. split; [exact Hp2 |]. split; [exact Hone |].
        destruct (proj1 (Hres mp4Blob) eq_refl) as (r & Hs & Hn & Ho & Hb).
        split; [| split; [| split; [| split]]].
        -- intros blob name. split.
           ++ intros H. injection H as <- <-. exists webmBlob, r.
              repeat split; auto.
           ++ intros (w & r' & _ & Hw & _ & Hn' & _ & -> & ->). injection Hw as <-.
              rewrite Hn in Hn'. injection Hn' as <-. now rewrite Hb.
        -- split; [discriminate | reflexivity].
        -- reflexivity.
        -- intros _. now split.
        -- intros clip Hin Hk Hreg Hv. destruct (Hquiet clip Hin Hk Hreg Hv).
Qed.

(** The demo project is recorded, converted and downloaded. *)
Lemma exportMp4_pipeline_witness :
  let out := exportMp4 demoRender demoNetwork demoString
               (js "2026-01-02T03:04:05.678Z") demoExporter in
  snd out = Some (Blob.mk [2%N; 3%N] (js "video/mp4"),
                  js "vidmaker-export-2026-01-02T03-04-05-678Z.mp4") /\
  isExportingMp4 (fst (fst out)) = false /\
  statusMessage (fst (fst out)) = js "MP4 export complete.".
Proof.
  intros out.
  destruct (exportMp4_pipeline demoRender demoNetwork demoString
              (js "2026-01-02T03:04:05.678Z") demoExporter) as [_ H].
  destruct H as (_ & _ & _ & H4 & H5 & _ & H7 & _).
  - reflexivity.
  - intros E. apply Qeq_bool_iff in E. vm_compute in E. discriminate E.
  - assert (D : snd out = Some (Blob.mk [2%N; 3%N] (js "video/mp4"),
                  js "vidmaker-export-2026-01-02T03-04-05-678Z.mp4")).
    { apply H4. eexists _, _. repeat split; try reflexivity. discriminate. }
    split; [exact D |]. split; [apply H7, demoEditor_playable |].
    apply H5. unfold out in D. rewrite D. discriminate.
Defined.

(** The demo project after the volume of its video has been set to 1.5 in
    the inspector: the export stays locked. *)
Example exportMp4_locked_by_loud_clip :
  let st :=
    updateSelectedClipField field_volume (Finite (3 # 2))
      (set_selectedClipId (Some (js "v1")) demoEditor) in
  let x := mkExporter (mkPlayer st 0 false) false Mp4Stage.idle 0 0 [] in
  let out := exportMp4 demoRender demoNetwork demoString
               (js "2026-01-02T03:04:05.678Z") x in
  isExportingMp4 (fst (fst out)) = true /\
  mp4Stage (fst (fst out)) = Mp4Stage.render /\
  snd out = None.
Proof. vm_compute. repeat split. Qed.

(* ------------------------------------------------------------------ *)
(** ** The draft in the browser's store *)

Lemma restoreClip_storeClip (url : jsstring) (clip : Clip.t) :
  restoreClip url (storeClip clip) = withUrl url clip.
Proof. reflexivity. Qed.

Lemma restoreClips_stored (createUrl : list N -> jsstring)
    (files : gmap jsstring StoredFileRecord.t) (l restored : list Clip.t) :
  restoreClips createUrl (getFileFrom files) (storeClip <$> l) restored
  = inr (restored ++
         omap (fun clip =>
                 (fun fileRecord =>
                    withUrl (createUrl (StoredFileRecord.blob fileRecord)) clip)
                 <$> files !! Clip.fileId clip) l).
Proof.
  revert restored. induction l as [|clip l IH]; intros restored.
  - cbn. now rewrite app_nil_r.
  - rewrite fmap_cons. cbn [restoreClips omap list_omap]. unfold getFileFrom at 1.
    change (StoredClip.fileId (storeClip clip)) with (Clip.fileId clip).
    destruct (files !! Clip.fileId clip) as [fileRecord |]; cbn [fmap option_fmap option_map].
    + rewrite IH, restoreClip_storeClip, <- app_assoc. reflexivity.
    + apply IH.
Qed.

Lemma restoreClips_throws (createUrl : list N -> jsstring)
    (getFile : jsstring -> Thrown + option StoredFileRecord.t)
    (stored : list StoredClip.t) (restored : list Clip.t) :
  (exists storedClip error,
     storedClip ∈ stored /\ getFile (StoredClip.fileId storedClip) = inl error) ->
  exists error, restoreClips createUrl getFile stored restored = inl error.
Proof.
  revert restored. induction stored as [|s stored IH]; intros restored (c & e & Hin & He).
  - inversion Hin.
  - cbn [restoreClips].
    destruct (getFile (StoredClip.fileId s)) as [e' | [fileRecord |]] eqn:G.
    + now exists e'.
    + apply elem_of_cons in Hin as [-> | Hin]; [congruence |]. apply IH. eauto.
    + apply elem_of_cons in Hin as [-> | Hin]; [congruence |]. apply IH. eauto.
Qed.

Lemma restoreClips_no_files (createUrl : list N -> jsstring)
    (getFile : jsstring -> Thrown + option StoredFileRecord.t)
    (stored : list StoredClip.t) (restored : list Clip.t) :
  (forall storedClip, storedClip ∈ stored ->
                      getFile (StoredClip.fileId storedClip) = inr None) ->
  restoreClips createUrl getFile stored restored = inr restored.
Proof.
  revert restored. induction stored as [|s stored IH]; intros restored H;
    [reflexivity |].
  cbn [restoreClips]. rewrite (H s) by left. apply IH.
  intros c Hc. apply H. now right.
Qed.

Lemma clampPercent_bounds (value : jsnum) (fallback : Q) :
  0 <= fallback -> fallback <= 100 ->
  0 <= clampPercent value fallback /\ clampPercent value fallback <= 100.
Proof.
  intros H0 H1. destruct value as [v |]; cbn [clampPercent]; [| now split].
  split; minmax_cases; lra.
Qed.

Lemma clampCaptionSizePercent_bounds (value : jsnum) :
  (50 <= clampCaptionSizePercent value 100 /\
   clampCaptionSizePercent value 100 <= 220) /\
  exists z, clampCaptionSizePercent value 100 == inject_Z z.
Proof.
  destruct value as [v |]; cbn [clampCaptionSizePercent].
  - unfold CAPTION_SIZE_MAX, CAPTION_SIZE_MIN. split.
    + split; minmax_cases; lra.
    + destruct (Q.min_spec 220 (Qmax 50 (Math_round v))) as [[_ E] | [_ E]].
      * exists 220%Z. exact E.
      * destruct (Q.max_spec 50 (Math_round v)) as [[_ F] | [_ F]].
        -- exists (Qfloor (v + (1 # 2))). rewrite E, F. reflexivity.
        -- exists 50%Z. rewrite E, F. reflexivity.
  - split; [split; discriminate | now exists 100%Z].
Qed.

Lemma Math_round_int (z : Z) : Math_round (inject_Z z) == inject_Z z.
Proof.
  unfold Math_round.
  assert (E : Qfloor (inject_Z z + (1 # 2)) = z).
  { apply Z.le_antisymm.
    - assert (Qfloor (inject_Z z + (1 # 2)) < z + 1)%Z; [| lia].
      apply Z.nle_gt. intros C. rewrite Zle_Qle in C.
      pose proof (Qfloor_le (inject_Z z + (1 # 2))) as D.
      rewrite inject_Z_plus in C. change (inject_Z 1) with 1 in C. lra.
    - rewrite <- (Qfloor_Z z) at 1. apply Qfloor_resp_le. lra. }
  now rewrite E.
Qed.

Lemma Math_round_fixed (x : Q) (z : Z) :
  x == inject_Z z -> Math_round x == x.
Proof.
  intros H. unfold Math_round.
  rewrite (Qfloor_comp _ _ (Qplus_comp _ _ H _ _ (Qeq_refl (1 # 2)))).
  eapply Qeq_trans; [apply (Math_round_int z) | symmetry; exact H].
Qed.

Lemma restoreDraft_settings (uuid : nat -> jsstring)
    (createUrl : list N -> jsstring) (project : StoredProject.t)
    (getFile : jsstring -> Thrown + option StoredFileRecord.t) (d : Draft) :
  settingsInvariant (settings d) ->
  settingsInvariant
    (settings (restoreDraft uuid createUrl (inr (Some project)) getFile d)).
Proof.
  intros Hd. unfold restoreDraft.
  destruct (restoreClips _ _ _ _) as [e | restored]; [exact Hd |].
  cbn [settings]. unfold settingsInvariant.
  cbn [captionPositionX captionPositionY captionSizePercent].
  split; [apply clampPercent_bounds; discriminate |].
  split; [apply clampPercent_bounds; discriminate |].
  apply clampCaptionSizePercent_bounds.
Qed.

(** X29.  A draft saved and read back.  Once the page has restored,
    [saveDraft] puts the payload into the store and records its time.
    Restoring from that payload gives: the clips whose file is still in the
    file store, in their order and with every field as it was except for a
    fresh object URL; the overlays as they were; the captions as
    [normalizeStoredCaptionCues] reads the saved cues; caption settings
    within their bounds, and equal to the saved ones if those were within
    bounds; the time of the save; and a page marked as restored. *)
Theorem draft_round_trip (uuid : nat -> jsstring)
    (createUrl : list N -> jsstring) (now : Q)
    (putProject : StoredProject.t -> Thrown + unit)
    (files : gmap jsstring StoredFileRecord.t) (d blank : Draft) :
  hasRestoredDraft d = true ->
  putProject (draftPayload now d) = inr tt ->
  let saved := saveDraft now putProject d in
  let d' :=
    restoreDraft uuid createUrl (inr (Some (draftPayload now d)))
      (getFileFrom files) blank in
  snd saved = inr (Some (draftPayload now d)) /\
  draftSavedAt (fst saved) = Some now /\
  workspace (fst saved) = workspace d /\
  clips (workspace d')
    = omap (fun clip =>
              (fun fileRecord =>
                 withUrl (createUrl (StoredFileRecord.blob fileRecord)) clip)
              <$> files !! Clip.fileId clip)
        (clips (workspace d)) /\
  overlays (workspace d') = overlays (workspace d) /\
  captions (workspace d')
    = normalizeStoredCaptionCues uuid (storeCue <$> captions (workspace d)) /\
  settingsInvariant (settings d') /\
  (settingsInvariant (settings d) -> sameSettings (settings d') (settings d)) /\
  draftSavedAt d' = Some now /\
  hasRestoredDraft d' = true.
Proof.
  intros Hr Hput saved d'.
  assert (Hs : saved = (mkDraft (workspace d) (settings d) (Some now)
                          (hasRestoredDraft d),
                        inr (Some (draftPayload now d)))).
  { unfold saved, saveDraft. now rewrite Hr, Hput. }
  rewrite Hs. cbn [fst snd draftSavedAt workspace].
  do 3 (split; [reflexivity |]).
  unfold d', restoreDraft.
  change (StoredProject.clips (draftPayload now d))
    with (storeClip <$> clips (workspace d)).
  rewrite restoreClips_stored, app_nil_l.
  cbn [workspace clips overlays captions settings draftSavedAt hasRestoredDraft].
  do 3 (split; [reflexivity |]).
  split; [| split; [| now split]].
  - unfold settingsInvariant.
    cbn [captionPositionX captionPositionY captionSizePercent].
    split; [apply clampPercent_bounds; discriminate |].
    split; [apply clampPercent_bounds; discriminate |].
    apply clampCaptionSizePercent_bounds.
  - intros ((X0 & X1) & (Y0 & Y1) & (S0 & S1) & z & Hz).
    unfold sameSettings.
    cbn [captionStyleId captionPositionX captionPositionY captionSizePercent
         captionLetterCase].
    cbn [draftPayload StoredProject.captionStyleId StoredProject.captionPositionX
         StoredProject.captionPositionY StoredProject.captionSizePercent
         StoredProject.captionLetterCase default from_option id
         parseCaptionLetterCase].
    split; [reflexivity |].
    assert (Cp : forall v, 0 <= v -> v <= 100 ->
                   clampPercent (Finite v) 50 == v /\ clampPercent (Finite v) 88 == v).
    { intros v V0 V1. cbn [clampPercent]. split; minmax_cases; lra. }
    assert (Cs : clampCaptionSizePercent (Finite (captionSizePercent (settings d))) 100
                 == captionSizePercent (settings d)).
    { cbn [clampCaptionSizePercent]. unfold CAPTION_SIZE_MAX, CAPTION_SIZE_MIN.
      assert (M : Math_round (captionSizePercent (settings d))
                  == captionSizePercent (settings d)).
      { exact (Math_round_fixed _ z Hz). }
      set (m := Math_round (captionSizePercent (settings d))) in *. clearbody m.
      minmax_cases; lra. }
    assert (Cx := proj1 (Cp _ X0 X1)). assert (Cy := proj2 (Cp _ Y0 Y1)).
    split; [| split; [| split; [| reflexivity]]].
    + destruct (Cp (clampPercent (Finite (captionPositionX (settings d))) 50))
        as [E _]; [rewrite Cx; lra | rewrite Cx; lra |].
      rewrite E. exact Cx.
    + destruct (Cp (clampPercent (Finite (captionPositionY (settings d))) 88))
        as [_ E]; [rewrite Cy; lra | rewrite Cy; lra |].
      rewrite E. exact Cy.
    + set (s1 := clampCaptionSizePercent (Finite (captionSizePercent (settings d))) 100)
        in *.
      cbn [clampCaptionSizePercent]. unfold CAPTION_SIZE_MAX, CAPTION_SIZE_MIN.
      assert (M : Math_round s1 == s1).
      { apply (Math_round_fixed _ z). eapply Qeq_trans; [exact Cs | exact Hz]. }
      set (m := Math_round s1) in *. clearbody m s1.
      minmax_cases; lra.
Qed.

(** The demo project saved and read back from a store that holds the
    file of its video but not the file of its audio. *)
Lemma draft_round_trip_witness :
  let d' :=
    restoreDraft demoUuid (fun blob => js "blob:new")
      (inr (Some (draftPayload 1000 demoDraft))) (getFileFrom demoFiles)
      initialDraft in
  clips (workspace d') = [withUrl (js "blob:new") demoVideo] /\
  sameSettings (settings d') (settings demoDraft) /\
  draftSavedAt d' = Some 1000.
Proof.
  intros d'.
  destruct (draft_round_trip demoUuid (fun blob => js "blob:new") 1000
              (fun _ => inr tt) demoFiles demoDraft initialDraft eq_refl eq_refl)
    as (_ & _ & _ & Hc & _ & _ & _ & Hs & Ht & _).
  split; [| split; [| exact Ht]].
  - etransitivity; [exact Hc |]. vm_compute. reflexivity.
  - apply Hs. unfold settingsInvariant. cbn.
    repeat split; try eval_Q. now exists 120%Z.
Defined.

(** X30.  What [restoreDraft] does when there is nothing to restore or the
    store fails.  It always marks the page as restored, so that later
    edits are saved.  When the read of the project fails, when there is no
    project, or when the read of the file of any stored clip fails, the
    page stays as it was: no clip restored before the failure is kept.
    When the files of all stored clips are gone (without a failed read),
    the page has no clip.  Whatever the store holds, caption settings that
    were within the bounds of the caption panel are within them afterwards,
    so the caption scale is between 0.5 and 2.2.  Before the page has restored, [saveDraft] writes
    nothing. *)
Theorem restoreDraft_outcomes (uuid : nat -> jsstring)
    (createUrl : list N -> jsstring)
    (getProject : Thrown + option StoredProject.t)
    (getFile : jsstring -> Thrown + option StoredFileRecord.t)
    (now : Q) (putProject : StoredProject.t -> Thrown + unit) (d : Draft) :
  let d' := restoreDraft uuid createUrl getProject getFile d in
  let unchanged := mkDraft (workspace d) (settings d) (draftSavedAt d) true in
  hasRestoredDraft d' = true /\
  ((exists error, getProject = inl error) \/ getProject = inr None ->
   d' = unchanged) /\
  (forall project,
     getProject = inr (Some project) ->
     ((exists storedClip error,
         storedClip ∈ StoredProject.clips project /\
         getFile (StoredClip.fileId storedClip) = inl error) ->
      d' = unchanged) /\
     ((forall storedClip, storedClip ∈ StoredProject.clips project ->
                          getFile (StoredClip.fileId storedClip) = inr None) ->
      clips (workspace d') = [] /\
      draftSavedAt d' = Some (StoredProject.updatedAt project))) /\
  (settingsInvariant (settings d) ->
   settingsInvariant (settings d') /\
   (1 # 2) <= getCaptionScaleFactor (settings d') /\
   getCaptionScaleFactor (settings d') <= (22 # 10)) /\
  (hasRestoredDraft d = false -> saveDraft now putProject d = (d, inr None)).
Proof.
  intros d' unchanged.
  split; [| split; [| split; [| split]]].
  - unfold d', restoreDraft.
    destruct getProject as [e | [project |]]; try reflexivity.
    now destruct (restoreClips _ _ _ _).
  - intros [[e ->] | ->]; reflexivity.
  - intros project ->. split.
    + intros H. unfold d', restoreDraft.
      destruct (restoreClips_throws createUrl getFile _ [] H) as [e ->].
      reflexivity.
    + intros H. unfold d', restoreDraft.
      rewrite (restoreClips_no_files createUrl getFile _ [] H).
      now split.
  - intros Hd.
    assert (Hi : settingsInvariant (settings d')).
    { unfold d'. destruct getProject as [e | [project |]];
        [exact Hd | | exact Hd].
      now apply restoreDraft_settings. }
    split; [exact Hi |].
    destruct (clampCaptionSizePercent_bounds
                (Finite (captionSizePercent (settings d')))) as [[B0 B1] _].
    unfold getCaptionScaleFactor.
    set (c := clampCaptionSizePercent _ 100) in *. clearbody c.
    split; [apply Qle_shift_div_l; lra | apply Qle_shift_div_r; lra].
  - intros H. unfold saveDraft. now rewrite H.
Qed.

(** A project store that cannot be read, on the page as it starts. *)
Lemma restoreDraft_outcomes_witness :
  let d' :=
    restoreDraft demoUuid (fun blob => js "blob:new")
      (inl (JsError (js "The database is closed"))) (getFileFrom demoFiles)
      initialDraft in
  d' = mkDraft (workspace initialDraft) (settings initialDraft) None true /\
  saveDraft 1000 (fun _ => inr tt) initialDraft = (initialDraft, inr None).
Proof.
  intros d'.
  destruct (restoreDraft_outcomes demoUuid (fun blob => js "blob:new")
              (inl (JsError (js "The database is closed"))) (getFileFrom demoFiles)
              1000 (fun _ => inr tt) initialDraft)
    as (_ & H2 & _ & _ & H5).
  split; [apply H2; left; eauto | apply H5; reflexivity].
Defined.
